(** * Litetouch 2000 serial protocol engine

    A shallow embedding of [CommandQueue] (commandQueue.ts, the priority
    command queue) and of [LitetouchConnection] (litetouchConnection.ts:
    the serial transport, the response correlator and the polling driver),
    with the properties the specification states about them, and of the
    level conversions, the status handler and the command handlers of a
    dimmer in [LitetouchPlatform] (platform.ts).

    Conventions of the embedding.
    - A JavaScript [number] is a binary64 float where the source computes
      on an input of any value: the level of [setDimmer] is a [float], the
      clamp, the division and the product are those of IEEE 754, and
      [IEEE.value] is the exact rational value of a finite double.  The
      decoder and the level conversions of the platform work on whole
      numbers in a small range; there [Math.round] takes an exact rational
      ([Q]) and returns an integer ([Z]), and the doubles give the same
      integers ([ieee_raw_to_level_agrees], [matter_level_roundtrip]).
    - A JavaScript string is a [string] of 8-bit code units: the wire is
      ASCII.
    - A promise is a number; the maps [handles] and [exchanges] hold the
      promises that are settled, and settling twice keeps the first
      outcome, as in JavaScript.
    - The event loop is a deterministic [step] function over the callbacks
      the runtime can invoke (a submission, a line from the parser, a timer,
      a write callback, the continuation after [await], [setImmediate]). *)

From Stdlib Require Import ZArith QArith Qround Qabs Qpower Lia Lqa Ascii.
From Stdlib Require Import PrimFloat SpecFloat FloatOps FloatAxioms Uint63.
From stdpp Require Import base option list sorting gmap strings pretty.
Close Scope Q_scope.
Open Scope Z_scope.

(* [naive_solver] clears hypotheses that its own rewriting has removed. *)
Set Warnings "-clear-no-such-hyp".

(** ** JavaScript primitives used by the source *)

Module Js.

(** [Math.round]: the nearest integer, ties towards +infinity. *)
Definition Math_round (x : Q) : Z := Qfloor (x + (1 # 2))%Q.

(** White space of [String.prototype.trim] and of [\s], on 8-bit code
    units: TAB, LF, VT, FF, CR, SP and NBSP. *)
Definition is_space (c : ascii) : bool :=
  let n := N_of_ascii c in
  ((9 <=? n) && (n <=? 13) || (n =? 32) || (n =? 160))%N.

(** [\d] *)
Definition is_digit (c : ascii) : bool :=
  let n := N_of_ascii c in ((48 <=? n) && (n <=? 57))%N.

Definition digit_value (c : ascii) : Z := Z.of_N (N_of_ascii c) - 48.

(** The longest prefix matched by [\s*] is dropped. *)
Fixpoint skip_spaces (s : string) : string :=
  match s with
  | String c s' => if is_space c then skip_spaces s' else s
  | EmptyString => s
  end.

Definition trim_start : string → string := skip_spaces.

Definition trim_end (s : string) : string :=
  String.rev (skip_spaces (String.rev s)).

(** [String.prototype.trim] *)
Definition trim (s : string) : string := trim_end (trim_start s).

(** [parseInt(s, 10)] on a string of decimal digits. *)
Fixpoint parseInt_go (acc : Z) (s : string) : Z :=
  match s with
  | String c s' => parseInt_go (10 * acc + digit_value c) s'
  | EmptyString => acc
  end.

Definition parseInt (s : string) : Z := parseInt_go 0 s.

(** [Number.prototype.toString] on an integer. *)
Definition Number_toString (n : Z) : string := pretty n.

Fixpoint repeat_char (c : ascii) (n : nat) : string :=
  match n with
  | O => EmptyString
  | S n' => String c (repeat_char c n')
  end.

(** [s.padStart(targetLength, c)] for a one-character filler. *)
Definition padStart (targetLength : nat) (c : ascii) (s : string) : string :=
  repeat_char c (targetLength - String.length s) +:+ s.

(** [Array.prototype.findIndex]; [None] stands for -1. *)
Fixpoint findIndex {A} (f : A → bool) (l : list A) : option nat :=
  match l with
  | [] => None
  | x :: l' => if f x then Some O else S <$> findIndex f l'
  end.

(** [array.splice(i, 0, x)] *)
Definition splice {A} (i : nat) (x : A) (l : list A) : list A :=
  take i l ++ x :: drop i l.

(** The carriage return that ends every frame. *)
Definition CR : string := String (ascii_of_nat 13) EmptyString.

End Js.

(** ** Binary64 arithmetic of the source *)

Module IEEE.

(** The double of a whole number from 0 to 2^53. *)
Definition of_Z (z : Z) : float := PrimFloat.of_uint63 (Uint63.of_Z z).

(** [Math.round] on the exact value of a finite double; [None] for NaN
    and the infinities. *)
Definition Math_round (x : float) : option Z :=
  match Prim2SF x with
  | S754_zero _ => Some 0
  | S754_finite s m e =>
      let v := if s then Z.neg m else Z.pos m in
      Some match e with
           | Z0 => v
           | Zpos _ => v * 2 ^ e
           | Zneg p => (2 * v + 2 ^ Z.pos p) `div` 2 ^ (Z.pos p + 1)
           end
  | _ => None
  end.

(** What [Math.round] returns on any double: a whole number, NaN or an
    infinity. *)
Inductive Rounded := Int (z : Z) | NaN | Infinity (negative : bool).

Definition Math_round_any (x : float) : Rounded :=
  match Prim2SF x with
  | S754_nan => NaN
  | S754_infinity s => Infinity s
  | _ => match Math_round x with Some z => Int z | None => NaN end
  end.

(** [Number.prototype.toString] on such a value; a whole number below
    10^21 prints in decimal. *)
Definition Number_toString (n : Rounded) : string :=
  match n with
  | Int z => Js.Number_toString z
  | NaN => "NaN"
  | Infinity negative => if negative then "-Infinity" else "Infinity"
  end.

Definition is_negative_zero (x : float) : bool :=
  match PrimFloat.classify x with FloatClass.NZero => true | _ => false end.

Definition is_positive_zero (x : float) : bool :=
  match PrimFloat.classify x with FloatClass.PZero => true | _ => false end.

(** [Math.min(a, b)]: NaN when an argument is NaN; -0 is smaller than
    +0. *)
Definition Math_min (a b : float) : float :=
  if PrimFloat.is_nan a || PrimFloat.is_nan b then PrimFloat.nan
  else if PrimFloat.ltb a b then a
  else if PrimFloat.ltb b a then b
  else if is_negative_zero a then a else b.

(** [Math.max(a, b)]: NaN when an argument is NaN; +0 is larger than
    -0. *)
Definition Math_max (a b : float) : float :=
  if PrimFloat.is_nan a || PrimFloat.is_nan b then PrimFloat.nan
  else if PrimFloat.ltb a b then b
  else if PrimFloat.ltb b a then a
  else if is_positive_zero a then a else b.

(** The exact value of a finite double; 0 for NaN and the infinities. *)
Definition SF2Q (x : spec_float) : Q :=
  match x with
  | S754_finite s m e =>
      (inject_Z (if s then Z.neg m else Z.pos m) * 2 ^ e)%Q
  | _ => 0%Q
  end.

Definition value (x : float) : Q := SF2Q (Prim2SF x).

(** A double that is zero or positive and finite. *)
Definition nonneg_finite (x : spec_float) : Prop :=
  match x with
  | S754_zero _ | S754_finite false _ _ => True
  | _ => False
  end.

(** [raw <= 1 ? raw * 100 : Math.round((raw / 250) * 100)] on doubles. *)
Definition raw_to_level (raw : Z) : option Z :=
  if raw <=? 1 then Some (raw * 100)
  else
    Math_round (PrimFloat.mul (PrimFloat.div (of_Z raw) (of_Z 250)) (of_Z 100)).

End IEEE.

(** ** Data model *)

(** [interface LoadStatus] *)
Record LoadStatus := {
  address : string;
  level : Z;
  raw : Z
}.

Global Instance LoadStatus_eq_dec : EqDecision LoadStatus.
Proof. solve_decision. Defined.

(** ** Response decoding and command encoding *)

(** [response.match(/^18\s+(\d{3})$/)]; the result is capture group 1. *)
Definition match_status (response : string) : option string :=
  match response with
  | String "1" (String "8" rest) =>
      match rest with
      | String c _ =>
          if Js.is_space c then
            match Js.skip_spaces rest with
            | String d1 (String d2 (String d3 EmptyString)) =>
                if Js.is_digit d1 && Js.is_digit d2 && Js.is_digit d3
                then Some (String d1 (String d2 (String d3 EmptyString)))
                else None
            | _ => None
            end
          else None
      | EmptyString => None
      end
  | _ => None
  end.

(** [raw <= 1 ? raw * 100 : Math.round((raw / 250) * 100)] *)
Definition raw_to_level (raw : Z) : Z :=
  if raw <=? 1 then raw * 100
  else Js.Math_round ((inject_Z raw / 250) * 100)%Q.

(** [!address] holds for [undefined] and for the empty string. *)
Definition falsy (address : option string) : bool :=
  match address with
  | None => true
  | Some a => bool_decide (a = EmptyString)
  end.

Definition parseStatusResponse (response : string) (address : option string)
  : option LoadStatus :=
  match match_status response, address with
  | Some digits, Some a =>
      if falsy address then None
      else
        let raw := Js.parseInt digits in
        Some {| address := a; level := raw_to_level raw; raw := raw |}
  | _, _ => None
  end.

(** [Math.max(0, Math.min(100, level))] *)
Definition clampedLevel (level : float) : float :=
  IEEE.Math_max PrimFloat.zero (IEEE.Math_min (IEEE.of_Z 100) level).

(** [Math.round((clampedLevel / 100) * 250)] *)
Definition rawValue (level : float) : IEEE.Rounded :=
  IEEE.Math_round_any
    (PrimFloat.mul (PrimFloat.div (clampedLevel level) (IEEE.of_Z 100))
       (IEEE.of_Z 250)).

(** [rawValue.toString().padStart(3, '0')] *)
Definition dimmerValue (level : float) : string :=
  Js.padStart 3 "0" (IEEE.Number_toString (rawValue level)).

(** The command text built by [setDimmer]: [` 10 ${address} ${value}`]. *)
Definition setDimmer_command (address : string) (level : float) : string :=
  " 10 " +:+ address +:+ " " +:+ dimmerValue level.

(** The command text built by [setRelay]. *)
Definition setRelay_command (address : string) (on : bool) : string :=
  " 10 " +:+ address +:+ " " +:+ (if on then "001" else "000").

(** The command text built by [queryLoad]: [` 18 ${address}`]. *)
Definition queryLoad_command (address : string) : string :=
  " 18 " +:+ address.


(** [command.match(/^\s*18\s+(\d{1,2}-\d{1,2})/)]; the result is capture
    group 1.  The second [\d{1,2}] is greedy and nothing follows it. *)
Definition match_output (prefix s : string) : option string :=
  match s with
  | String e1 s' =>
      if Js.is_digit e1 then
        match s' with
        | String e2 _ =>
            if Js.is_digit e2
            then Some (prefix +:+ String e1 (String e2 EmptyString))
            else Some (prefix +:+ String e1 EmptyString)
        | EmptyString => Some (prefix +:+ String e1 EmptyString)
        end
      else None
  | EmptyString => None
  end.

Definition match_address (s : string) : option string :=
  match s with
  | String d1 s1 =>
      if Js.is_digit d1 then
        match s1 with
        | String d2 s2 =>
            if Js.is_digit d2 then
              match s2 with
              | String "-" s3 =>
                  match_output (String d1 (String d2 (String "-" EmptyString))) s3
              | _ => None
              end
            else if bool_decide (d2 = "-"%char) then
              match_output (String d1 (String "-" EmptyString)) s2
            else None
        | EmptyString => None
        end
      else None
  | EmptyString => None
  end.

Definition match_query (command : string) : option string :=
  match Js.skip_spaces command with
  | String "1" (String "8" rest) =>
      match rest with
      | String c _ =>
          if Js.is_space c then match_address (Js.skip_spaces rest) else None
      | EmptyString => None
      end
  | _ => None
  end.

(** ** The command queue and the connection *)

(** [enum CommandPriority] *)
Inductive CommandPriority := HIGH | NORMAL.

Global Instance CommandPriority_eq_dec : EqDecision CommandPriority.
Proof. solve_decision. Defined.

(** [new Error(message)] *)
Inductive Error := MkError (message : string).

Global Instance Error_eq_dec : EqDecision Error.
Proof. solve_decision. Defined.

(** How a promise was settled: [resolve(response)] or [reject(error)]. *)
Inductive Settled :=
  | Resolved (response : option string)
  | Rejected (error : Error).

Global Instance Settled_eq_dec : EqDecision Settled.
Proof. solve_decision. Defined.

(** [interface QueuedCommand]; [handle] names the promise whose [resolve]
    and [reject] the entry carries. *)
Record QueuedCommand := {
  command : string;
  priority : CommandPriority;
  handle : nat;
  timestamp : Z
}.

Global Instance QueuedCommand_eq_dec : EqDecision QueuedCommand.
Proof. solve_decision. Defined.

(** The record held by [pendingResponse]: [p_id] names the promise of
    [processCommand] (its [resolve], [reject] and [timeout]). *)
Record Pending := {
  p_id : nat;
  p_address : option string
}.

(** [interface LitetouchConfig] *)
Record LitetouchConfig := {
  serialPort : string;
  baudRate : Z;
  pollingInterval : Z;
  commandTimeout : Z;
  debug : bool
}.

(** The state of one [LitetouchConnection], of the [CommandQueue] it owns
    and of the runtime around them. *)
Record State := {
  queue : list QueuedCommand;  (* [CommandQueue.queue] *)
  processing : bool;  (* [CommandQueue.processing] *)
  portOpen : bool;  (* [this.port?.isOpen] *)
  pendingResponse : option Pending;  (* the single slot of the connection *)
  loadAddresses : list string;
  currentPollingIndex : nat;
  pollingTimer : option Z;  (* the armed polling timer, with its delay *)
  handles : gmap nat Settled;  (* settled promises of [enqueue] *)
  exchanges : gmap nat Settled;  (* settled promises of [processCommand] *)
  timers : gmap nat Z;  (* armed command timeouts, with their delay *)
  writes : gset nat;  (* writes whose callback has not run yet *)
  awaiting : option QueuedCommand;  (* the activation of [processNext] suspended at [await] *)
  immediates : nat;  (* callbacks scheduled by [setImmediate] *)
  next_handle : nat;  (* the number of promises created by [enqueue] *)
  wire : list string;  (* frames written to the port, oldest first *)
  dispatched : list QueuedCommand;  (* commands handed to [processCommand], oldest first *)
  emitted : list LoadStatus  (* ['loadStatus'] events, oldest first *)
}.

Definition set_queue (v : list QueuedCommand) (st : State) : State :=
  Build_State v (processing st) (portOpen st) (pendingResponse st)
    (loadAddresses st) (currentPollingIndex st) (pollingTimer st)
    (handles st) (exchanges st) (timers st) (writes st) (awaiting st)
    (immediates st) (next_handle st) (wire st) (dispatched st) (emitted st).

Definition set_processing (v : bool) (st : State) : State :=
  Build_State (queue st) v (portOpen st) (pendingResponse st)
    (loadAddresses st) (currentPollingIndex st) (pollingTimer st)
    (handles st) (exchanges st) (timers st) (writes st) (awaiting st)
    (immediates st) (next_handle st) (wire st) (dispatched st) (emitted st).

Definition set_portOpen (v : bool) (st : State) : State :=
  Build_State (queue st) (processing st) v (pendingResponse st)
    (loadAddresses st) (currentPollingIndex st) (pollingTimer st)
    (handles st) (exchanges st) (timers st) (writes st) (awaiting st)
    (immediates st) (next_handle st) (wire st) (dispatched st) (emitted st).

Definition set_pendingResponse (v : option Pending) (st : State) : State :=
  Build_State (queue st) (processing st) (portOpen st) v (loadAddresses st)
    (currentPollingIndex st) (pollingTimer st) (handles st) (exchanges st)
    (timers st) (writes st) (awaiting st) (immediates st) (next_handle st)
    (wire st) (dispatched st) (emitted st).

Definition set_loadAddresses (v : list string) (st : State) : State :=
  Build_State (queue st) (processing st) (portOpen st) (pendingResponse st)
    v (currentPollingIndex st) (pollingTimer st) (handles st) (exchanges st)
    (timers st) (writes st) (awaiting st) (immediates st) (next_handle st)
    (wire st) (dispatched st) (emitted st).

Definition set_currentPollingIndex (v : nat) (st : State) : State :=
  Build_State (queue st) (processing st) (portOpen st) (pendingResponse st)
    (loadAddresses st) v (pollingTimer st) (handles st) (exchanges st)
    (timers st) (writes st) (awaiting st) (immediates st) (next_handle st)
    (wire st) (dispatched st) (emitted st).

Definition set_pollingTimer (v : option Z) (st : State) : State :=
  Build_State (queue st) (processing st) (portOpen st) (pendingResponse st)
    (loadAddresses st) (currentPollingIndex st) v (handles st)
    (exchanges st) (timers st) (writes st) (awaiting st) (immediates st)
    (next_handle st) (wire st) (dispatched st) (emitted st).

Definition set_handles (v : gmap nat Settled) (st : State) : State :=
  Build_State (queue st) (processing st) (portOpen st) (pendingResponse st)
    (loadAddresses st) (currentPollingIndex st) (pollingTimer st) v
    (exchanges st) (timers st) (writes st) (awaiting st) (immediates st)
    (next_handle st) (wire st) (dispatched st) (emitted st).

Definition set_exchanges (v : gmap nat Settled) (st : State) : State :=
  Build_State (queue st) (processing st) (portOpen st) (pendingResponse st)
    (loadAddresses st) (currentPollingIndex st) (pollingTimer st)
    (handles st) v (timers st) (writes st) (awaiting st) (immediates st)
    (next_handle st) (wire st) (dispatched st) (emitted st).

Definition set_timers (v : gmap nat Z) (st : State) : State :=
  Build_State (queue st) (processing st) (portOpen st) (pendingResponse st)
    (loadAddresses st) (currentPollingIndex st) (pollingTimer st)
    (handles st) (exchanges st) v (writes st) (awaiting st) (immediates st)
    (next_handle st) (wire st) (dispatched st) (emitted st).

Definition set_writes (v : gset nat) (st : State) : State :=
  Build_State (queue st) (processing st) (portOpen st) (pendingResponse st)
    (loadAddresses st) (currentPollingIndex st) (pollingTimer st)
    (handles st) (exchanges st) (timers st) v (awaiting st) (immediates st)
    (next_handle st) (wire st) (dispatched st) (emitted st).

Definition set_awaiting (v : option QueuedCommand) (st : State) : State :=
  Build_State (queue st) (processing st) (portOpen st) (pendingResponse st)
    (loadAddresses st) (currentPollingIndex st) (pollingTimer st)
    (handles st) (exchanges st) (timers st) (writes st) v (immediates st)
    (next_handle st) (wire st) (dispatched st) (emitted st).

Definition set_immediates (v : nat) (st : State) : State :=
  Build_State (queue st) (processing st) (portOpen st) (pendingResponse st)
    (loadAddresses st) (currentPollingIndex st) (pollingTimer st)
    (handles st) (exchanges st) (timers st) (writes st) (awaiting st) v
    (next_handle st) (wire st) (dispatched st) (emitted st).

Definition set_next_handle (v : nat) (st : State) : State :=
  Build_State (queue st) (processing st) (portOpen st) (pendingResponse st)
    (loadAddresses st) (currentPollingIndex st) (pollingTimer st)
    (handles st) (exchanges st) (timers st) (writes st) (awaiting st)
    (immediates st) v (wire st) (dispatched st) (emitted st).

Definition set_wire (v : list string) (st : State) : State :=
  Build_State (queue st) (processing st) (portOpen st) (pendingResponse st)
    (loadAddresses st) (currentPollingIndex st) (pollingTimer st)
    (handles st) (exchanges st) (timers st) (writes st) (awaiting st)
    (immediates st) (next_handle st) v (dispatched st) (emitted st).

Definition set_dispatched (v : list QueuedCommand) (st : State) : State :=
  Build_State (queue st) (processing st) (portOpen st) (pendingResponse st)
    (loadAddresses st) (currentPollingIndex st) (pollingTimer st)
    (handles st) (exchanges st) (timers st) (writes st) (awaiting st)
    (immediates st) (next_handle st) (wire st) v (emitted st).

Definition set_emitted (v : list LoadStatus) (st : State) : State :=
  Build_State (queue st) (processing st) (portOpen st) (pendingResponse st)
    (loadAddresses st) (currentPollingIndex st) (pollingTimer st)
    (handles st) (exchanges st) (timers st) (writes st) (awaiting st)
    (immediates st) (next_handle st) (wire st) (dispatched st) v.

Section Engine.

Variable config : LitetouchConfig.

(** The state after both constructors have run. *)
Definition init : State :=
  {| queue := []; processing := false; portOpen := false;
     pendingResponse := None; loadAddresses := [];
     currentPollingIndex := O; pollingTimer := None;
     handles := ∅; exchanges := ∅; timers := ∅; writes := ∅;
     awaiting := None; immediates := O; next_handle := O;
     wire := []; dispatched := []; emitted := [] |}.

(** Settling a promise that is already settled has no effect. *)
Definition settle (id : nat) (o : Settled) (m : gmap nat Settled)
  : gmap nat Settled :=
  match m !! id with
  | Some _ => m
  | None => <[id := o]> m
  end.

Definition settle_handle (id : nat) (o : Settled) (st : State) : State :=
  set_handles (settle id o (handles st)) st.

Definition settle_exchange (id : nat) (o : Settled) (st : State) : State :=
  set_exchanges (settle id o (exchanges st)) st.

Definition clearTimeout (id : nat) (st : State) : State :=
  set_timers (delete id (timers st)) st.

(** *** [LitetouchConnection.processCommand]

    The part that runs inside the call: the guard, and the executor of the
    promise.  The timeout and the write callback are [onTimeout] and
    [onWritten] below. *)
Definition processCommand (cmd : QueuedCommand) (st : State) : State :=
  if negb (portOpen st) then
    settle_exchange (handle cmd) (Rejected (MkError "Serial port not open")) st
  else
    let address := match_query (command cmd) in
    let st := set_timers (<[handle cmd := commandTimeout config]> (timers st)) st in
    let st :=
      set_pendingResponse
        (Some {| p_id := handle cmd; p_address := address |}) st in
    let st := set_wire (wire st ++ [command cmd +:+ Js.CR]) st in
    set_writes ({[handle cmd]} ∪ writes st) st.

(** The callback of [setTimeout] in [processCommand], for the exchange
    [id]; it runs only while its timer is armed. *)
Definition onTimeout (id : nat) (st : State) : State :=
  match timers st !! id with
  | None => st
  | Some _ =>
      let st := clearTimeout id st in
      let st := set_pendingResponse None st in
      settle_exchange id (Resolved None) st
  end.

(** The callback of [port.write] in [processCommand], for the exchange
    [id]; it runs once per write. *)
Definition onWritten (id : nat) (err : option Error) (st : State) : State :=
  if bool_decide (id ∈ writes st) then
    let st := set_writes (writes st ∖ {[id]}) st in
    match err with
    | None => st
    | Some e =>
        let st := clearTimeout id st in
        let st := set_pendingResponse None st in
        settle_exchange id (Rejected e) st
    end
  else st.

(** *** [CommandQueue.processNext]

    The part up to [await]: the processor callback is the one the
    connection's constructor registered, so [!this.processCallback] is
    false. *)
Definition processNext (st : State) : State :=
  if processing st then st
  else
    match queue st with
    | [] => st
    | cmd :: rest =>
        let st := set_processing true st in
        let st := set_queue rest st in
        let st := set_awaiting (Some cmd) st in
        let st := set_dispatched (dispatched st ++ [cmd]) st in
        processCommand cmd st
    end.

(** The part of [processNext] after [await]: it runs once the promise of
    [processCommand] is settled. *)
Definition resume (st : State) : State :=
  match awaiting st with
  | None => st
  | Some cmd =>
      match exchanges st !! handle cmd with
      | None => st
      | Some o =>
          let st := settle_handle (handle cmd) o st in
          let st := set_processing false st in
          let st := set_awaiting None st in
          match queue st with
          | [] => st
          | _ :: _ => set_immediates (S (immediates st)) st
          end
      end
  end.

(** A callback scheduled by [setImmediate] in [processNext]. *)
Definition onImmediate (st : State) : State :=
  match immediates st with
  | O => st
  | S n => processNext (set_immediates n st)
  end.

Definition is_normal (cmd : QueuedCommand) : bool :=
  bool_decide (priority cmd = NORMAL).

(** The insertion of [enqueue]: a HIGH entry goes before the first NORMAL
    entry, or last when there is none; a NORMAL entry goes last. *)
Definition enqueue_insert (queuedCmd : QueuedCommand) (queue : list QueuedCommand)
  : list QueuedCommand :=
  match priority queuedCmd with
  | HIGH =>
      match Js.findIndex is_normal queue with
      | None => queue ++ [queuedCmd]
      | Some insertIndex => Js.splice insertIndex queuedCmd queue
      end
  | NORMAL => queue ++ [queuedCmd]
  end.

(** *** [CommandQueue.enqueue]; [now] is the value of [Date.now()]. *)
Definition enqueue (command : string) (priority : CommandPriority) (now : Z)
    (st : State) : State :=
  let queuedCmd :=
    {| command := command; priority := priority;
       handle := next_handle st; timestamp := now |} in
  let st := set_next_handle (S (next_handle st)) st in
  let st := set_queue (enqueue_insert queuedCmd (queue st)) st in
  processNext st.

Definition enqueueHighPriority (command : string) : Z → State → State :=
  enqueue command HIGH.

Definition enqueuePolling (command : string) : Z → State → State :=
  enqueue command NORMAL.

(** [cmd.reject(error)] for every entry of [cmds]. *)
Definition reject_all (error : Error) (cmds : list QueuedCommand)
    (m : gmap nat Settled) : gmap nat Settled :=
  foldl (λ m cmd, settle (handle cmd) (Rejected error) m) m cmds.

(** *** [CommandQueue.clear] *)
Definition clear (st : State) : State :=
  let st :=
    set_handles
      (reject_all (MkError "Queue cleared") (queue st) (handles st)) st in
  set_queue [] st.

(** *** [CommandQueue.clearPollingCommands]

    The callback of [filter] rejects the entries it drops. *)
Definition clearPollingCommands (st : State) : State :=
  let dropped := filter (λ cmd, priority cmd = NORMAL) (queue st) in
  let kept := filter (λ cmd, priority cmd ≠ NORMAL) (queue st) in
  let st :=
    set_handles
      (reject_all (MkError "Polling command cancelled") dropped (handles st))
      st in
  set_queue kept st.

(** *** [LitetouchConnection.handleResponse] *)
Definition handleResponse (data : string) (st : State) : State :=
  let trimmed := Js.trim data in
  let pendingAddress := pendingResponse st ≫= p_address in
  let st :=
    match pendingResponse st with
    | Some p =>
        let st := clearTimeout (p_id p) st in
        let st := settle_exchange (p_id p) (Resolved (Some trimmed)) st in
        set_pendingResponse None st
    | None => st
    end in
  match parseStatusResponse trimmed pendingAddress with
  | Some status => set_emitted (emitted st ++ [status]) st
  | None => st
  end.

(** *** The public operations that submit commands *)
Definition queryLoad (address : string) : Z → State → State :=
  enqueuePolling (queryLoad_command address).

Definition setRelay (address : string) (on : bool) : Z → State → State :=
  enqueueHighPriority (setRelay_command address on).

Definition setDimmer (address : string) (level : float) : Z → State → State :=
  enqueueHighPriority (setDimmer_command address level).

Definition setLoadAddresses (addresses : list string) (st : State) : State :=
  set_currentPollingIndex O (set_loadAddresses addresses st).

(** *** [LitetouchConnection.pollNextLoad]

    An index out of range reads [undefined], which the template of
    [queryLoad] prints. *)
Definition pollNextLoad (now : Z) (st : State) : State :=
  match loadAddresses st with
  | [] => set_pollingTimer (Some (pollingInterval config)) st
  | _ :: _ =>
      let address :=
        default "undefined" (loadAddresses st !! currentPollingIndex st) in
      let st :=
        set_currentPollingIndex
          ((currentPollingIndex st + 1) `mod` length (loadAddresses st))%nat st in
      let st := queryLoad address now st in
      set_pollingTimer (Some (pollingInterval config)) st
  end.

Definition startPolling (now : Z) (st : State) : State :=
  match pollingTimer st with
  | Some _ => st
  | None => pollNextLoad now st
  end.

Definition stopPolling (st : State) : State :=
  match pollingTimer st with
  | Some _ => set_pollingTimer None st
  | None => st
  end.

(** The callback of [setTimeout] in [pollNextLoad]; it runs only while the
    polling timer is armed. *)
Definition onPollingTimer (now : Z) (st : State) : State :=
  match pollingTimer st with
  | Some _ => pollNextLoad now st
  | None => st
  end.

(** *** [LitetouchConnection.close]

    The part that runs inside the call.  The port is released by the
    callback of [port.close], the event [PortClosed] below. *)
Definition close (st : State) : State :=
  let st := stopPolling st in
  let st := clear st in
  match pendingResponse st with
  | Some p =>
      let st := clearTimeout (p_id p) st in
      let st :=
        settle_exchange (p_id p) (Rejected (MkError "Connection closing")) st in
      set_pendingResponse None st
  | None => st
  end.

(** *** The event loop *)

(** What the runtime can run next: a call of the public interface or one of
    the callbacks the code registered. *)
Inductive Event :=
  | Submit (command : string) (priority : CommandPriority) (now : Z)
  | Data (data : string)
  | Timeout (id : nat)
  | Written (id : nat) (err : option Error)
  | Resume
  | Immediate
  | Clear
  | ClearPollingCommands
  | Close
  | PortOpened
  | PortClosed
  | SetLoadAddresses (addresses : list string)
  | StartPolling (now : Z)
  | StopPolling
  | PollingTimer (now : Z).

Definition step (ev : Event) (st : State) : State :=
  match ev with
  | Submit command priority now => enqueue command priority now st
  | Data data => handleResponse data st
  | Timeout id => onTimeout id st
  | Written id err => onWritten id err st
  | Resume => resume st
  | Immediate => onImmediate st
  | Clear => clear st
  | ClearPollingCommands => clearPollingCommands st
  | Close => close st
  | PortOpened => set_portOpen true st
  | PortClosed => set_portOpen false st
  | SetLoadAddresses addresses => setLoadAddresses addresses st
  | StartPolling now => startPolling now st
  | StopPolling => stopPolling st
  | PollingTimer now => onPollingTimer now st
  end.

(** Events run oldest first. *)
Definition run (evs : list Event) (st : State) : State :=
  foldl (λ st ev, step ev st) st evs.

End Engine.

(** ** Vocabulary of the statements *)

(** A run of white space, as [\s+] matches it when it is not empty. *)
Fixpoint all_spaces (s : string) : bool :=
  match s with
  | String c s' => Js.is_space c && all_spaces s'
  | EmptyString => true
  end.

(** The lines of the grammar [18\s+\d{3}]. *)
Definition status_line (ws : string) (d1 d2 d3 : ascii) : string :=
  "18" +:+ ws +:+ String d1 (String d2 (String d3 EmptyString)).

(** The value of three decimal digits. *)
Definition digits_value (d1 d2 d3 : ascii) : Z :=
  100 * Js.digit_value d1 + 10 * Js.digit_value d2 + Js.digit_value d3.

(** A level is encoded by [setDimmer], the controller echoes the raw value
    in a status line, and [parseStatusResponse] decodes that line. *)
Definition roundtrip (lvl : float) : option Z :=
  level <$> parseStatusResponse ("18 " +:+ dimmerValue lvl) (Some "01-1").

Definition agrees (o : option Z) (z : Z) : bool :=
  match o with
  | Some y => y =? z
  | None => false
  end.

(** The order of the queue: no HIGH entry after a NORMAL one, and within
    a class the earlier submission first. *)
Definition before (c1 c2 : QueuedCommand) : Prop :=
  (priority c1 = NORMAL → priority c2 = NORMAL) ∧
  (priority c1 = priority c2 → (handle c1 < handle c2)%nat).

(** The exchanges that were started and are not resolved yet. *)
Definition outstanding (st : State) : list QueuedCommand :=
  filter (λ c, exchanges st !! handle c = None) (dispatched st).

(** The outcomes of [clear] and of [clearPollingCommands]. *)
Definition cancelled (o : Settled) : Prop :=
  o = Rejected (MkError "Queue cleared") ∨
  o = Rejected (MkError "Polling command cancelled").

(** An error whose message names the closing of the connection. *)
Definition names_closing (e : Error) : bool :=
  match e with
  | MkError message =>
      bool_decide (is_Some (String.index 0 "closing" message))
  end.

(** The callbacks that are left for the command in flight: its timeout
    and the continuation of [processNext]. *)
Definition drain (st : State) : list Event :=
  match awaiting st with
  | Some c => [Timeout (handle c); Resume]
  | None => []
  end.

(** What every reachable state satisfies. *)
Record Invariant (config : LitetouchConfig) (st : State) : Prop := {
  inv_sorted : StronglySorted before (queue st);
  inv_queue_nodup : NoDup (handle <$> queue st);
  inv_queue :
    ∀ c, c ∈ queue st →
      (handle c < next_handle st)%nat ∧ handles st !! handle c = None ∧
      handle c ∉ handle <$> dispatched st;
  inv_processing :
    processing st = match awaiting st with Some _ => true | None => false end;
  inv_awaiting :
    ∀ c, awaiting st = Some c →
      c ∈ dispatched st ∧ handles st !! handle c = None ∧
      (exchanges st !! handle c = None ↔ is_Some (timers st !! handle c));
  inv_dispatched :
    ∀ c, c ∈ dispatched st →
      (handle c < next_handle st)%nat ∧
      (handles st !! handle c = None → awaiting st = Some c) ∧
      (exchanges st !! handle c = None → awaiting st = Some c);
  inv_dispatched_nodup : NoDup (handle <$> dispatched st);
  inv_exchanges :
    ∀ id, is_Some (exchanges st !! id) → id ∈ handle <$> dispatched st;
  inv_timers :
    ∀ id, is_Some (timers st !! id) →
      timers st !! id = Some (commandTimeout config) ∧
      ∃ c, awaiting st = Some c ∧ handle c = id;
  inv_writes : ∀ id, id ∈ writes st → id ∈ handle <$> dispatched st;
  inv_pending :
    ∀ p, pendingResponse st = Some p →
      ∃ c, awaiting st = Some c ∧ handle c = p_id p ∧
           p_address p = match_query (command c) ∧
           is_Some (timers st !! p_id p);
  inv_handles :
    ∀ id, is_Some (handles st !! id) → (id < next_handle st)%nat;
  inv_accounted :
    ∀ id, (id < next_handle st)%nat →
      id ∈ handle <$> queue st ∨ id ∈ handle <$> dispatched st ∨
      ∃ o, handles st !! id = Some o ∧ cancelled o
}.

(** A step that starts no exchange: nothing is handed to the transport,
    nothing is written, and the slot keeps its record or loses it. *)
Definition quiet (st st' : State) : Prop :=
  dispatched st' = dispatched st ∧ wire st' = wire st ∧
  (pendingResponse st' = pendingResponse st ∨ pendingResponse st' = None).

(** A step that hands [cmd] to [processCommand]: before it nothing is in
    flight; after it [cmd] is in flight and sorts before what is still
    queued.  On an open port its frame is written, its record is installed
    and its timeout is armed; on a closed port its exchange fails at
    once. *)
Definition dispatches (config : LitetouchConfig) (cmd : QueuedCommand)
    (st st' : State) : Prop :=
  awaiting st = None ∧ pendingResponse st = None ∧ outstanding st = [] ∧
  dispatched st' = dispatched st ++ [cmd] ∧
  awaiting st' = Some cmd ∧ processing st' = true ∧
  handles st' !! handle cmd = None ∧
  Forall (before cmd) (queue st') ∧
  if portOpen st then
    wire st' = wire st ++ [command cmd +:+ Js.CR] ∧
    pendingResponse st'
    = Some {| p_id := handle cmd; p_address := match_query (command cmd) |} ∧
    timers st' !! handle cmd = Some (commandTimeout config) ∧
    outstanding st' = [cmd]
  else
    wire st' = wire st ∧ pendingResponse st' = None ∧
    exchanges st' !! handle cmd
    = Some (Rejected (MkError "Serial port not open")) ∧
    outstanding st' = [].

(** A configuration with the default intervals, for the examples. *)
Definition config0 : LitetouchConfig :=
  {| serialPort := "/dev/ttyUSB0"; baudRate := 9600; pollingInterval := 2000;
     commandTimeout := 1000; debug := false |}.

(** The port opens, a query is submitted, then a set command. *)
Definition two_submissions : list Event :=
  [PortOpened; Submit " 18 01-1" NORMAL 10; Submit " 10 02-1 125" HIGH 11].


(** ** More of the source *)

(** [CommandQueue.length], which [LitetouchConnection.queueLength]
    returns. *)
Definition queueLength (st : State) : nat := length (queue st).

(** [CommandQueue.isProcessing] *)
Definition isProcessing (st : State) : bool := processing st.

(** One or two digits and nothing else. *)
Definition digits12 (s : string) : bool :=
  match s with
  | String d1 EmptyString => Js.is_digit d1
  | String d1 (String d2 EmptyString) => Js.is_digit d1 && Js.is_digit d2
  | _ => false
  end.

(** The strings of [\d{1,2}-\d{1,2}]: what the group of the query grammar
    can capture. *)
Definition is_address (a : string) : bool :=
  match a with
  | String m1 (String c rest) =>
      if bool_decide (c = "-"%char) then Js.is_digit m1 && digits12 rest
      else
        match rest with
        | String c' o =>
            Js.is_digit m1 && Js.is_digit c && bool_decide (c' = "-"%char)
            && digits12 o
        | EmptyString => false
        end
  | _ => false
  end.

(** The frame [processCommand] writes for a command. *)
Definition frame (cmd : QueuedCommand) : string := command cmd +:+ Js.CR.

(** *** The platform (platform.ts): levels and status updates *)

Module Platform.

(** The values of [deviceTypes]. *)
Inductive DeviceType := dimmer | switch.

(** A call of [device.setAttribute] that returned. *)
Inductive AttributeWrite :=
  | OnOff (address : string) (onOff : bool)
  | CurrentLevel (address : string) (currentLevel : Z).

(** The fields of [LitetouchPlatform] that [handleLoadStatus] reads and
    writes, and the attribute writes it made, oldest first. *)
Record State := {
  devices : gset string;
  deviceTypes : gmap string DeviceType;
  lastDimmerLevels : gmap string Z;
  written : list AttributeWrite
}.

(** [Math.round((request.level / 254) * 100)], the percentage the
    [moveToLevel] handlers pass to [setDimmerLevel]. *)
Definition levelOfRequest (requestLevel : Z) : Z :=
  Js.Math_round (inject_Z requestLevel / 254 * 100)%Q.

(** [Math.max(1, Math.round((status.level / 100) * 254))] *)
Definition matterLevel (level : Z) : Z :=
  Z.max 1 (Js.Math_round (inject_Z level / 100 * 254)%Q).

(** [this.lastDimmerLevels.get(load.address) || 100], the level the [on]
    and [toggle] handlers restore: [||] replaces [undefined] and 0. *)
Definition restoredLevel (address : string) (st : State) : Z :=
  match lastDimmerLevels st !! address with
  | Some l => if l =? 0 then 100 else l
  | None => 100
  end.

Definition write (w : AttributeWrite) (st : State) : State :=
  {| devices := devices st; deviceTypes := deviceTypes st;
     lastDimmerLevels := lastDimmerLevels st; written := written st ++ [w] |}.

Definition set_lastDimmerLevel (address : string) (l : Z) (st : State) : State :=
  {| devices := devices st; deviceTypes := deviceTypes st;
     lastDimmerLevels := <[address := l]> (lastDimmerLevels st);
     written := written st |}.

(** [handleLoadStatus]; [active] tells whether [setAttribute] returns or
    throws because the device is not active yet, which the [catch] block
    only logs. *)
Definition handleLoadStatus (status : LoadStatus) (active : bool) (st : State)
  : State :=
  if bool_decide (address status ∈ devices st) then
    match deviceTypes st !! address status with
    | Some dimmer =>
        if active then
          let isOn := 0 <? level status in
          let st := write (OnOff (address status) isOn) st in
          if isOn then
            let st := set_lastDimmerLevel (address status) (level status) st in
            write (CurrentLevel (address status) (matterLevel (level status))) st
          else st
        else st
    | Some switch =>
        if active then write (OnOff (address status) (0 <? level status)) st
        else st
    | None => st
    end
  else st.

(** The platform after [createDevices]: no status was seen yet. *)
Definition start (types : gmap string DeviceType) : State :=
  {| devices := dom types; deviceTypes := types; lastDimmerLevels := ∅;
     written := [] |}.

(** Status events handled oldest first. *)
Definition handleAll (events : list (LoadStatus * bool)) (st : State) : State :=
  foldl (λ st e, handleLoadStatus e.1 e.2 st) st events.

(** The two conversions on doubles. *)
Definition ieee_levelOfRequest (requestLevel : Z) : option Z :=
  IEEE.Math_round
    (PrimFloat.mul (PrimFloat.div (IEEE.of_Z requestLevel) (IEEE.of_Z 254))
       (IEEE.of_Z 100)).

Definition ieee_matterLevel (level : Z) : option Z :=
  Z.max 1 <$>
  IEEE.Math_round
    (PrimFloat.mul (PrimFloat.div (IEEE.of_Z level) (IEEE.of_Z 100))
       (IEEE.of_Z 254)).

End Platform.

(** *** The command handlers of a dimmer (platform.ts, [createDimmerDevice]) *)

Module Handlers.

(** The platform with the delayed ['on'] commands.  A timeout is live from
    [setTimeout] until it fires or [clearTimeout] cancels it, and carries
    what its closure captured: the address of the load and the level to
    restore.  [calls] lists the calls of [setDimmerLevel], oldest first. *)
Record State := {
  platform : Platform.State;
  pendingOnTimers : gmap string nat;
  timeouts : gmap nat (string * Z);
  next_timeout : nat;
  calls : list (string * Z)
}.

Definition set_platform (p : Platform.State) (st : State) : State :=
  {| platform := p; pendingOnTimers := pendingOnTimers st;
     timeouts := timeouts st; next_timeout := next_timeout st;
     calls := calls st |}.

Definition set_pendingOnTimers (m : gmap string nat) (st : State) : State :=
  {| platform := platform st; pendingOnTimers := m;
     timeouts := timeouts st; next_timeout := next_timeout st;
     calls := calls st |}.

Definition set_timeouts (t : gmap nat (string * Z)) (st : State) : State :=
  {| platform := platform st; pendingOnTimers := pendingOnTimers st;
     timeouts := t; next_timeout := next_timeout st; calls := calls st |}.

Definition clearTimeout (timer : nat) (st : State) : State :=
  set_timeouts (delete timer (timeouts st)) st.

(** A call [this.setDimmerLevel(address, level)]. *)
Definition call_setDimmerLevel (address : string) (level : Z) (st : State)
  : State :=
  {| platform := platform st; pendingOnTimers := pendingOnTimers st;
     timeouts := timeouts st; next_timeout := next_timeout st;
     calls := calls st ++ [(address, level)] |}.

(** The start of the ['off'] and [moveToLevel] handlers: the pending timer
    of the load, if there is one, is cancelled and forgotten. *)
Definition cancelPending (address : string) (st : State) : State :=
  match pendingOnTimers st !! address with
  | Some pendingTimer =>
      set_pendingOnTimers (delete address (pendingOnTimers st))
        (clearTimeout pendingTimer st)
  | None => st
  end.

(** The ['on'] handler: it cancels the timer it finds, reads the level to
    restore and arms a new timer. *)
Definition on (address : string) (st : State) : State :=
  let st :=
    match pendingOnTimers st !! address with
    | Some existingTimer => clearTimeout existingTimer st
    | None => st
    end in
  let lastLevel := Platform.restoredLevel address (platform st) in
  let timer := next_timeout st in
  {| platform := platform st;
     pendingOnTimers := <[address := timer]> (pendingOnTimers st);
     timeouts := <[timer := (address, lastLevel)]> (timeouts st);
     next_timeout := S timer; calls := calls st |}.

(** The callback of [setTimeout] in the ['on'] handler; it runs only while
    its timeout is live. *)
Definition onTimer (timer : nat) (st : State) : State :=
  match timeouts st !! timer with
  | None => st
  | Some (address, lastLevel) =>
      let st := clearTimeout timer st in
      let st := set_pendingOnTimers (delete address (pendingOnTimers st)) st in
      call_setDimmerLevel address lastLevel st
  end.

Definition off (address : string) (st : State) : State :=
  call_setDimmerLevel address 0 (cancelPending address st).

(** The ['toggle'] handler; [isOn] is the [onOff] attribute it reads. *)
Definition toggle (address : string) (isOn : bool) (st : State) : State :=
  if isOn then call_setDimmerLevel address 0 st
  else
    call_setDimmerLevel address
      (Platform.restoredLevel address (platform st)) st.

(** The [moveToLevel] and [moveToLevelWithOnOff] handlers, which have the
    same body. *)
Definition moveToLevel (address : string) (requestLevel : Z) (st : State)
  : State :=
  let level := Platform.levelOfRequest requestLevel in
  call_setDimmerLevel address level (cancelPending address st).

(** The part of [onShutdown] that clears the pending timers. *)
Definition onShutdown (st : State) : State :=
  set_pendingOnTimers ∅
    (set_timeouts
       (map_fold (λ _ timer t, delete timer t) (timeouts st)
          (pendingOnTimers st)) st).

(** What can run next: a command of a controller for the dimmer of an
    address, a timer callback, a status event of the connection, or the
    shutdown. *)
Inductive Event :=
  | On (address : string)
  | Off (address : string)
  | Toggle (address : string) (isOn : bool)
  | MoveToLevel (address : string) (requestLevel : Z)
  | MoveToLevelWithOnOff (address : string) (requestLevel : Z)
  | OnTimer (timer : nat)
  | LoadStatusEvent (status : LoadStatus) (active : bool)
  | Shutdown.

Definition step (ev : Event) (st : State) : State :=
  match ev with
  | On address => on address st
  | Off address => off address st
  | Toggle address isOn => toggle address isOn st
  | MoveToLevel address requestLevel => moveToLevel address requestLevel st
  | MoveToLevelWithOnOff address requestLevel =>
      moveToLevel address requestLevel st
  | OnTimer timer => onTimer timer st
  | LoadStatusEvent status active =>
      set_platform (Platform.handleLoadStatus status active (platform st)) st
  | Shutdown => onShutdown st
  end.

Definition run (evs : list Event) (st : State) : State :=
  foldl (λ st ev, step ev st) st evs.

Definition start (types : gmap string Platform.DeviceType) : State :=
  {| platform := Platform.start types; pendingOnTimers := ∅; timeouts := ∅;
     next_timeout := O; calls := [] |}.

(** What every reachable state satisfies: the live timeouts are those the
    map of pending timers names, each under the address it captured. *)
Record Consistent (st : State) : Prop := {
  con_timeouts :
    ∀ timer a l, timeouts st !! timer = Some (a, l) →
      pendingOnTimers st !! a = Some timer ∧ 1 ≤ l;
  con_pending :
    ∀ a timer, pendingOnTimers st !! a = Some timer →
      (timer < next_timeout st)%nat ∧ ∃ l, timeouts st !! timer = Some (a, l);
  con_levels :
    ∀ a l, Platform.lastDimmerLevels (platform st) !! a = Some l → 0 < l
}.

End Handlers.

(** What one step of the event loop may do to the queue, the log of
    dispatches, the promises and the emitted events. *)
Record Effects (st st' : State) : Prop := {
  eff_queue :
    ∀ c, c ∈ queue st' → c ∈ queue st ∨ handle c = next_handle st;
  eff_dispatched :
    dispatched st' = dispatched st ∨
    ∃ cmd,
      dispatched st' = dispatched st ++ [cmd] ∧
      Forall (before cmd) (queue st') ∧
      (cmd ∈ queue st ∨ handle cmd = next_handle st) ∧
      handles st' = handles st ∧ emitted st' = emitted st;
  eff_exchanges :
    ∀ id o, exchanges st !! id = Some o → exchanges st' !! id = Some o;
  eff_handles :
    ∀ id o, handles st' !! id = Some o →
      handles st !! id = Some o ∨
      dispatched st' = dispatched st ∧
      ((∃ c, awaiting st = Some c ∧ handle c = id ∧
             exchanges st !! id = Some o) ∨
       (id ∈ handle <$> queue st ∧ cancelled o));
  eff_emitted :
    emitted st' = emitted st ∨
    dispatched st' = dispatched st ∧
    ∃ cmd a r s,
      awaiting st = Some cmd ∧ match_query (command cmd) = Some a ∧
      exchanges st' !! handle cmd = Some (Resolved (Some r)) ∧
      parseStatusResponse r (Some a) = Some s ∧
      emitted st' = emitted st ++ [s]
}.

(** ** Numbers and strings *)

Lemma forallb_seqZ (P : Z → bool) (lo len : Z) :
  forallb P (seqZ lo len) = true → ∀ z, lo ≤ z < lo + len → P z = true.
Proof.
  intros H z Hz. rewrite forallb_forall in H. apply H.
  apply list_elem_of_In, elem_of_seqZ. exact Hz.
Qed.

Lemma Math_round_bounds (x : Q) :
  (inject_Z (Js.Math_round x) - (1 # 2) <= x)%Q ∧
  (x < inject_Z (Js.Math_round x) + (1 # 2))%Q.
Proof.
  unfold Js.Math_round.
  pose proof (Qfloor_le (x + (1 # 2))) as Hlo.
  pose proof (Qlt_floor (x + (1 # 2))) as Hhi.
  rewrite inject_Z_plus in Hhi. change (inject_Z 1) with 1%Q in Hhi.
  split; lra.
Qed.

Lemma Math_round_unique (x : Q) (n : Z) :
  (inject_Z n - (1 # 2) <= x)%Q → (x < inject_Z n + (1 # 2))%Q →
  Js.Math_round x = n.
Proof.
  intros Hlo Hhi. destruct (Math_round_bounds x) as [Hlo' Hhi'].
  assert (inject_Z (Js.Math_round x) < inject_Z n + 1)%Q as H1 by lra.
  assert (inject_Z n < inject_Z (Js.Math_round x) + 1)%Q as H2 by lra.
  change 1%Q with (inject_Z 1) in H1, H2.
  rewrite <- inject_Z_plus in H1, H2.
  rewrite <- Zlt_Qlt in H1, H2. lia.
Qed.

Lemma scale_up (c : Q) : (c / 100 * 250 == c * (5 # 2))%Q.
Proof. field. Qed.

Lemma scale_down (r : Q) : (r / 250 * 100 == r * (2 # 5))%Q.
Proof. field. Qed.

Lemma agrees_eq (o : option Z) (z : Z) : agrees o z = true → o = Some z.
Proof. destruct o as [y|]; simpl; [|done]. intros ->%Z.eqb_eq. done. Qed.

(** On every three-digit raw value the doubles decode the level that exact
    arithmetic decodes. *)
Lemma ieee_raw_to_level_agrees (r : Z) :
  0 ≤ r ≤ 999 → IEEE.raw_to_level r = Some (raw_to_level r).
Proof.
  intros Hr. apply agrees_eq.
  apply (forallb_seqZ
    (λ r, agrees (IEEE.raw_to_level r) (raw_to_level r)) 0 1000);
    [vm_compute; reflexivity | lia].
Qed.

Lemma digit_not_space (c : ascii) : Js.is_digit c = true → Js.is_space c = false.
Proof.
  unfold Js.is_digit, Js.is_space. generalize (N_of_ascii c). intros n H.
  apply andb_true_iff in H as [H1 H2].
  apply N.leb_le in H1, H2.
  apply orb_false_iff; split; [apply orb_false_iff; split|].
  - apply andb_false_iff. right. apply N.leb_gt. lia.
  - apply N.eqb_neq. lia.
  - apply N.eqb_neq. lia.
Qed.

Lemma digit_value_bounds (c : ascii) :
  Js.is_digit c = true → 0 ≤ Js.digit_value c ≤ 9.
Proof.
  unfold Js.is_digit, Js.digit_value. generalize (N_of_ascii c). intros n H.
  apply andb_true_iff in H as [H1 H2].
  apply N.leb_le in H1, H2. lia.
Qed.

Lemma skip_spaces_app (ws rest : string) :
  all_spaces ws = true → Js.skip_spaces (ws +:+ rest) = Js.skip_spaces rest.
Proof.
  induction ws as [|c ws IH]; intros H; [reflexivity|].
  simpl in H. apply andb_true_iff in H as [Hc Hws].
  change (String c ws +:+ rest) with (String c (ws +:+ rest)).
  simpl. rewrite Hc. apply IH, Hws.
Qed.

Lemma match_status_line (ws : string) (d1 d2 d3 : ascii) :
  ws ≠ EmptyString → all_spaces ws = true →
  Js.is_digit d1 = true → Js.is_digit d2 = true → Js.is_digit d3 = true →
  match_status (status_line ws d1 d2 d3)
  = Some (String d1 (String d2 (String d3 EmptyString))).
Proof.
  intros Hne Hws H1 H2 H3. destruct ws as [|c ws]; [done|].
  pose proof Hws as Hws'. simpl in Hws'.
  apply andb_true_iff in Hws' as [Hc _].
  unfold status_line.
  change ("18" +:+ String c ws +:+ ?d)
    with (String "1" (String "8" (String c (ws +:+ d)))).
  unfold match_status. rewrite Hc.
  change (String c (ws +:+ ?d)) with (String c ws +:+ d).
  rewrite skip_spaces_app by exact Hws.
  simpl. rewrite (digit_not_space _ H1), H1, H2, H3. reflexivity.
Qed.

Lemma pad3_digits (r : Z) :
  0 ≤ r ≤ 999 →
  ∃ d1 d2 d3 : ascii,
    Js.padStart 3 "0" (Js.Number_toString r)
    = String d1 (String d2 (String d3 EmptyString)) ∧
    Js.is_digit d1 = true ∧ Js.is_digit d2 = true ∧ Js.is_digit d3 = true ∧
    Js.parseInt (String d1 (String d2 (String d3 EmptyString))) = r.
Proof.
  intros Hr.
  set (ok (r : Z) :=
    match Js.padStart 3 "0" (Js.Number_toString r) with
    | String d1 (String d2 (String d3 EmptyString)) =>
        Js.is_digit d1 && Js.is_digit d2 && Js.is_digit d3 &&
        bool_decide
          (Js.parseInt (String d1 (String d2 (String d3 EmptyString))) = r)
    | _ => false
    end).
  assert (ok r = true) as H.
  { apply (forallb_seqZ ok 0 1000); [vm_compute; reflexivity | lia]. }
  unfold ok in H.
  destruct (Js.padStart 3 "0" (Js.Number_toString r))
    as [|d1 [|d2 [|d3 [|]]]]; try discriminate.
  apply andb_true_iff in H as [H H4]. apply andb_true_iff in H as [H H3].
  apply andb_true_iff in H as [H1 H2]. apply bool_decide_eq_true in H4.
  exists d1, d2, d3. auto.
Qed.

Lemma parseInt_digits (d1 d2 d3 : ascii) :
  Js.parseInt (String d1 (String d2 (String d3 EmptyString)))
  = digits_value d1 d2 d3.
Proof. unfold Js.parseInt, digits_value. simpl. lia. Qed.

Lemma raw_to_level_dimmer (r : Z) :
  2 ≤ r →
  raw_to_level r = Js.Math_round (inject_Z r / 250 * 100) ∧
  10 * raw_to_level r - 5 ≤ 4 * r < 10 * raw_to_level r + 5.
Proof.
  intros Hr. unfold raw_to_level.
  destruct (r <=? 1) eqn:E; [apply Z.leb_le in E; lia|].
  split; [reflexivity|].
  destruct (Math_round_bounds (inject_Z r / 250 * 100)) as [Hlo Hhi].
  set (l := Js.Math_round (inject_Z r / 250 * 100)) in *.
  rewrite scale_down in Hlo, Hhi.
  assert (inject_Z (10 * l) <= inject_Z (4 * r + 5))%Q as H1.
  { rewrite inject_Z_plus, !inject_Z_mult.
    change (inject_Z 10) with 10%Q. change (inject_Z 5) with 5%Q.
    change (inject_Z 4) with 4%Q. lra. }
  assert (inject_Z (4 * r) < inject_Z (10 * l + 5))%Q as H2.
  { rewrite inject_Z_plus, !inject_Z_mult.
    change (inject_Z 10) with 10%Q. change (inject_Z 5) with 5%Q.
    change (inject_Z 4) with 4%Q. lra. }
  rewrite <- Zle_Qle in H1. rewrite <- Zlt_Qlt in H2. lia.
Qed.

Lemma parseStatusResponse_status_line (ws : string) (d1 d2 d3 : ascii) (a : string) :
  ws ≠ EmptyString → all_spaces ws = true →
  Js.is_digit d1 = true → Js.is_digit d2 = true → Js.is_digit d3 = true →
  a ≠ EmptyString →
  parseStatusResponse (status_line ws d1 d2 d3) (Some a)
  = Some {| address := a; level := raw_to_level (digits_value d1 d2 d3);
            raw := digits_value d1 d2 d3 |}.
Proof.
  intros Hne Hws H1 H2 H3 Ha. unfold parseStatusResponse.
  rewrite (match_status_line ws d1 d2 d3 Hne Hws H1 H2 H3).
  unfold falsy. rewrite bool_decide_eq_false_2 by exact Ha.
  rewrite parseInt_digits. reflexivity.
Qed.

(** C4. A status line of the grammar, correlated to a non-empty address,
    decodes to a status that carries the address and the raw value of the
    three digits; raw 0 and 1 give the levels 0 and 100, and a raw value
    from 2 to 250 gives [Math.round((raw / 250) * 100)], the whole number
    nearest to [raw * 100 / 250], which lies between 1 and 100. *)
Theorem response_decoding (ws : string) (d1 d2 d3 : ascii) (a : string) :
  ws ≠ EmptyString → all_spaces ws = true →
  Js.is_digit d1 = true → Js.is_digit d2 = true → Js.is_digit d3 = true →
  a ≠ EmptyString →
  ∃ l : Z,
    parseStatusResponse (status_line ws d1 d2 d3) (Some a)
    = Some {| address := a; level := l; raw := digits_value d1 d2 d3 |} ∧
    (digits_value d1 d2 d3 = 0 → l = 0) ∧
    (digits_value d1 d2 d3 = 1 → l = 100) ∧
    (2 ≤ digits_value d1 d2 d3 ≤ 250 →
       l = Js.Math_round (inject_Z (digits_value d1 d2 d3) / 250 * 100) ∧
       10 * l - 5 ≤ 4 * digits_value d1 d2 d3 < 10 * l + 5 ∧
       1 ≤ l ≤ 100).
Proof.
  intros Hne Hws H1 H2 H3 Ha.
  exists (raw_to_level (digits_value d1 d2 d3)).
  split; [|split; [|split]].
  - apply parseStatusResponse_status_line; assumption.
  - intros ->. reflexivity.
  - intros ->. reflexivity.
  - intros [Hlo Hhi].
    destruct (raw_to_level_dimmer _ Hlo) as [Heq Hnear].
    split; [exact Heq|]. split; [exact Hnear|]. lia.
Qed.

(** The first example of the specification: ["18 000"] on ["05-1"]. *)
Example example_switch_reply :
  parseStatusResponse "18 000" (Some "05-1")
  = Some {| address := "05-1"; level := 0; raw := 0 |}.
Proof. vm_compute. reflexivity. Qed.

(** The second example of the specification: ["18 125"] on ["01-1"]. *)
Example example_dimmer_reply :
  parseStatusResponse "18 125" (Some "01-1")
  = Some {| address := "01-1"; level := 50; raw := 125 |}.
Proof. vm_compute. reflexivity. Qed.

Lemma response_decoding_witness :
  ∃ l : Z,
    parseStatusResponse "18 125" (Some "01-1")
    = Some {| address := "01-1"; level := l; raw := 125 |} ∧
    (125 = 0 → l = 0) ∧ (125 = 1 → l = 100) ∧
    (2 ≤ 125 ≤ 250 →
       l = Js.Math_round (inject_Z 125 / 250 * 100) ∧
       10 * l - 5 ≤ 4 * 125 < 10 * l + 5 ∧ 1 ≤ l ≤ 100).
Proof.
  apply (response_decoding " " "1" "2" "5" "01-1");
    solve [discriminate | reflexivity].
Defined.

(** ** Binary64 lemmas *)

Lemma digits2_pos_bounds (p : positive) :
  2 ^ (Z.pos (digits2_pos p) - 1) ≤ Z.pos p < 2 ^ Z.pos (digits2_pos p).
Proof.
  induction p as [p IH|p IH|]; simpl digits2_pos.
  - rewrite Pos2Z.inj_succ, Z.pow_succ_r by lia.
    replace (Z.succ (Z.pos (digits2_pos p)) - 1)
      with (Z.succ (Z.pos (digits2_pos p) - 1)) by lia.
    rewrite Z.pow_succ_r by lia. lia.
  - rewrite Pos2Z.inj_succ, Z.pow_succ_r by lia.
    replace (Z.succ (Z.pos (digits2_pos p)) - 1)
      with (Z.succ (Z.pos (digits2_pos p) - 1)) by lia.
    rewrite Z.pow_succ_r by lia. lia.
  - simpl. lia.
Qed.

Lemma Zdigits2_bounds (m : Z) :
  0 < m → 2 ^ (Zdigits2 m - 1) ≤ m < 2 ^ Zdigits2 m.
Proof. destruct m as [|p|p]; [lia| |lia]. intros _. apply digits2_pos_bounds. Qed.

Lemma Zdigits2_nonneg (m : Z) : 0 ≤ Zdigits2 m.
Proof. destruct m; simpl; lia. Qed.

Lemma Zdigits2_le (m : Z) (k : Z) : 0 ≤ k → 0 ≤ m < 2 ^ k → Zdigits2 m ≤ k.
Proof.
  intros Hk [H0 Hm].
  destruct (Z.eq_dec m 0) as [->|Hne]; [simpl; lia|].
  destruct (Zdigits2_bounds m ltac:(lia)) as [Hlo _].
  destruct (Z.le_gt_cases (Zdigits2 m) k) as [|Hgt]; [done|].
  assert (2 ^ k ≤ 2 ^ (Zdigits2 m - 1)) by (apply Z.pow_le_mono_r; lia).
  lia.
Qed.

Lemma shr_1_m (mrs : shr_record) :
  0 ≤ shr_m mrs → shr_m (shr_1 mrs) = shr_m mrs / 2.
Proof.
  destruct mrs as [m r s]. simpl. intros Hm.
  destruct m as [|[p|p|]|p]; unfold shr_1; cbn [shr_m]; try lia.
  - reflexivity.
  - apply (Z.div_unique_pos _ _ _ 1); lia.
  - apply (Z.div_unique_pos _ _ _ 0); lia.
  - reflexivity.
Qed.

Lemma shr_1_nonneg (mrs : shr_record) : 0 ≤ shr_m mrs → 0 ≤ shr_m (shr_1 mrs).
Proof. intros H. rewrite shr_1_m by done. apply Z.div_pos; lia. Qed.

Lemma pow2_xO (p : positive) : 2 ^ Z.pos p~0 = 2 ^ Z.pos p * 2 ^ Z.pos p.
Proof. rewrite <- Z.pow_add_r by lia. f_equal. lia. Qed.

Lemma pow2_xI (p : positive) : 2 ^ Z.pos p~1 = 2 * (2 ^ Z.pos p * 2 ^ Z.pos p).
Proof.
  rewrite <- Z.pow_add_r by lia. rewrite <- Z.pow_succ_r by lia. f_equal. lia.
Qed.

Lemma iter_pos_shr_m (p : positive) (mrs : shr_record) :
  0 ≤ shr_m mrs →
  0 ≤ shr_m (SpecFloat.iter_pos shr_1 p mrs) ∧
  shr_m (SpecFloat.iter_pos shr_1 p mrs) = shr_m mrs / 2 ^ Z.pos p.
Proof.
  revert mrs. induction p as [p IH|p IH|]; intros mrs Hm; simpl SpecFloat.iter_pos.
  - pose proof (shr_1_nonneg mrs Hm) as H1.
    destruct (IH _ H1) as [H2 E2]. destruct (IH _ H2) as [H3 E3].
    split; [done|]. rewrite E3, E2, shr_1_m by done.
    rewrite !Z.div_div by lia. f_equal. rewrite pow2_xI. lia.
  - destruct (IH _ Hm) as [H2 E2]. destruct (IH _ H2) as [H3 E3].
    split; [done|]. rewrite E3, E2.
    rewrite !Z.div_div by lia. f_equal. rewrite pow2_xO. lia.
  - split; [by apply shr_1_nonneg|]. by rewrite shr_1_m.
Qed.

(** [shr_fexp]: the mantissa is divided by the power of two that brings
    the exponent up to the one of the format. *)
Lemma shr_fexp_spec (m e : Z) (l : location) :
  0 ≤ m →
  let e' := Z.max e (fexp prec emax (Zdigits2 m + e)) in
  ∃ mrs, shr_fexp prec emax m e l = (mrs, e') ∧
         0 ≤ shr_m mrs ∧ shr_m mrs = m / 2 ^ (e' - e).
Proof.
  intros Hm e'. unfold shr_fexp, shr.
  assert (shr_m (shr_record_of_loc m l) = m) as Hrec
    by (by destruct l as [|[]]).
  destruct (fexp prec emax (Zdigits2 m + e) - e) as [|p|p] eqn:Hn.
  - exists (shr_record_of_loc m l). subst e'.
    replace (Z.max e (fexp prec emax (Zdigits2 m + e))) with e by lia.
    rewrite Z.sub_diag, Hrec, Z.div_1_r. by repeat split.
  - exists (SpecFloat.iter_pos shr_1 p (shr_record_of_loc m l)). subst e'.
    replace (Z.max e (fexp prec emax (Zdigits2 m + e))) with (e + Z.pos p)
      by lia.
    destruct (iter_pos_shr_m p (shr_record_of_loc m l)) as [H1 H2];
      [by rewrite Hrec|].
    split; [done|]. split; [done|].
    rewrite H2, Hrec. f_equal. f_equal. lia.
  - exists (shr_record_of_loc m l). subst e'.
    replace (Z.max e (fexp prec emax (Zdigits2 m + e))) with e by lia.
    rewrite Z.sub_diag, Hrec, Z.div_1_r. by repeat split.
Qed.

Lemma round_nearest_even_bounds (m : Z) (l : location) :
  m ≤ round_nearest_even m l ≤ m + 1.
Proof.
  unfold round_nearest_even. destruct l as [|[]]; try lia.
  destruct (Z.even m); lia.
Qed.

Lemma fexp_eq (e : Z) : fexp prec emax e = Z.max (e - 53) (-1074).
Proof. reflexivity. Qed.

Lemma pow2_succ (k : Z) : 0 ≤ k → 2 ^ (k + 1) = 2 * 2 ^ k.
Proof. intros Hk. rewrite Z.pow_add_r by lia. lia. Qed.

Lemma div_pow2_bounds (m j : Z) :
  0 ≤ j → m / 2 ^ j * 2 ^ j ≤ m < (m / 2 ^ j + 1) * 2 ^ j.
Proof.
  intros Hj. assert (0 < 2 ^ j) by (apply Z.pow_pos_nonneg; lia).
  pose proof (Z.mul_div_le m (2 ^ j) ltac:(lia)).
  pose proof (Z.mul_succ_div_gt m (2 ^ j) ltac:(lia)). lia.
Qed.

(** What [binary_round_aux] returns on a non-negative mantissa, up to two
    units of the last place. *)
Lemma binary_round_aux_crude (M E : Z) (l : location) :
  0 ≤ M →
  ∃ m3 e3,
    0 ≤ m3 ∧ E ≤ e3 ∧
    e3 ≤ Z.max E (fexp prec emax (Zdigits2 M + E) + 1) ∧
    M - 2 * 2 ^ (e3 - E) ≤ m3 * 2 ^ (e3 - E) ≤ M + 2 ^ (e3 - E) ∧
    binary_round_aux prec emax false M E l
    = match m3 with
      | 0 => S754_zero false
      | Z.pos m =>
          if e3 <=? emax - prec then S754_finite false m e3
          else S754_infinity false
      | Z.neg _ => S754_nan
      end.
Proof.
  intros HM. unfold binary_round_aux.
  destruct (shr_fexp_spec M E l HM) as (mrs1 & -> & H1 & E1).
  set (e1 := Z.max E (fexp prec emax (Zdigits2 M + E))) in *.
  set (m1 := shr_m mrs1) in *.
  pose proof (round_nearest_even_bounds m1 (loc_of_shr_record mrs1)) as Hrne.
  set (m2 := round_nearest_even m1 (loc_of_shr_record mrs1)) in *.
  destruct (shr_fexp_spec m2 e1 loc_Exact ltac:(lia)) as (mrs2 & -> & H2 & E2).
  set (e2 := Z.max e1 (fexp prec emax (Zdigits2 m2 + e1))) in *.
  exists (shr_m mrs2), e2.
  assert (E ≤ e1) as HE1 by lia. assert (e1 ≤ e2) as HE2 by lia.
  pose proof (div_pow2_bounds M (e1 - E) ltac:(lia)) as HB.
  pose proof (div_pow2_bounds m2 (e2 - e1) ltac:(lia)) as HA.
  rewrite <- E1 in HB. rewrite <- E2 in HA.
  assert (2 ^ (e2 - E) = 2 ^ (e2 - e1) * 2 ^ (e1 - E)) as Hpow.
  { rewrite <- Z.pow_add_r by lia. f_equal. lia. }
  assert (0 < 2 ^ (e2 - e1)) as HAp by (apply Z.pow_pos_nonneg; lia).
  assert (0 < 2 ^ (e1 - E)) as HBp by (apply Z.pow_pos_nonneg; lia).
  split; [done|]. split; [lia|]. split.
  { (* the exponent *)
    clear HA HB Hpow HAp HBp. clearbody m1 m2.
    assert (e1 = Z.max E (fexp prec emax (Zdigits2 M + E))) as He1 by done.
    assert (e2 = Z.max e1 (fexp prec emax (Zdigits2 m2 + e1))) as He2 by done.
    clearbody e1 e2. rewrite !fexp_eq in *.
    destruct (Z.eq_dec M 0) as [HM0|HM0].
    - assert (m1 = 0) as Hm1.
      { rewrite E1, HM0. apply Z.div_0_l. lia. }
      assert (Zdigits2 m2 ≤ 1) by (apply Zdigits2_le; simpl; lia).
      subst M. simpl Zdigits2 in *. lia.
    - pose proof (Zdigits2_bounds M ltac:(lia)) as [_ Hhi].
      pose proof (Zdigits2_nonneg M) as Hd0.
      destruct (Z.le_gt_cases (e1 - E) (Zdigits2 M)) as [Hj|Hj].
      + assert (m1 < 2 ^ (Zdigits2 M - (e1 - E))) as Hm1.
        { rewrite E1. apply Z.div_lt_upper_bound; [lia|].
          rewrite <- Z.pow_add_r by lia.
          replace (e1 - E + (Zdigits2 M - (e1 - E))) with (Zdigits2 M) by lia.
          done. }
        assert (Zdigits2 m2 ≤ Zdigits2 M - (e1 - E) + 1).
        { apply Zdigits2_le; [lia|]. split; [lia|].
          rewrite pow2_succ by lia. lia. }
        lia.
      + assert (m1 = 0) as Hm1.
        { rewrite E1. apply Z.div_small. split; [lia|].
          assert (2 ^ Zdigits2 M ≤ 2 ^ (e1 - E))
            by (apply Z.pow_le_mono_r; lia).
          lia. }
        assert (Zdigits2 m2 ≤ 1) by (apply Zdigits2_le; simpl; lia).
        lia. }
  split.
  { rewrite Hpow. set (A := 2 ^ (e2 - e1)) in *. set (B := 2 ^ (e1 - E)) in *.
    set (m3 := shr_m mrs2) in *. clearbody A B m3 m2 m1. nia. }
  destruct (shr_m mrs2) as [|m|m]; [done|done|lia].
Qed.


Lemma Qpow2_pos (e : Z) : (0 < 2 ^ e)%Q.
Proof. by apply Qpower_0_lt. Qed.

Lemma Qpow2_plus (a b : Z) : (2 ^ (a + b) == 2 ^ a * 2 ^ b)%Q.
Proof. by apply Qpower_plus. Qed.

Lemma Qpow2_inject (k : Z) : 0 ≤ k → (inject_Z (2 ^ k) == 2 ^ k)%Q.
Proof. intros Hk. by rewrite Zpower_Qpower. Qed.

Lemma Qpow2_le (a b : Z) : a ≤ b → (2 ^ a <= 2 ^ b)%Q.
Proof. intros H. by apply Qpower_le_compat_l. Qed.

(** A mantissa at a higher exponent. *)
Lemma Qscale (m e E : Z) :
  E ≤ e → (inject_Z m * 2 ^ e == inject_Z (m * 2 ^ (e - E)) * 2 ^ E)%Q.
Proof.
  intros H. rewrite inject_Z_mult, Qpow2_inject by lia.
  rewrite <- Qmult_assoc, <- Qpow2_plus.
  by replace (e - E + E) with e by lia.
Qed.

(** The IEEE.value of what [binary_round_aux] returns. *)
Lemma binary_round_aux_value (M E e_hi : Z) (l : location) :
  0 ≤ M →
  Z.max E (fexp prec emax (Zdigits2 M + E) + 1) ≤ e_hi → e_hi ≤ emax - prec →
  let r := binary_round_aux prec emax false M E l in
  (r = S754_zero false ∨ ∃ m e, r = S754_finite false m e) ∧
  (Qabs (IEEE.SF2Q r - inject_Z M * 2 ^ E) <= 2 * 2 ^ e_hi)%Q.
Proof.
  intros HM Hhi Hmax r.
  destruct (binary_round_aux_crude M E l HM)
    as (m3 & e3 & Hm3 & HE & He3 & [Hlo Hup] & Hr).
  fold r in Hr.
  assert (IEEE.SF2Q r == inject_Z m3 * 2 ^ e3)%Q as Hval.
  { rewrite Hr. destruct m3 as [|m|m];
      [cbn [IEEE.SF2Q]; change (inject_Z 0) with 0%Q; ring| |lia].
    assert ((e3 <=? emax - prec) = true) as -> by (apply Z.leb_le; lia).
    reflexivity. }
  split.
  { rewrite Hr. destruct m3 as [|m|m]; [by left| |lia].
    assert ((e3 <=? emax - prec) = true) as -> by (apply Z.leb_le; lia).
    right. eauto. }
  rewrite Hval, (Qscale m3 e3 E HE).
  assert (2 * 2 ^ e_hi == inject_Z (2 * 2 ^ (e_hi - E)) * 2 ^ E)%Q as ->.
  { rewrite inject_Z_mult, Qpow2_inject by lia.
    rewrite <- Qmult_assoc, <- Qpow2_plus.
    by replace (e_hi - E + E) with e_hi by lia. }
  pose proof (Qpow2_pos E) as HpE.
  assert (2 ^ (e3 - E) ≤ 2 ^ (e_hi - E)) as Hmono
    by (apply Z.pow_le_mono_r; lia).
  assert (0 < 2 ^ (e3 - E)) by (apply Z.pow_pos_nonneg; lia).
  set (a := m3 * 2 ^ (e3 - E)) in *. set (b := 2 * 2 ^ (e_hi - E)).
  assert (M - b ≤ a ≤ M + b) as [Ha1 Ha2] by (subst b; lia).
  rewrite Zle_Qle in Ha1, Ha2.
  rewrite inject_Z_plus in Ha2.
  assert (inject_Z (M - b) == inject_Z M - inject_Z b)%Q as E1.
  { unfold Z.sub. rewrite inject_Z_plus, inject_Z_opp. ring. }
  rewrite E1 in Ha1. clear E1.
  set (t := (2 ^ E)%Q) in *. clearbody t a b.
  apply Qabs_Qle_condition. split.
  - assert (- (inject_Z b * t) == (inject_Z M - inject_Z b - inject_Z M) * t)%Q
      as -> by ring.
    assert (inject_Z a * t - inject_Z M * t == (inject_Z a - inject_Z M) * t)%Q
      as -> by ring.
    apply Qmult_le_compat_r; lra.
  - assert (inject_Z a * t - inject_Z M * t == (inject_Z a - inject_Z M) * t)%Q
      as -> by ring.
    apply Qmult_le_compat_r; lra.
Qed.

Lemma value_digits (m : positive) (e k : Z) :
  (inject_Z (Z.pos m) * 2 ^ e < 2 ^ k)%Q → Z.pos (digits2_pos m) + e ≤ k.
Proof.
  intros H. destruct (Z.le_gt_cases (Z.pos (digits2_pos m) + e) k) as [|Hgt];
    [done|exfalso].
  destruct (digits2_pos_bounds m) as [Hlo _].
  rewrite Zle_Qle, Qpow2_inject in Hlo by lia.
  assert (2 ^ k <= 2 ^ (Z.pos (digits2_pos m) - 1) * 2 ^ e)%Q as H1.
  { rewrite <- Qpow2_plus. apply Qpow2_le. lia. }
  assert (2 ^ (Z.pos (digits2_pos m) - 1) * 2 ^ e
          <= inject_Z (Z.pos m) * 2 ^ e)%Q as H2.
  { apply Qmult_le_compat_r; [done|]. apply Qlt_le_weak, Qpow2_pos. }
  lra.
Qed.


Lemma SF2Q_nonneg (x : spec_float) : IEEE.nonneg_finite x → (0 <= IEEE.SF2Q x)%Q.
Proof.
  destruct x as [s| | |[] m e]; simpl; try done; intros _; try lra.
  apply Qmult_le_0_compat; [done|]. apply Qlt_le_weak, Qpow2_pos.
Qed.

Lemma Prim2SF_250 :
  Prim2SF (IEEE.of_Z 250) = S754_finite false 8796093022208000 (-45).
Proof. vm_compute. reflexivity. Qed.

Lemma Prim2SF_100 :
  Prim2SF (IEEE.of_Z 100) = S754_finite false 7036874417766400 (-46).
Proof. vm_compute. reflexivity. Qed.

(** [d * 250] for a double [d] below 2. *)
Lemma mul250_value (d : float) :
  IEEE.nonneg_finite (Prim2SF d) → (IEEE.value d < 2)%Q →
  let y := PrimFloat.mul d (IEEE.of_Z 250) in
  IEEE.nonneg_finite (Prim2SF y) ∧
  (Qabs (IEEE.value y - IEEE.value d * 250) <= 2 ^ (-42))%Q.
Proof.
  intros Hd Hlt y. unfold IEEE.value in *. subst y.
  rewrite FloatAxioms.mul_spec, Prim2SF_250. unfold SF64mul.
  destruct (Prim2SF d) as [s| | |[] m e] eqn:E; try done.
  cbn [SFmul xorb].
  assert (Z.pos (digits2_pos m) + e ≤ 1) as Hdig.
  { apply value_digits. exact Hlt. }
  pose proof (digits2_pos_bounds m) as [Hm1 Hm2].
  assert (0 < Z.pos (digits2_pos m)) as Hdpos by lia.
  assert (Zdigits2 (Z.pos (m * 8796093022208000))
          ≤ Z.pos (digits2_pos m) + 53) as HdM.
  { apply Zdigits2_le; [lia|]. split; [lia|].
    rewrite Z.pow_add_r by lia. rewrite Pos2Z.inj_mul.
    assert (8796093022208000 < 2 ^ 53) by (vm_compute; reflexivity).
    nia. }
  destruct (binary_round_aux_value (Z.pos (m * 8796093022208000)) (e + -45)
              (-43) loc_Exact) as [Hform Hval].
  { lia. } { rewrite fexp_eq. lia. } { vm_compute. discriminate. }
  split.
  { destruct Hform as [->|(m' & e' & ->)]; done. }
  assert (inject_Z (Z.pos (m * 8796093022208000)) * 2 ^ (e + -45)
          == IEEE.SF2Q (S754_finite false m e) * 250)%Q as Hexact.
  { cbn [IEEE.SF2Q]. rewrite Pos2Z.inj_mul, inject_Z_mult, Qpow2_plus.
    assert (inject_Z 8796093022208000 * 2 ^ (-45) == 250)%Q as H250
      by (vm_compute; reflexivity).
    rewrite <- H250. ring. }
  rewrite Hexact in Hval.
  assert (2 * 2 ^ (-43) == 2 ^ (-42))%Q as <- by (vm_compute; reflexivity).
  exact Hval.
Qed.

(** The truncated quotient that [SFdiv] rounds. *)
Lemma SFdiv_core_binary_spec (m1 e1 m2 e2 : Z) :
  0 < m1 → 0 < m2 →
  let e' :=
    Z.min (fexp prec emax (Zdigits2 m1 + e1 - (Zdigits2 m2 + e2))) (e1 - e2) in
  ∃ q l,
    SFdiv_core_binary prec emax m1 e1 m2 e2 = (q, e', l) ∧ 0 ≤ q ∧
    q * m2 ≤ m1 * 2 ^ (e1 - e2 - e') < (q + 1) * m2.
Proof.
  intros H1 H2 e'. unfold SFdiv_core_binary. fold e'.
  set (s := e1 - e2 - e').
  assert (0 ≤ s) as Hs by (subst s e'; lia).
  set (m' := match s with Z.pos _ => Z.shiftl m1 s | 0 => m1 | Z.neg _ => 0 end).
  assert (m' = m1 * 2 ^ s) as Hm'.
  { subst m'. destruct s as [|p|p]; [simpl; lia| |lia].
    by rewrite Z.shiftl_mul_pow2. }
  assert (0 ≤ m') as Hm'0.
  { rewrite Hm'. apply Z.mul_nonneg_nonneg; [lia|]. apply Z.pow_nonneg. lia. }
  pose proof (Z_div_mod m' m2 ltac:(lia)) as Hdiv.
  destruct (Z.div_eucl m' m2) as [q r]. destruct Hdiv as [Heq Hr].
  exists q, (new_location m2 r). split; [done|].
  rewrite <- Hm'. split; nia.
Qed.

Lemma Qpow2_m46 : (inject_Z 7036874417766400 * 2 ^ (-46) == 100)%Q.
Proof. vm_compute. reflexivity. Qed.

(** [c / 100] for a double [c] from 0 to 100. *)
Lemma div100_value (c : float) :
  IEEE.nonneg_finite (Prim2SF c) → (IEEE.value c <= 100)%Q →
  let d := PrimFloat.div c (IEEE.of_Z 100) in
  IEEE.nonneg_finite (Prim2SF d) ∧
  (Qabs (IEEE.value d - IEEE.value c / 100) <= 2 ^ (-49))%Q.
Proof.
  intros Hc Hle d. unfold IEEE.value in *. subst d.
  rewrite FloatAxioms.div_spec, Prim2SF_100. unfold SF64div.
  destruct (Prim2SF c) as [s| | |[] m e] eqn:E; try done.
  cbn [SFdiv xorb].
  set (mb := 7036874417766400%positive).
  assert (Z.pos (digits2_pos m) + e ≤ 7) as Hdig.
  { apply value_digits. cbn [IEEE.SF2Q] in Hle.
    assert (2 ^ 7 == 128)%Q by (vm_compute; reflexivity). lra. }
  pose proof (digits2_pos_bounds m) as [Hm1 Hm2].
  assert (0 < Z.pos (digits2_pos m)) as Hdpos by lia.
  assert (Zdigits2 (Z.pos mb) = 53) as Hdb by (vm_compute; reflexivity).
  destruct (SFdiv_core_binary_spec (Z.pos m) e (Z.pos mb) (-46))
    as (q & l & -> & Hq0 & Hq1 & Hq2); [lia..|].
  rewrite Hdb in *. cbn [Zdigits2] in *.
  set (e' := Z.min (fexp prec emax (Z.pos (digits2_pos m) + e - (53 + -46)))
                   (e - -46)) in *.
  assert (e' ≤ -53) as He' by (subst e'; rewrite fexp_eq; lia).
  set (s := e - -46 - e') in *.
  assert (0 ≤ s) as Hs by (subst s e'; lia).
  assert (Zdigits2 q + e' ≤ 1) as Hdq.
  { destruct (Z.le_gt_cases 52 (Z.pos (digits2_pos m) + s)) as [Hbig|Hsmall].
    - assert (Zdigits2 q ≤ Z.pos (digits2_pos m) + s - 52); [|subst s; lia].
      apply Zdigits2_le; [lia|]. split; [done|].
      assert (2 ^ 52 ≤ Z.pos mb) by (vm_compute; discriminate).
      assert (Z.pos m * 2 ^ s < 2 ^ (Z.pos (digits2_pos m) + s)) as Hlt.
      { rewrite Z.pow_add_r by lia.
        apply Z.mul_lt_mono_pos_r; [apply Z.pow_pos_nonneg; lia|done]. }
      replace (Z.pos (digits2_pos m) + s)
        with (Z.pos (digits2_pos m) + s - 52 + 52) in Hlt by lia.
      rewrite Z.pow_add_r in Hlt by lia.
      assert (0 < 2 ^ (Z.pos (digits2_pos m) + s - 52))
        by (apply Z.pow_pos_nonneg; lia).
      nia.
    - assert (q = 0); [|subst q; simpl; lia].
      assert (2 ^ 52 ≤ Z.pos mb) by (vm_compute; discriminate).
      assert (Z.pos m * 2 ^ s < 2 ^ 52) as Hlt.
      { assert (Z.pos m * 2 ^ s < 2 ^ (Z.pos (digits2_pos m) + s)).
        { rewrite Z.pow_add_r by lia.
          apply Z.mul_lt_mono_pos_r; [apply Z.pow_pos_nonneg; lia|done]. }
        assert (2 ^ (Z.pos (digits2_pos m) + s) ≤ 2 ^ 52)
          by (apply Z.pow_le_mono_r; lia).
        lia. }
      nia. }
  destruct (binary_round_aux_value q e' (-51) l) as [Hform Hval].
  { done. } { rewrite fexp_eq. lia. } { vm_compute. discriminate. }
  split.
  { destruct Hform as [->|(m' & e'' & ->)]; done. }
  (* the exact quotient lies within one unit of [q] *)
  cbn [IEEE.SF2Q].
  set (X := (inject_Z (Z.pos m) * 2 ^ e)%Q) in *.
  set (r := IEEE.SF2Q _) in *. clearbody r.
  assert (inject_Z q * 2 ^ e' * 100 <= X ∧
          X <= (inject_Z q + 1) * 2 ^ e' * 100)%Q as [HX1 HX2].
  { rewrite Zle_Qle in Hq1. apply Z.lt_le_incl in Hq2. rewrite Zle_Qle in Hq2.
    rewrite !inject_Z_mult, Qpow2_inject in Hq1, Hq2 by lia.
    rewrite inject_Z_plus in Hq2.
    assert (2 ^ s == 2 ^ e * 2 ^ 46 * / 2 ^ e')%Q as Hs2.
    { rewrite <- Qpow2_plus. subst s.
      replace (e - -46 - e') with (e + 46 + - e') by lia.
      rewrite Qpow2_plus, Qpower_opp. reflexivity. }
    rewrite Hs2 in Hq1, Hq2.
    pose proof Qpow2_m46 as H100.
    pose proof (Qpow2_pos e') as Hpe'.
    assert (2 ^ (-46) * 2 ^ 46 == 1)%Q as H46 by (vm_compute; reflexivity).
    fold mb in H100.
    assert (inject_Z (Z.pos mb) == 100 * 2 ^ 46)%Q as Hmb.
    { rewrite <- H100, <- Qmult_assoc, H46. ring. }
    rewrite Hmb in Hq1, Hq2.
    pose proof (Qpow2_pos 46) as Hp46.
    set (t := (2 ^ e')%Q) in *. set (u := (2 ^ 46)%Q) in *.
    assert (inject_Z (Z.pos m) * (2 ^ e * u * / t) == X * u * / t)%Q as HXe
      by (subst X; ring).
    rewrite HXe in Hq1, Hq2. clearbody X t u. clear HXe.
    split.
    - apply (Qmult_le_r _ _ (u * / t)); [apply Qmult_lt_0_compat;
        [done|by apply Qinv_lt_0_compat]|].
      assert (inject_Z q * t * 100 * (u * / t) == inject_Z q * (100 * u))%Q
        as -> by (field; lra).
      assert (X * (u * / t) == X * u * / t)%Q as -> by ring. done.
    - apply (Qmult_le_r _ _ (u * / t)); [apply Qmult_lt_0_compat;
        [done|by apply Qinv_lt_0_compat]|].
      assert ((inject_Z q + 1) * t * 100 * (u * / t)
              == (inject_Z q + 1) * (100 * u))%Q as -> by (field; lra).
      assert (X * (u * / t) == X * u * / t)%Q as -> by ring. done. }
  assert (2 ^ e' <= 2 ^ (-53))%Q as Hpe by (by apply Qpow2_le).
  pose proof (Qpow2_pos e') as Hpe'.
  assert (2 ^ (-53) == 1 # 9007199254740992)%Q as H53 by (vm_compute; reflexivity).
  assert (2 * 2 ^ (-51) == 1 # 1125899906842624)%Q as H51 by (vm_compute; reflexivity).
  assert (2 ^ (-49) == 1 # 562949953421312)%Q as H49 by (vm_compute; reflexivity).
  rewrite H53 in Hpe. rewrite H51 in Hval. rewrite H49.
  set (t := (2 ^ e')%Q) in *. set (Qq := (inject_Z q * t)%Q) in *.
  assert ((inject_Z q + 1) * t * 100 == (Qq + t) * 100)%Q as HX2' by (subst Qq; ring).
  rewrite HX2' in HX2. clearbody Qq t X.
  apply Qabs_Qle_condition in Hval as [Hv1 Hv2].
  apply Qabs_Qle_condition.
  assert (X / 100 == X * (1 # 100))%Q as -> by (field; lra).
  split; lra.
Qed.


Lemma is_nan_spec (x : float) :
  PrimFloat.is_nan x = match Prim2SF x with S754_nan => true | _ => false end.
Proof.
  unfold PrimFloat.is_nan. rewrite FloatAxioms.eqb_spec. unfold SFeqb.
  destruct (Prim2SF x) as [[]|[]| |[] m e]; simpl; try done.
  - rewrite Z.compare_refl, Pos.compare_cont_refl. done.
  - rewrite Z.compare_refl, Pos.compare_cont_refl. done.
Qed.

Lemma Prim2SF_zero : Prim2SF PrimFloat.zero = S754_zero false.
Proof. reflexivity. Qed.

Lemma ltb_zero (x : float) :
  PrimFloat.ltb PrimFloat.zero x = true →
  Prim2SF x = S754_infinity false ∨ ∃ m e, Prim2SF x = S754_finite false m e.
Proof.
  rewrite FloatAxioms.ltb_spec, Prim2SF_zero. unfold SFltb.
  destruct (Prim2SF x) as [[]|[]| |[] m e]; simpl; try done; eauto.
Qed.

(** A finite positive double that is not above 100. *)
Lemma not_above_100 (x : float) (m : positive) (e : Z) :
  Prim2SF x = S754_finite false m e →
  PrimFloat.ltb (IEEE.of_Z 100) x = false →
  (IEEE.value x <= 100)%Q.
Proof.
  intros Hx. pose proof (FloatAxioms.Prim2SF_valid x) as Hvalid.
  rewrite FloatAxioms.ltb_spec.
  rewrite Prim2SF_100. unfold IEEE.value. rewrite Hx in *.
  unfold SFltb. cbn [SFcompare IEEE.SF2Q].
  unfold SpecFloat.valid_binary, bounded, canonical_mantissa in Hvalid.
  apply andb_true_iff in Hvalid as [Hcanon _]. apply Z.eqb_eq in Hcanon.
  rewrite fexp_eq in Hcanon.
  pose proof (digits2_pos_bounds m) as [_ Hm].
  destruct (Z.compare_spec (-46) e) as [<-|Hlt|Hgt].
  - rewrite Pos.compare_cont_spec. unfold Pos.switch_Eq.
    destruct (Pos.compare 7036874417766400 m) eqn:Hc.
    + intros _. apply Pos.compare_eq in Hc. subst m.
      rewrite Qpow2_m46. apply Qle_refl.
    + intros Hf. discriminate Hf.
    + intros _. apply Pos.compare_gt_iff in Hc.
      assert (Z.pos m ≤ 7036874417766400) as H
        by (apply Z.lt_le_incl; exact Hc).
      rewrite Zle_Qle in H.
      rewrite <- Qpow2_m46. apply Qmult_le_compat_r; [exact H|].
      apply Qlt_le_weak, Qpow2_pos.
  - intros Hf. discriminate Hf.
  - intros _.
    assert (Z.pos (digits2_pos m) ≤ 53) as Hd by lia.
    assert (Z.pos m < 2 ^ 53) as Hm53.
    { assert (2 ^ Z.pos (digits2_pos m) ≤ 2 ^ 53)
        by (apply Z.pow_le_mono_r; lia). lia. }
    assert (inject_Z (Z.pos m) <= inject_Z (2 ^ 53))%Q as H1
      by (rewrite <- Zle_Qle; lia).
    assert (2 ^ e <= 2 ^ (-47))%Q as H2 by (apply Qpow2_le; lia).
    pose proof (Qpow2_pos e) as H3.
    assert (inject_Z (Z.pos m) * 2 ^ e <= inject_Z (2 ^ 53) * 2 ^ (-47))%Q as H4.
    { assert (0 <= inject_Z (Z.pos m))%Q as H0.
      { change 0%Q with (inject_Z 0). rewrite <- Zle_Qle.
        apply Pos2Z.is_nonneg. }
      apply Qmult_le_compat_nonneg; split; lra. }
    assert (inject_Z (2 ^ 53) * 2 ^ (-47) == 64)%Q as H5 by (vm_compute; reflexivity).
    lra.
Qed.

Lemma is_nan_100 : PrimFloat.is_nan (IEEE.of_Z 100) = false.
Proof. reflexivity. Qed.

Lemma SFcompare_swap (a b : spec_float) :
  SFcompare b a = option_map CompOpp (SFcompare a b).
Proof.
  destruct a as [[]|[]| |[] m1 e1], b as [[]|[]| |[] m2 e2];
    cbn [SFcompare option_map CompOpp]; try reflexivity.
  - rewrite (Z.compare_antisym e1 e2).
    pose proof (Pos.compare_cont_antisym m1 m2 Eq) as H. cbn [CompOpp] in H.
    destruct (e1 ?= e2); cbn [CompOpp]; try reflexivity.
    rewrite <- H. by destruct (Pos.compare_cont Eq m1 m2).
  - rewrite (Z.compare_antisym e1 e2).
    pose proof (Pos.compare_cont_antisym m1 m2 Eq) as H. cbn [CompOpp] in H.
    destruct (e1 ?= e2); cbn [CompOpp]; try reflexivity.
    by rewrite <- H.
Qed.

Lemma ltb_swap (a b : float) :
  PrimFloat.ltb a b = true → PrimFloat.ltb b a = false.
Proof.
  rewrite !FloatAxioms.ltb_spec. unfold SFltb.
  rewrite (SFcompare_swap (Prim2SF a) (Prim2SF b)).
  by destruct (SFcompare (Prim2SF a) (Prim2SF b)) as [[]|].
Qed.

Lemma above_100_positive (level : float) :
  PrimFloat.ltb (IEEE.of_Z 100) level = true →
  PrimFloat.ltb PrimFloat.zero level = true.
Proof.
  rewrite !FloatAxioms.ltb_spec.
  rewrite Prim2SF_100, Prim2SF_zero. unfold SFltb.
  destruct (Prim2SF level) as [[]|[]| |[] m e]; cbn [SFcompare];
    intros H; try discriminate H; reflexivity.
Qed.

(** Two doubles that compare equal and are not zero are the same. *)
Lemma equal_100 (level : float) :
  PrimFloat.is_nan level = false →
  PrimFloat.ltb (IEEE.of_Z 100) level = false →
  PrimFloat.ltb level (IEEE.of_Z 100) = false →
  level = IEEE.of_Z 100.
Proof.
  intros Hnan Habove Hbelow. apply Prim2SF_inj.
  rewrite FloatAxioms.ltb_spec in Habove, Hbelow.
  rewrite is_nan_spec in Hnan. unfold SFltb in *.
  rewrite (SFcompare_swap (Prim2SF (IEEE.of_Z 100)) (Prim2SF level)) in Hbelow.
  rewrite Prim2SF_100 in *.
  destruct (Prim2SF level) as [[]|[]| |[] m e]; cbn [SFcompare option_map] in *;
    try discriminate Habove; try discriminate Hbelow; try discriminate Hnan.
  destruct (Z.compare_spec (-46) e) as [<-|Hlt|Hgt]; cbn [CompOpp] in *;
    try discriminate Habove; try discriminate Hbelow.
  rewrite Pos.compare_cont_spec in *. unfold Pos.switch_Eq in *.
  destruct (Pos.compare 7036874417766400 m) eqn:Hc; cbn [CompOpp] in *;
    try discriminate Habove; try discriminate Hbelow.
  apply Pos.compare_eq in Hc. by subst m.
Qed.

(** What the clamp returns for a level that is not NaN. *)
Lemma clampedLevel_cases (level : float) :
  PrimFloat.is_nan level = false →
  (clampedLevel level = PrimFloat.zero ∧
   PrimFloat.ltb PrimFloat.zero level = false) ∨
  (clampedLevel level = IEEE.of_Z 100 ∧
   PrimFloat.ltb level (IEEE.of_Z 100) = false ∧
   PrimFloat.ltb PrimFloat.zero level = true) ∨
  (clampedLevel level = level ∧
   PrimFloat.ltb PrimFloat.zero level = true ∧
   PrimFloat.ltb level (IEEE.of_Z 100) = true).
Proof.
  intros Hnan. unfold clampedLevel, IEEE.Math_min.
  rewrite is_nan_100, Hnan. cbn [orb].
  destruct (PrimFloat.ltb (IEEE.of_Z 100) level) eqn:Habove.
  - right; left. split; [reflexivity|]. split.
    + by apply ltb_swap.
    + by apply above_100_positive.
  - destruct (PrimFloat.ltb level (IEEE.of_Z 100)) eqn:Hbelow.
    + unfold IEEE.Math_max. rewrite Hnan.
      change (PrimFloat.is_nan PrimFloat.zero) with false. cbn [orb].
      destruct (PrimFloat.ltb PrimFloat.zero level) eqn:Hpos.
      * right; right. done.
      * left. split; [|reflexivity].
        destruct (PrimFloat.ltb level PrimFloat.zero); reflexivity.
    + change (IEEE.is_negative_zero (IEEE.of_Z 100)) with false. cbv iota.
      rewrite (equal_100 level Hnan Habove Hbelow).
      right; left. done.
Qed.

Lemma Qfloor_unique (x : Q) (z : Z) :
  (inject_Z z <= x)%Q → (x < inject_Z z + 1)%Q → Qfloor x = z.
Proof.
  intros H1 H2.
  pose proof (Qfloor_le x) as H3. pose proof (Qlt_floor x) as H4.
  assert (inject_Z (Qfloor x) < inject_Z (z + 1))%Q as H5
    by (rewrite inject_Z_plus; change (inject_Z 1) with 1%Q; lra).
  assert (inject_Z z < inject_Z (Qfloor x + 1))%Q as H6
    by (rewrite inject_Z_plus in H4 |- *; change (inject_Z 1) with 1%Q in *; lra).
  rewrite <- Zlt_Qlt in H5, H6. lia.
Qed.

(** [Math.round] on a finite double is the rounding of its value. *)
Lemma Math_round_any_value (y : float) :
  IEEE.nonneg_finite (Prim2SF y) →
  IEEE.Math_round_any y = IEEE.Int (Qfloor (IEEE.value y + (1 # 2))%Q).
Proof.
  unfold IEEE.Math_round_any, IEEE.Math_round, IEEE.value.
  destruct (Prim2SF y) as [s| | |[] m e]; try done; intros _.
  f_equal. symmetry. cbn [IEEE.SF2Q].
  destruct e as [|p|p].
  - apply Qfloor_unique; change (2 ^ 0)%Q with 1%Q; lra.
  - rewrite <- Qpow2_inject, <- inject_Z_mult by lia.
    apply Qfloor_unique; lra.
  - set (r := (2 * Z.pos m + 2 ^ Z.pos p) `div` 2 ^ (Z.pos p + 1)).
    assert (0 < 2 ^ Z.pos p) as Hp by (apply Z.pow_pos_nonneg; lia).
    assert (2 ^ (Z.pos p + 1) = 2 * 2 ^ Z.pos p) as Hp1
      by (apply pow2_succ; lia).
    pose proof (Z.mul_div_le (2 * Z.pos m + 2 ^ Z.pos p) (2 ^ (Z.pos p + 1))
                  ltac:(lia)) as H1.
    pose proof (Z.mul_succ_div_gt (2 * Z.pos m + 2 ^ Z.pos p)
                  (2 ^ (Z.pos p + 1)) ltac:(lia)) as H2.
    fold r in H1, H2. rewrite Hp1 in H1, H2.
    assert (2 ^ Z.neg p == / inject_Z (2 ^ Z.pos p))%Q as ->.
    { rewrite Qpow2_inject by lia.
      change (Z.neg p) with (- Z.pos p). apply Qpower_opp. }
    set (P := 2 ^ Z.pos p) in *.
    assert (0 < inject_Z P)%Q as HP
      by (change 0%Q with (inject_Z 0); rewrite <- Zlt_Qlt; lia).
    rewrite Zle_Qle in H1. rewrite Zlt_Qlt in H2.
    rewrite !inject_Z_mult, !inject_Z_plus, !inject_Z_mult in H1, H2.
    unfold Z.succ in H2. rewrite inject_Z_plus in H2.
    change (inject_Z 2) with 2%Q in *. change (inject_Z 1) with 1%Q in *.
    clearbody r P. set (M := inject_Z (Z.pos m)) in *. clearbody M.
    set (R := inject_Z r) in *. set (PP := inject_Z P) in *.
    apply Qfloor_unique; fold R.
    + apply (Qmult_le_r _ _ (2 * PP)); [lra|].
      assert ((M * / PP + (1 # 2)) * (2 * PP) == 2 * M + PP)%Q as ->
        by (field; lra).
      lra.
    + apply (Qmult_lt_r _ _ (2 * PP)); [lra|].
      assert ((M * / PP + (1 # 2)) * (2 * PP) == 2 * M + PP)%Q as ->
        by (field; lra).
      lra.
Qed.

Lemma clampedLevel_value (level : float) :
  PrimFloat.is_nan level = false →
  IEEE.nonneg_finite (Prim2SF (clampedLevel level)) ∧
  (IEEE.value (clampedLevel level) <= 100)%Q.
Proof.
  intros Hnan.
  destruct (clampedLevel_cases level Hnan)
    as [[-> _]|[[-> _]|(-> & Hpos & Hbelow)]].
  - split; [done|]. vm_compute. discriminate.
  - split; [done|]. vm_compute. discriminate.
  - destruct (ltb_zero level Hpos) as [Hinf|(m & e & Hfin)].
    + exfalso. rewrite FloatAxioms.ltb_spec, Hinf in Hbelow.
      rewrite Prim2SF_100 in Hbelow. discriminate Hbelow.
    + split; [by rewrite Hfin|].
      apply (not_above_100 level m e Hfin). by apply ltb_swap.
Qed.

(** The product [(clampedLevel / 100) * 250] is within 2^-40 of two and a
    half times the clamped level. *)
Lemma scaled_value (c : float) :
  IEEE.nonneg_finite (Prim2SF c) → (IEEE.value c <= 100)%Q →
  let y := PrimFloat.mul (PrimFloat.div c (IEEE.of_Z 100)) (IEEE.of_Z 250) in
  IEEE.nonneg_finite (Prim2SF y) ∧
  (Qabs (IEEE.value y - IEEE.value c * (5 # 2)) <= 2 ^ (-40))%Q.
Proof.
  intros Hc Hle y.
  destruct (div100_value c Hc Hle) as [Hd Hdv].
  pose proof (SF2Q_nonneg _ Hc) as Hc0.
  change (IEEE.SF2Q (Prim2SF c)) with (IEEE.value c) in Hc0.
  set (d := PrimFloat.div c (IEEE.of_Z 100)) in *.
  assert (2 ^ (-49) == 1 # 562949953421312)%Q as H49 by (vm_compute; reflexivity).
  assert (2 ^ (-42) == 1 # 4398046511104)%Q as H42 by (vm_compute; reflexivity).
  assert (2 ^ (-40) == 1 # 1099511627776)%Q as H40 by (vm_compute; reflexivity).
  rewrite H49 in Hdv. apply Qabs_Qle_condition in Hdv as [Hd1 Hd2].
  assert (IEEE.value c / 100 == IEEE.value c * (1 # 100))%Q as Hdiv by (field; lra).
  rewrite Hdiv in Hd1, Hd2.
  destruct (mul250_value d Hd) as [Hy Hyv]; [lra|].
  change (PrimFloat.mul d (IEEE.of_Z 250)) with y in Hy, Hyv.
  split; [exact Hy|].
  rewrite H42 in Hyv. rewrite H40.
  apply Qabs_Qle_condition in Hyv as [Hy1 Hy2].
  apply Qabs_Qle_condition. split; lra.
Qed.

(** Every level that is not NaN is encoded as a whole number from 0 to
    250, the rounding of two and a half times the clamped level. *)
Lemma rawValue_spec (level : float) :
  PrimFloat.is_nan level = false →
  ∃ r, rawValue level = IEEE.Int r ∧ 0 ≤ r ≤ 250 ∧
    (Qabs (inject_Z r - IEEE.value (clampedLevel level) * (5 # 2))
     <= (1 # 2) + 2 ^ (-40))%Q.
Proof.
  intros Hnan. destruct (clampedLevel_value level Hnan) as [Hc Hle].
  destruct (scaled_value _ Hc Hle) as [Hy Hyv].
  pose proof (SF2Q_nonneg _ Hc) as Hc0. pose proof (SF2Q_nonneg _ Hy) as Hy0.
  unfold rawValue. rewrite (Math_round_any_value _ Hy).
  set (y := PrimFloat.mul _ _) in *.
  fold (IEEE.value y) in Hy0. fold (IEEE.value (clampedLevel level)) in Hc0.
  set (vy := IEEE.value y) in *. set (vc := IEEE.value (clampedLevel level)) in *.
  exists (Qfloor (vy + (1 # 2))).
  assert (2 ^ (-40) == 1 # 1099511627776)%Q as H40 by (vm_compute; reflexivity).
  rewrite H40 in *.
  apply Qabs_Qle_condition in Hyv as [Hy1 Hy2].
  pose proof (Qfloor_le (vy + (1 # 2))) as Hf1.
  pose proof (Qlt_floor (vy + (1 # 2))) as Hf2.
  rewrite inject_Z_plus in Hf2. change (inject_Z 1) with 1%Q in Hf2.
  set (r := Qfloor (vy + (1 # 2))) in *. clearbody r vy vc.
  split; [done|]. split.
  - assert (inject_Z (-1) < inject_Z r)%Q as H1
      by (change (inject_Z (-1)) with (-1)%Q; lra).
    assert (inject_Z r < inject_Z 251)%Q as H2
      by (change (inject_Z 251) with 251%Q; lra).
    rewrite <- Zlt_Qlt in H1, H2. lia.
  - apply Qabs_Qle_condition. split; lra.
Qed.

(** ** The encoding of a dimmer level *)

Lemma dimmerValue_digits (lvl : float) (r : Z) :
  rawValue lvl = IEEE.Int r → 0 ≤ r ≤ 250 →
  ∃ d1 d2 d3 : ascii,
    dimmerValue lvl = String d1 (String d2 (String d3 EmptyString)) ∧
    Js.is_digit d1 = true ∧ Js.is_digit d2 = true ∧ Js.is_digit d3 = true ∧
    digits_value d1 d2 d3 = r.
Proof.
  intros Hr Hb.
  destruct (pad3_digits r) as (d1 & d2 & d3 & Hs & H1 & H2 & H3 & Hv); [lia|].
  exists d1, d2, d3. rewrite parseInt_digits in Hv.
  unfold dimmerValue. rewrite Hr. cbn [IEEE.Number_toString]. auto.
Qed.

(** C5, as stated, fails: NaN is a [number], the clamp returns it,
    [Math.round] returns it, and the value field is not three digits of a
    raw value in [0,250]. *)
Lemma setDimmer_encoding_counterexample :
  ¬ (∀ lvl : float, ∃ (r : Z) (d1 d2 d3 : ascii),
       rawValue lvl = IEEE.Int r ∧ 0 ≤ r ≤ 250 ∧
       dimmerValue lvl = String d1 (String d2 (String d3 EmptyString)) ∧
       Js.is_digit d1 = true ∧ Js.is_digit d2 = true ∧ Js.is_digit d3 = true).
Proof.
  intros H. destruct (H PrimFloat.nan) as (r & d1 & d2 & d3 & Hr & _).
  vm_compute in Hr. discriminate Hr.
Qed.

(** The same input traced on the source: the command carries the text
    "NaN". *)
Example nan_trace :
  PrimFloat.is_nan (clampedLevel PrimFloat.nan) = true ∧
  rawValue PrimFloat.nan = IEEE.NaN ∧
  setDimmer_command "01-1" PrimFloat.nan = " 10 01-1 NaN".
Proof. repeat split; vm_compute; reflexivity. Qed.

(** C5, amended.  For every percent input other than NaN, [setDimmer]
    submits, at HIGH priority, the command [" 10 <address> <value>"]: the
    input is first clamped to [0,100] (0 when it is not above 0, 100 when it
    is not below 100, kept otherwise), the clamped value is converted by
    [Math.round((clamped / 100) * 250)] to a whole raw value in [0,250],
    which is two and a half times the clamped value rounded to a whole
    number, up to the rounding of the two operations on doubles (less than
    2^-40), and the value field is that raw value in exactly three decimal
    digits.  Levels 0, 100 and 50 give "000", "250" and "125". *)
Theorem setDimmer_encoding (config : LitetouchConfig) (addr : string) (lvl : float) :
  PrimFloat.is_nan lvl = false →
  ((clampedLevel lvl = PrimFloat.zero ∧
    PrimFloat.ltb PrimFloat.zero lvl = false) ∨
   (clampedLevel lvl = IEEE.of_Z 100 ∧
    PrimFloat.ltb lvl (IEEE.of_Z 100) = false ∧
    PrimFloat.ltb PrimFloat.zero lvl = true) ∨
   (clampedLevel lvl = lvl ∧
    PrimFloat.ltb PrimFloat.zero lvl = true ∧
    PrimFloat.ltb lvl (IEEE.of_Z 100) = true)) ∧
  ((0 <= IEEE.value (clampedLevel lvl))%Q ∧
   (IEEE.value (clampedLevel lvl) <= 100)%Q) ∧
  (∃ (r : Z) (d1 d2 d3 : ascii),
     rawValue lvl = IEEE.Int r ∧ 0 ≤ r ≤ 250 ∧
     (Qabs (inject_Z r - IEEE.value (clampedLevel lvl) * (5 # 2))
      <= (1 # 2) + 2 ^ (-40))%Q ∧
     dimmerValue lvl = String d1 (String d2 (String d3 EmptyString)) ∧
     Js.is_digit d1 = true ∧ Js.is_digit d2 = true ∧ Js.is_digit d3 = true ∧
     digits_value d1 d2 d3 = r) ∧
  (∀ now st,
     setDimmer config addr lvl now st
     = enqueue config (" 10 " +:+ addr +:+ " " +:+ dimmerValue lvl) HIGH now st) ∧
  dimmerValue 0%float = "000" ∧ dimmerValue 100%float = "250" ∧
  dimmerValue 50%float = "125".
Proof.
  intros Hnan.
  split; [by apply clampedLevel_cases|].
  destruct (clampedLevel_value lvl Hnan) as [Hc Hle].
  split; [split; [exact (SF2Q_nonneg _ Hc) | exact Hle]|].
  split.
  { destruct (rawValue_spec lvl Hnan) as (r & Hr & Hb & Hnear).
    destruct (dimmerValue_digits lvl r Hr Hb)
      as (d1 & d2 & d3 & Hs & H1 & H2 & H3 & Hv).
    exists r, d1, d2, d3.
    split; [exact Hr|]. split; [exact Hb|]. split; [exact Hnear|].
    auto. }
  split; [reflexivity|].
  repeat split; vm_compute; reflexivity.
Qed.

Lemma setDimmer_encoding_witness :
  ∃ (r : Z) (d1 d2 d3 : ascii),
    rawValue 50%float = IEEE.Int r ∧ 0 ≤ r ≤ 250 ∧
    (Qabs (inject_Z r - IEEE.value (clampedLevel 50%float) * (5 # 2))
     <= (1 # 2) + 2 ^ (-40))%Q ∧
    dimmerValue 50%float = String d1 (String d2 (String d3 EmptyString)) ∧
    Js.is_digit d1 = true ∧ Js.is_digit d2 = true ∧ Js.is_digit d3 = true ∧
    digits_value d1 d2 d3 = r.
Proof.
  exact (proj1 (proj2 (proj2
    (setDimmer_encoding config0 "01-1" 50%float eq_refl)))).
Defined.

(** The three examples of the specification, and two inputs out of
    range. *)
Example example_setDimmer_commands :
  setDimmer_command "01-1" 0%float = " 10 01-1 000" ∧
  setDimmer_command "01-1" 100%float = " 10 01-1 250" ∧
  setDimmer_command "01-1" 50%float = " 10 01-1 125" ∧
  setDimmer_command "01-1" 250%float = " 10 01-1 250" ∧
  setDimmer_command "01-1" (-7)%float = " 10 01-1 000" ∧
  setDimmer_command "01-1" PrimFloat.infinity = " 10 01-1 250" ∧
  setDimmer_command "01-1" PrimFloat.neg_infinity = " 10 01-1 000".
Proof. repeat split; vm_compute; reflexivity. Qed.

(** Inputs on which the doubles round differently from exact arithmetic:
    0.6 gives 1.5000000000000002 and raw value 2, 0.19999999999999998 gives
    0.5 and raw value 1, and 99.8 gives 249.5 and raw value 250. *)
Example example_double_rounding :
  dimmerValue 0x1.3333333333333p-1%float = "002" ∧
  dimmerValue 0x1.9999999999999p-3%float = "001" ∧
  dimmerValue 0x1.8f33333333333p+6%float = "250".
Proof. repeat split; vm_compute; reflexivity. Qed.

Lemma roundtrip_decodes (lvl : float) (r : Z) :
  rawValue lvl = IEEE.Int r → 0 ≤ r ≤ 250 →
  roundtrip lvl = Some (raw_to_level r).
Proof.
  intros Hr Hb.
  destruct (dimmerValue_digits lvl r Hr Hb)
    as (d1 & d2 & d3 & Hs & H1 & H2 & H3 & Hv).
  unfold roundtrip. rewrite Hs.
  change ("18 " +:+ String d1 (String d2 (String d3 EmptyString)))
    with (status_line " " d1 d2 d3).
  rewrite (parseStatusResponse_status_line " " d1 d2 d3 "01-1") by done.
  simpl. rewrite Hv. reflexivity.
Qed.

Lemma leb_not_nan (a b : float) :
  PrimFloat.leb a b = true → PrimFloat.is_nan b = false.
Proof.
  rewrite FloatAxioms.leb_spec, is_nan_spec. unfold SFleb.
  destruct (Prim2SF b) as [sb|sb| |sb mb eb]; try reflexivity.
  destruct (Prim2SF a) as [[]|[]| |[] ma ea]; cbn [SFcompare];
    intros H; discriminate H.
Qed.

Lemma leb_not_above (a b : float) :
  PrimFloat.leb a b = true → PrimFloat.ltb b a = false.
Proof.
  rewrite FloatAxioms.leb_spec, FloatAxioms.ltb_spec. unfold SFleb, SFltb.
  rewrite (SFcompare_swap (Prim2SF a) (Prim2SF b)).
  by destruct (SFcompare (Prim2SF a) (Prim2SF b)) as [[]|].
Qed.

Lemma zero_value (x : float) :
  PrimFloat.leb PrimFloat.zero x = true →
  PrimFloat.ltb PrimFloat.zero x = false →
  (IEEE.value x == 0)%Q.
Proof.
  rewrite FloatAxioms.leb_spec, FloatAxioms.ltb_spec, Prim2SF_zero.
  unfold SFleb, SFltb, IEEE.value.
  destruct (Prim2SF x) as [[]|[]| |[] m e]; cbn [SFcompare IEEE.SF2Q];
    intros H1 H2; try discriminate H1; try discriminate H2; reflexivity.
Qed.

(** The clamp keeps the value of a level from 0 to 100. *)
Lemma clampedLevel_in_range (lvl : float) :
  PrimFloat.leb PrimFloat.zero lvl = true →
  PrimFloat.leb lvl (IEEE.of_Z 100) = true →
  PrimFloat.is_nan lvl = false ∧
  (IEEE.value (clampedLevel lvl) == IEEE.value lvl)%Q.
Proof.
  intros H0 H100. pose proof (leb_not_nan _ _ H0) as Hnan.
  split; [exact Hnan|].
  destruct (clampedLevel_cases lvl Hnan)
    as [[-> Hz]|[(-> & Hb & _)|(-> & _)]].
  - symmetry. exact (zero_value lvl H0 Hz).
  - rewrite (equal_100 lvl Hnan (leb_not_above _ _ H100) Hb). reflexivity.
  - reflexivity.
Qed.

(** C8, as stated, fails: half a percent is encoded as raw value 1, which
    the decoder reads as a relay that is on, 100 percent. *)
Lemma dimmer_roundtrip_counterexample :
  ¬ (∀ lvl : float,
       PrimFloat.leb PrimFloat.zero lvl = true →
       PrimFloat.leb lvl (IEEE.of_Z 100) = true →
       ∃ l : Z, roundtrip lvl = Some l ∧
                (Qabs (inject_Z l - IEEE.value lvl) <= 1)%Q).
Proof.
  intros H.
  destruct (H 0x1p-1%float) as (l & Hl & Hclose); [reflexivity | reflexivity |].
  vm_compute in Hl. injection Hl as <-.
  vm_compute in Hclose. apply Hclose. reflexivity.
Qed.

(** The same input traced on the source: [setDimmer] sends "001" and the
    decoder answers level 100; so it is for 0.19999999999999998, which
    exact arithmetic would encode as "000". *)
Example half_percent_trace :
  dimmerValue 0x1p-1%float = "001" ∧
  parseStatusResponse "18 001" (Some "01-1")
  = Some {| address := "01-1"; level := 100; raw := 1 |} ∧
  roundtrip 0x1p-1%float = Some 100 ∧
  roundtrip 0x1.9999999999999p-3%float = Some 100.
Proof. repeat split; vm_compute; reflexivity. Qed.

(** C8, amended.  For every level in [0,100] that [setDimmer] does not
    encode as raw value 1, decoding the encoded value gives a level within
    one percentage point of the input. *)
Theorem dimmer_roundtrip (lvl : float) :
  PrimFloat.leb PrimFloat.zero lvl = true →
  PrimFloat.leb lvl (IEEE.of_Z 100) = true →
  rawValue lvl ≠ IEEE.Int 1 →
  ∃ l : Z, roundtrip lvl = Some l ∧
           (Qabs (inject_Z l - IEEE.value lvl) <= 1)%Q.
Proof.
  intros H0 H100 Hne.
  destruct (clampedLevel_in_range lvl H0 H100) as [Hnan Hv].
  destruct (rawValue_spec lvl Hnan) as (r & Hr & Hb & Hnear).
  exists (raw_to_level r). split; [by apply roundtrip_decodes|].
  assert (r ≠ 1) as Hr1 by (intros ->; exact (Hne Hr)).
  rewrite Hv in Hnear.
  assert (2 ^ (-40) == 1 # 1099511627776)%Q as H40 by (vm_compute; reflexivity).
  rewrite H40 in Hnear. apply Qabs_Qle_condition in Hnear as [Hn1 Hn2].
  set (v := IEEE.value lvl) in *. clearbody v. clear Hv Hr Hne.
  apply Qabs_Qle_condition.
  destruct (decide (r = 0)) as [->|Hnz].
  - change (inject_Z (raw_to_level 0)) with 0%Q.
    change (inject_Z 0) with 0%Q in Hn1, Hn2. split; lra.
  - assert (2 ≤ r) as H2 by lia.
    destruct (raw_to_level_dimmer _ H2) as [Heq _]. rewrite Heq.
    destruct (Math_round_bounds (inject_Z r / 250 * 100)) as [Hlo' Hhi'].
    set (l := Js.Math_round (inject_Z r / 250 * 100)) in *.
    rewrite scale_down in Hlo', Hhi'. split; lra.
Qed.

Lemma dimmer_roundtrip_witness :
  ∃ l : Z, roundtrip 50%float = Some l ∧
           (Qabs (inject_Z l - IEEE.value 50%float) <= 1)%Q.
Proof.
  apply (dimmer_roundtrip 50%float); [reflexivity | reflexivity |].
  vm_compute. intros H. discriminate H.
Defined.

(** Whole-number levels are never encoded as raw value 1, and they come
    back unchanged. *)
Lemma whole_levels_roundtrip (n : Z) :
  0 ≤ n ≤ 100 →
  rawValue (IEEE.of_Z n) ≠ IEEE.Int 1 ∧ roundtrip (IEEE.of_Z n) = Some n.
Proof.
  intros Hn.
  set (ok (n : Z) :=
    match rawValue (IEEE.of_Z n) with
    | IEEE.Int r => negb (r =? 1)
    | _ => false
    end && agrees (roundtrip (IEEE.of_Z n)) n).
  assert (ok n = true) as H
    by (apply (forallb_seqZ ok 0 101); [vm_compute; reflexivity | lia]).
  unfold ok in H. apply andb_true_iff in H as [H1 H2]. split.
  - intros E. rewrite E in H1. discriminate H1.
  - apply agrees_eq, H2.
Qed.

(** ** Promises *)

Section Settle.

Implicit Types (m : gmap nat Settled) (o : Settled) (id : nat).

Lemma settle_lookup_Some m id o id' x :
  settle id o m !! id' = Some x ↔
  m !! id' = Some x ∨ (id' = id ∧ m !! id = None ∧ x = o).
Proof.
  unfold settle. destruct (m !! id) as [y|] eqn:E.
  - naive_solver.
  - rewrite lookup_insert. case_decide; naive_solver.
Qed.

Lemma settle_lookup_None m id o id' :
  settle id o m !! id' = None ↔ id' ≠ id ∧ m !! id' = None.
Proof.
  unfold settle. destruct (m !! id) as [y|] eqn:E.
  - naive_solver.
  - rewrite lookup_insert. case_decide; naive_solver.
Qed.

Lemma settle_lookup_eq m id o : m !! id = None → settle id o m !! id = Some o.
Proof. intros H. apply settle_lookup_Some. auto. Qed.

Lemma settle_lookup_ne m id o id' : id' ≠ id → settle id o m !! id' = m !! id'.
Proof.
  intros H. unfold settle. destruct (m !! id); [done|].
  by rewrite lookup_insert_ne.
Qed.

Lemma settle_settled m id o x : m !! id = Some x → settle id o m = m.
Proof. intros H. unfold settle. by rewrite H. Qed.

Lemma settle_is_Some m id o id' :
  is_Some (settle id o m !! id') ↔ id' = id ∨ is_Some (m !! id').
Proof.
  rewrite <- !not_eq_None_Some, settle_lookup_None.
  destruct (decide (id' = id)); naive_solver.
Qed.

Lemma reject_all_lookup_None error cmds m id :
  reject_all error cmds m !! id = None ↔
  (id ∉ handle <$> cmds) ∧ m !! id = None.
Proof.
  revert m. induction cmds as [|c cmds IH]; intros m; simpl.
  - split; [intros H; split; [apply not_elem_of_nil | exact H] | tauto].
  - unfold reject_all in *. simpl. rewrite IH, settle_lookup_None.
    rewrite not_elem_of_cons. naive_solver.
Qed.

Lemma reject_all_lookup_Some error cmds m id x :
  m !! id = Some x → reject_all error cmds m !! id = Some x.
Proof.
  revert m. induction cmds as [|c cmds IH]; intros m H; [exact H|].
  unfold reject_all in *. simpl. apply IH, settle_lookup_Some. auto.
Qed.

Lemma reject_all_lookup_rejected error cmds m id :
  id ∈ handle <$> cmds → m !! id = None →
  reject_all error cmds m !! id = Some (Rejected error).
Proof.
  revert m. induction cmds as [|c cmds IH]; intros m Hin Hm.
  - by apply elem_of_nil in Hin.
  - unfold reject_all in *. simpl.
    destruct (decide (id = handle c)) as [->|Hne].
    + apply reject_all_lookup_Some, settle_lookup_eq, Hm.
    + apply IH.
      * simpl in Hin. apply elem_of_cons in Hin as [?|?]; [done|assumption].
      * apply settle_lookup_None. auto.
Qed.

Lemma reject_all_lookup_other error cmds m id :
  id ∉ handle <$> cmds → reject_all error cmds m !! id = m !! id.
Proof.
  intros Hid. destruct (m !! id) as [x|] eqn:E.
  - by apply reject_all_lookup_Some.
  - by apply reject_all_lookup_None.
Qed.

End Settle.

(** ** The order of the queue *)

Lemma findIndex_None {A} (f : A → bool) (l : list A) :
  Js.findIndex f l = None → Forall (λ x, f x = false) l.
Proof.
  induction l as [|x l IH]; simpl; [constructor|].
  destruct (f x) eqn:E; [discriminate|].
  destruct (Js.findIndex f l); [discriminate|]. auto.
Qed.

Lemma findIndex_Some {A} (f : A → bool) (l : list A) (i : nat) :
  Js.findIndex f l = Some i →
  Forall (λ x, f x = false) (take i l) ∧
  ∃ x l', drop i l = x :: l' ∧ f x = true.
Proof.
  revert i. induction l as [|x l IH]; intros i; simpl; [discriminate|].
  destruct (f x) eqn:E.
  - intros [= <-]. simpl. split; [constructor|]. eauto.
  - destruct (Js.findIndex f l) as [j|]; [|discriminate].
    intros [= <-]. destruct (IH j eq_refl) as [Htake Hdrop].
    simpl. split; [constructor; assumption | exact Hdrop].
Qed.

Lemma enqueue_insert_perm (c : QueuedCommand) (q : list QueuedCommand) :
  enqueue_insert c q ≡ₚ c :: q.
Proof.
  unfold enqueue_insert.
  assert (q ++ [c] ≡ₚ c :: q) as Happ.
  { symmetry. apply Permutation_cons_append. }
  destruct (priority c); [|exact Happ].
  destruct (Js.findIndex is_normal q) as [i|]; [|exact Happ].
  unfold Js.splice. rewrite <- Permutation_middle.
  by rewrite take_drop.
Qed.

Lemma is_normal_true (c : QueuedCommand) : is_normal c = true ↔ priority c = NORMAL.
Proof. unfold is_normal. apply bool_decide_eq_true. Qed.

Lemma is_normal_false (c : QueuedCommand) : is_normal c = false ↔ priority c = HIGH.
Proof.
  unfold is_normal. rewrite bool_decide_eq_false. destruct (priority c); naive_solver.
Qed.

Lemma enqueue_insert_sorted (c : QueuedCommand) (q : list QueuedCommand) :
  StronglySorted before q →
  Forall (λ x, (handle x < handle c)%nat) q →
  StronglySorted before (enqueue_insert c q).
Proof.
  intros Hsorted Hfresh. unfold enqueue_insert.
  destruct (priority c) eqn:Hprio.
  - destruct (Js.findIndex is_normal q) as [i|] eqn:Hidx.
    + apply findIndex_Some in Hidx as (Htake & x & l' & Hdrop & Hx).
      apply is_normal_true in Hx. unfold Js.splice.
      rewrite <- (take_drop i q) in Hsorted, Hfresh.
      apply StronglySorted_app in Hsorted as (Hcross & Hs1 & Hs2).
      apply Forall_app in Hfresh as [Hf1 Hf2].
      apply StronglySorted_app. split; [|split]; [|exact Hs1|].
      * intros x1 x2 Hx1 Hx2. apply elem_of_cons in Hx2 as [->|Hx2]; [|auto].
        rewrite Forall_forall in Htake, Hf1.
        specialize (Htake _ Hx1). apply is_normal_false in Htake.
        split; [congruence | intros _; auto].
      * apply StronglySorted_cons. split; [|exact Hs2].
        rewrite Hdrop in Hs2 |- *. apply StronglySorted_cons in Hs2 as [Hx' _].
        apply Forall_cons. split.
        -- split; congruence.
        -- eapply Forall_impl; [exact Hx'|]. intros y [Hy _].
           split; [auto | rewrite Hprio, (Hy Hx); discriminate].
    + apply findIndex_None in Hidx.
      apply StronglySorted_app. split; [|split]; [|exact Hsorted|].
      * intros x1 x2 Hx1 Hx2. apply list_elem_of_singleton in Hx2 as ->.
        rewrite Forall_forall in Hidx, Hfresh.
        specialize (Hidx _ Hx1). apply is_normal_false in Hidx.
        split; [congruence | intros _; auto].
      * repeat constructor.
  - apply StronglySorted_app. split; [|split]; [|exact Hsorted|].
    + intros x1 x2 Hx1 Hx2. apply list_elem_of_singleton in Hx2 as ->.
      rewrite Forall_forall in Hfresh. split; auto.
    + repeat constructor.
Qed.

Lemma StronglySorted_filter {A} (R : relation A) (P : A → Prop)
    `{∀ x, Decision (P x)} (l : list A) :
  StronglySorted R l → StronglySorted R (filter P l).
Proof.
  induction 1 as [|x l Hl IH Hx]; [constructor|].
  rewrite filter_cons. destruct (decide (P x)); [|exact IH].
  constructor; [exact IH|].
  apply Forall_forall. intros y [_ Hy]%list_elem_of_filter.
  rewrite Forall_forall in Hx. auto.
Qed.

Lemma NoDup_fmap_filter {A B} (f : A → B) (P : A → Prop)
    `{∀ x, Decision (P x)} (l : list A) :
  NoDup (f <$> l) → NoDup (f <$> filter P l).
Proof.
  induction l as [|x l IH]; [done|].
  rewrite fmap_cons, NoDup_cons. intros [Hx Hl].
  rewrite filter_cons. destruct (decide (P x)); [|auto].
  rewrite fmap_cons. apply NoDup_cons. split; [|auto].
  intros (y & Hy & [_ Hin]%list_elem_of_filter)%list_elem_of_fmap.
  apply Hx. rewrite Hy. by apply list_elem_of_fmap_2.
Qed.

Lemma NoDup_fmap_eq {A B} (f : A → B) (l : list A) (x y : A) :
  NoDup (f <$> l) → x ∈ l → y ∈ l → f x = f y → x = y.
Proof.
  induction l as [|z l IH]; [by intros _ ?%elem_of_nil|].
  rewrite fmap_cons, NoDup_cons. intros [Hz Hl].
  intros [->|Hx]%elem_of_cons [->|Hy]%elem_of_cons E; [done|..|by auto].
  - exfalso. apply Hz. rewrite E. by apply list_elem_of_fmap_2.
  - exfalso. apply Hz. rewrite <- E. by apply list_elem_of_fmap_2.
Qed.

(** ** The invariant *)

(** Fields the invariant does not read may change freely. *)
Lemma Invariant_frame (config : LitetouchConfig) (st st' : State) :
  queue st' = queue st → processing st' = processing st →
  pendingResponse st' = pendingResponse st → handles st' = handles st →
  exchanges st' = exchanges st → timers st' = timers st →
  writes st' = writes st → awaiting st' = awaiting st →
  next_handle st' = next_handle st → dispatched st' = dispatched st →
  Invariant config st → Invariant config st'.
Proof.
  intros Hq Hp Hpr Hh He Ht Hw Ha Hn Hd [].
  constructor; rewrite ?Hq, ?Hp, ?Hpr, ?Hh, ?He, ?Ht, ?Hw, ?Ha, ?Hn, ?Hd;
    assumption.
Qed.

(** Closes a goal [Invariant config st'] when [st'] differs from the state
    of [H] only in fields the invariant does not read. *)
Ltac frame_invariant H :=
  eapply Invariant_frame; [..|exact H]; reflexivity.

Section Invariance.

Variable config : LitetouchConfig.

Lemma Invariant_init : Invariant config init.
Proof.
  constructor; simpl; try done.
  - constructor.
  - constructor.
  - intros c Hc. by apply elem_of_nil in Hc.
  - intros c Hc. by apply elem_of_nil in Hc.
  - constructor.
  - intros id [x Hx]. by rewrite lookup_empty in Hx.
  - intros id [x Hx]. by rewrite lookup_empty in Hx.
  - intros id [x Hx]. by rewrite lookup_empty in Hx.
  - intros id. lia.
Qed.

(** While no command is in flight no timer is armed, the slot is empty and
    every dispatched command is settled. *)
Lemma idle_facts (st : State) :
  Invariant config st → awaiting st = None →
  (∀ id, timers st !! id = None) ∧ pendingResponse st = None ∧
  (∀ c, c ∈ dispatched st →
     is_Some (handles st !! handle c) ∧ is_Some (exchanges st !! handle c)).
Proof.
  intros [] Hidle. split; [|split].
  - intros id. apply eq_None_not_Some. intros H.
    destruct (inv_timers0 id H) as (_ & c & Hc & _). congruence.
  - destruct (pendingResponse st) as [p|] eqn:E; [|done].
    destruct (inv_pending0 p eq_refl) as (c & Hc & _). congruence.
  - intros c Hc. destruct (inv_dispatched0 c Hc) as (_ & Hh & He).
    split; apply not_eq_None_Some; intros E; [apply Hh in E | apply He in E];
      congruence.
Qed.

Lemma processNext_invariant (st : State) :
  Invariant config st → Invariant config (processNext config st).
Proof.
  intros Hinv. unfold processNext.
  destruct (processing st) eqn:Hproc; [exact Hinv|].
  destruct (queue st) as [|cmd rest] eqn:Hq; [exact Hinv|].
  assert (awaiting st = None) as Hidle.
  { destruct Hinv. rewrite Hproc in inv_processing0.
    by destruct (awaiting st). }
  destruct (idle_facts st Hinv Hidle) as (Htimers & Hpending & Hsettled).
  destruct Hinv.
  rewrite Hq in *.
  apply StronglySorted_cons in inv_sorted0 as [_ Hsorted].
  rewrite fmap_cons in inv_queue_nodup0.
  apply NoDup_cons in inv_queue_nodup0 as [Hcmd_rest Hnodup].
  destruct (inv_queue0 cmd ltac:(left)) as (Hcmd_lt & Hcmd_handle & Hcmd_fresh).
  assert (exchanges st !! handle cmd = None) as Hcmd_exch.
  { apply eq_None_not_Some. intros H. by apply inv_exchanges0 in H. }
  assert (NoDup ((handle <$> dispatched st) ++ (handle <$> [cmd]))) as Hnodup'.
  { apply NoDup_app. split; [done|]. split.
    - intros x Hx ->%list_elem_of_singleton. done.
    - apply NoDup_singleton. }
  assert (∀ c, c ∈ rest →
            (handle c < next_handle st)%nat ∧ handles st !! handle c = None ∧
            handle c ∉ (handle <$> dispatched st) ++ (handle <$> [cmd]))
    as Hqueue'.
  { intros c Hc. destruct (inv_queue0 c ltac:(by right)) as (? & ? & ?).
    split; [done|]. split; [done|]. rewrite not_elem_of_app. split; [done|].
    intros E%list_elem_of_singleton.
    apply Hcmd_rest. rewrite <- E. apply list_elem_of_fmap. eauto. }
  assert (∀ id, (id < next_handle st)%nat →
            id ∈ handle <$> rest ∨
            id ∈ (handle <$> dispatched st) ++ (handle <$> [cmd]) ∨
            ∃ o, handles st !! id = Some o ∧ cancelled o) as Haccounted'.
  { intros id Hid. rewrite elem_of_app.
    destruct (inv_accounted0 id Hid) as [H|[H|H]]; [|by auto..].
    rewrite fmap_cons in H. apply elem_of_cons in H as [->|H]; [|by auto].
    right; left; right. by left. }
  assert (∀ c, c ∈ dispatched st ++ [cmd] →
            (handle c < next_handle st)%nat ∧
            (handles st !! handle c = None → Some cmd = Some c) ∧
            (exchanges st !! handle c = None → Some cmd = Some c))
    as Hdispatched'.
  { intros c [Hc| ->%list_elem_of_singleton]%elem_of_app; [|done].
    destruct (inv_dispatched0 c Hc) as (? & _ & _).
    destruct (Hsettled c Hc) as [[x Hx] [y Hy]].
    split; [done|]. split; congruence. }
  unfold processCommand. simpl.
  destruct (portOpen st) eqn:Hport; simpl; constructor; simpl;
    rewrite ?fmap_app; try done.
  - intros c [= <-]. split; [apply elem_of_app; right; by left|].
    split; [done|]. rewrite lookup_insert_eq. by split.
  - intros id Hid. apply elem_of_app. left. by apply inv_exchanges0.
  - intros id Hid.
    apply lookup_insert_is_Some in Hid as [<-|[_ [x Hx]]].
    + rewrite lookup_insert_eq. eauto.
    + by rewrite Htimers in Hx.
  - intros id Hid. apply elem_of_app.
    apply elem_of_union in Hid as [->%elem_of_singleton|Hid].
    + right. by left.
    + left. by apply inv_writes0.
  - intros p [= <-]. simpl. exists cmd. rewrite lookup_insert_eq. eauto.
  - intros c [= <-]. split; [apply elem_of_app; right; by left|].
    split; [done|]. rewrite settle_lookup_eq, Htimers by done.
    split; [done | by intros [? ?]].
  - intros c Hc. destruct (Hdispatched' c Hc) as (? & ? & He).
    split; [done|]. split; [done|].
    intros [_ E]%settle_lookup_None. auto.
  - intros id [->|Hid]%settle_is_Some; apply elem_of_app.
    + right. by left.
    + left. by apply inv_exchanges0.
  - intros id [x Hx]. by rewrite Htimers in Hx.
  - intros id Hid. apply elem_of_app. left. by apply inv_writes0.
  - intros p Hp. by rewrite Hpending in Hp.
Qed.

(** The state of [enqueue] between the insertion and [processNext]. *)
Lemma submitted_invariant (c : QueuedCommand) (st : State) :
  Invariant config st → handle c = next_handle st →
  Invariant config
    (set_queue (enqueue_insert c (queue st))
       (set_next_handle (S (next_handle st)) st)).
Proof.
  intros Hinv Hc.
  pose proof (enqueue_insert_perm c (queue st)) as Hperm.
  destruct Hinv.
  assert (Forall (λ x, (handle x < handle c)%nat) (queue st)) as Hfresh.
  { apply Forall_forall. intros x Hx. rewrite Hc. by apply inv_queue0. }
  assert (handles st !! next_handle st = None) as Hnew.
  { apply eq_None_not_Some. intros H%inv_handles0. lia. }
  assert (next_handle st ∉ handle <$> dispatched st) as Hnew'.
  { intros (x & Hx & Hin)%list_elem_of_fmap.
    apply inv_dispatched0 in Hin as [Hlt _]. lia. }
  constructor; simpl; try done.
  - by apply enqueue_insert_sorted.
  - rewrite Hperm, fmap_cons. apply NoDup_cons. split; [|done].
    intros (x & Hx & Hin)%list_elem_of_fmap.
    apply inv_queue0 in Hin as [Hlt _]. lia.
  - intros x Hx. rewrite Hperm in Hx.
    apply elem_of_cons in Hx as [->|Hx]; simpl.
    + rewrite Hc. split; [lia|]. by split.
    + destruct (inv_queue0 x Hx) as (? & ? & ?). split; [lia|]. by split.
  - intros x Hx. destruct (inv_dispatched0 x Hx) as (? & ? & ?).
    split; [lia|]. by split.
  - intros id Hid%inv_handles0. lia.
  - intros id Hid. rewrite Hperm, fmap_cons, elem_of_cons, Hc.
    destruct (decide (id = next_handle st)) as [->|Hne]; [by auto|].
    destruct (inv_accounted0 id ltac:(lia)) as [H|[H|H]]; by auto.
Qed.

Lemma enqueue_invariant (command : string) (priority : CommandPriority)
    (now : Z) (st : State) :
  Invariant config st →
  Invariant config (enqueue config command priority now st).
Proof.
  intros Hinv. unfold enqueue. apply processNext_invariant.
  exact (submitted_invariant
           {| command := command; priority := priority;
              handle := next_handle st; timestamp := now |} st Hinv eq_refl).
Qed.

(** An exchange is resolved: its timer is cleared, the slot is emptied
    and its promise is settled. *)
Lemma resolve_invariant (id : nat) (o : Settled) (st : State) :
  Invariant config st → id ∈ handle <$> dispatched st →
  Invariant config
    (settle_exchange id o (set_pendingResponse None (clearTimeout id st))).
Proof.
  intros [] Hid. constructor; simpl; try done.
  - intros c Hc. destruct (inv_awaiting0 c Hc) as (? & ? & Harmed).
    split; [done|]. split; [done|].
    destruct (decide (handle c = id)) as [->|Hne].
    + rewrite lookup_delete_eq. split.
      * intros [? _]%settle_lookup_None. done.
      * by intros [? ?].
    + by rewrite settle_lookup_ne, lookup_delete_ne.
  - intros c Hc. destruct (inv_dispatched0 c Hc) as (? & ? & He).
    split; [done|]. split; [done|].
    intros [_ E]%settle_lookup_None. auto.
  - intros id' [->|H]%settle_is_Some; auto.
  - intros id' [x Hx]. apply lookup_delete_Some in Hx as [Hne Hx].
    rewrite lookup_delete_ne by done. eauto.
Qed.

Lemma onTimeout_invariant (id : nat) (st : State) :
  Invariant config st → Invariant config (onTimeout id st).
Proof.
  intros Hinv. unfold onTimeout.
  destruct (timers st !! id) as [d|] eqn:Hd; [|exact Hinv].
  apply resolve_invariant; [exact Hinv|].
  destruct (inv_timers config st Hinv id ltac:(eauto)) as (_ & c & Hc & <-).
  apply list_elem_of_fmap_2. by apply (inv_awaiting config st Hinv).
Qed.

Lemma onWritten_invariant (id : nat) (err : option Error) (st : State) :
  Invariant config st → Invariant config (onWritten id err st).
Proof.
  intros Hinv. unfold onWritten. case_bool_decide as Hid; [|exact Hinv].
  assert (Invariant config (set_writes (writes st ∖ {[id]}) st)) as Hinv'.
  { destruct Hinv. constructor; simpl; try done.
    intros id' [Hid' _]%elem_of_difference. auto. }
  destruct err as [e|]; [|exact Hinv'].
  apply (resolve_invariant id (Rejected e) _ Hinv'). simpl.
  by apply (inv_writes config st Hinv).
Qed.

Lemma handleResponse_invariant (data : string) (st : State) :
  Invariant config st → Invariant config (handleResponse data st).
Proof.
  intros Hinv. unfold handleResponse.
  set (st' := match pendingResponse st with Some _ => _ | None => _ end).
  assert (Invariant config st') as Hinv'.
  { subst st'. destruct (pendingResponse st) as [p|] eqn:Hp; [|exact Hinv].
    destruct (inv_pending config st Hinv p Hp) as (c & Hc & Hid & _).
    eapply Invariant_frame;
      [..| apply (resolve_invariant (p_id p) (Resolved (Some (Js.trim data))) st Hinv)];
      try reflexivity.
    rewrite <- Hid. apply list_elem_of_fmap_2. by apply (inv_awaiting config st Hinv). }
  destruct (parseStatusResponse _ _); [|exact Hinv'].
  frame_invariant Hinv'.
Qed.

Lemma resume_invariant (st : State) : Invariant config st → Invariant config (resume st).
Proof.
  intros Hinv. unfold resume.
  destruct (awaiting st) as [cmd|] eqn:Hcmd; [|exact Hinv].
  destruct (exchanges st !! handle cmd) as [o|] eqn:Ho; [|exact Hinv].
  set (st' := set_awaiting None (set_processing false
                (settle_handle (handle cmd) o st))).
  assert (Invariant config st') as Hinv'.
  { destruct Hinv.
    destruct (inv_awaiting0 cmd Hcmd) as (Hin & Hh & Harmed).
    assert (∀ id, timers st !! id = None) as Htimers.
    { intros id. apply eq_None_not_Some. intros Hid.
      destruct (inv_timers0 id Hid) as (_ & c & Hc & <-).
      assert (c = cmd) as -> by congruence.
      apply Harmed in Hid. congruence. }
    constructor; simpl; try done.
    - intros c Hc. destruct (inv_queue0 c Hc) as (? & ? & Hfresh).
      split; [done|]. split; [|done].
      apply settle_lookup_None. split; [|done].
      intros E. apply Hfresh. rewrite E. by apply list_elem_of_fmap_2.
    - intros c Hc. destruct (inv_dispatched0 c Hc) as (? & Hh' & He').
      split; [done|]. split.
      + intros [Hne E]%settle_lookup_None. apply Hh' in E.
        assert (c = cmd) as -> by congruence. done.
      + intros E. pose proof (He' E) as E'.
        assert (c = cmd) as -> by congruence. congruence.
    - intros id [x Hx]. by rewrite Htimers in Hx.
    - intros p Hp. destruct (inv_pending0 p Hp) as (_ & _ & _ & _ & [x Hx]).
      by rewrite Htimers in Hx.
    - intros id [->|Hid]%settle_is_Some; [|auto].
      by apply inv_dispatched0.
    - intros id Hid. destruct (inv_accounted0 id Hid) as [?|[?|(x & Hx & ?)]];
        [by auto..|].
      right; right. exists x. split; [|done].
      apply settle_lookup_Some. by left. }
  simpl. destruct (queue st) as [|c q] eqn:Hq; simpl.
  - eapply Invariant_frame; [..|exact Hinv']; done.
  - eapply Invariant_frame; [..|exact Hinv']; done.
Qed.

Lemma onImmediate_invariant (st : State) :
  Invariant config st → Invariant config (onImmediate config st).
Proof.
  intros Hinv. unfold onImmediate. destruct (immediates st) as [|n]; [done|].
  apply processNext_invariant.
  frame_invariant Hinv.
Qed.

Lemma clear_invariant (st : State) : Invariant config st → Invariant config (clear st).
Proof.
  intros []. unfold clear. constructor; simpl; try done.
  - constructor.
  - constructor.
  - intros c Hc. by apply elem_of_nil in Hc.
  - intros c Hc. destruct (inv_awaiting0 c Hc) as (Hin & Hh & ?).
    split; [done|]. split; [|done].
    apply reject_all_lookup_None. split; [|done].
    intros (x & Hx & Hq)%list_elem_of_fmap.
    apply inv_queue0 in Hq as (_ & _ & Hfresh).
    apply Hfresh. rewrite <- Hx. by apply list_elem_of_fmap_2.
  - intros c Hc. destruct (inv_dispatched0 c Hc) as (? & Hh & ?).
    split; [done|]. split; [|done].
    intros [_ E]%reject_all_lookup_None. auto.
  - intros id Hid. destruct (handles st !! id) as [x|] eqn:E; [by eauto|].
    destruct (decide (id ∈ handle <$> queue st)) as [Hin|Hout].
    + apply list_elem_of_fmap in Hin as (c & -> & Hc). by apply inv_queue0.
    + rewrite reject_all_lookup_other, E in Hid by done. by destruct Hid.
  - intros id Hid. right.
    destruct (inv_accounted0 id Hid) as [Hq|[?|(x & Hx & ?)]]; [|by auto|].
    + right. exists (Rejected (MkError "Queue cleared")). split; [|by left].
      apply reject_all_lookup_rejected; [done|].
      apply list_elem_of_fmap in Hq as (c & -> & Hc). by apply inv_queue0.
    + right. exists x. split; [|done]. by apply reject_all_lookup_Some.
Qed.

Lemma clearPollingCommands_invariant (st : State) :
  Invariant config st → Invariant config (clearPollingCommands st).
Proof.
  intros []. unfold clearPollingCommands. constructor; simpl; try done.
  - by apply StronglySorted_filter.
  - by apply NoDup_fmap_filter.
  - intros c [Hprio Hc]%list_elem_of_filter.
    destruct (inv_queue0 c Hc) as (? & ? & ?).
    split; [done|]. split; [|done].
    apply reject_all_lookup_None. split; [|done].
    intros (x & Hx & [Hx' Hq]%list_elem_of_filter)%list_elem_of_fmap.
    assert (c = x) as -> by eauto using NoDup_fmap_eq. done.
  - intros c Hc. destruct (inv_awaiting0 c Hc) as (Hin & Hh & ?).
    split; [done|]. split; [|done].
    apply reject_all_lookup_None. split; [|done].
    intros (x & Hx & [_ Hq]%list_elem_of_filter)%list_elem_of_fmap.
    apply inv_queue0 in Hq as (_ & _ & Hfresh).
    apply Hfresh. rewrite <- Hx. by apply list_elem_of_fmap_2.
  - intros c Hc. destruct (inv_dispatched0 c Hc) as (? & Hh & ?).
    split; [done|]. split; [|done].
    intros [_ E]%reject_all_lookup_None. auto.
  - intros id Hid. destruct (handles st !! id) as [x|] eqn:E; [by eauto|].
    destruct (decide (id ∈ handle <$>
                filter (λ cmd, priority cmd = NORMAL) (queue st))) as [Hin|Hout].
    + apply list_elem_of_fmap in Hin as (c & -> & [_ Hc]%list_elem_of_filter).
      by apply inv_queue0.
    + rewrite reject_all_lookup_other, E in Hid by done. by destruct Hid.
  - intros id Hid.
    destruct (inv_accounted0 id Hid) as [Hq|[?|(x & Hx & ?)]]; [|by auto|].
    + apply list_elem_of_fmap in Hq as (c & -> & Hc).
      destruct (decide (priority c = NORMAL)) as [Hn|Hh].
      * right; right. exists (Rejected (MkError "Polling command cancelled")).
        split; [|by right]. apply reject_all_lookup_rejected.
        -- apply list_elem_of_fmap_2, list_elem_of_filter. done.
        -- by apply inv_queue0.
      * left. apply list_elem_of_fmap_2, list_elem_of_filter. done.
    + right; right. exists x. split; [|done]. by apply reject_all_lookup_Some.
Qed.

Lemma stopPolling_invariant (st : State) :
  Invariant config st → Invariant config (stopPolling st).
Proof.
  intros Hinv. unfold stopPolling. destruct (pollingTimer st); [|done].
  frame_invariant Hinv.
Qed.

Lemma close_invariant (st : State) : Invariant config st → Invariant config (close st).
Proof.
  intros Hinv. unfold close.
  pose proof (clear_invariant _ (stopPolling_invariant st Hinv)) as Hinv'.
  destruct (pendingResponse (clear (stopPolling st))) as [p|] eqn:Hp;
    [|exact Hinv'].
  destruct (inv_pending config _ Hinv' p Hp) as (c & Hc & Hid & _).
  eapply Invariant_frame;
    [..| apply (resolve_invariant (p_id p)
                  (Rejected (MkError "Connection closing")) _ Hinv')];
    try reflexivity.
  rewrite <- Hid. apply list_elem_of_fmap_2. by apply (inv_awaiting config _ Hinv').
Qed.

Lemma pollNextLoad_invariant (now : Z) (st : State) :
  Invariant config st → Invariant config (pollNextLoad config now st).
Proof.
  intros Hinv. unfold pollNextLoad. destruct (loadAddresses st) eqn:E.
  - frame_invariant Hinv.
  - eapply Invariant_frame;
      [..| apply enqueue_invariant; eapply Invariant_frame; [..|exact Hinv]];
      reflexivity.
Qed.

Lemma step_invariant (ev : Event) (st : State) :
  Invariant config st → Invariant config (step config ev st).
Proof.
  intros Hinv. destruct ev; simpl.
  - by apply enqueue_invariant.
  - by apply handleResponse_invariant.
  - by apply onTimeout_invariant.
  - by apply onWritten_invariant.
  - by apply resume_invariant.
  - by apply onImmediate_invariant.
  - by apply clear_invariant.
  - by apply clearPollingCommands_invariant.
  - by apply close_invariant.
  - frame_invariant Hinv.
  - frame_invariant Hinv.
  - frame_invariant Hinv.
  - unfold startPolling. destruct (pollingTimer st); [done|].
    by apply pollNextLoad_invariant.
  - by apply stopPolling_invariant.
  - unfold onPollingTimer. destruct (pollingTimer st); [|done].
    by apply pollNextLoad_invariant.
Qed.

Lemma run_snoc (evs : list Event) (ev : Event) (st : State) :
  run config (evs ++ [ev]) st = step config ev (run config evs st).
Proof. unfold run. by rewrite foldl_app. Qed.

Lemma run_invariant (evs : list Event) (st : State) :
  Invariant config st → Invariant config (run config evs st).
Proof.
  revert st. induction evs as [|ev evs IH]; intros st Hinv; [exact Hinv|].
  simpl. apply IH, step_invariant, Hinv.
Qed.

Lemma reachable_invariant (evs : list Event) : Invariant config (run config evs init).
Proof. apply run_invariant, Invariant_init. Qed.

(** ** Dispatch *)

Lemma filter_settled (m : gmap nat Settled) (l : list QueuedCommand) :
  (∀ c, c ∈ l → is_Some (m !! handle c)) →
  filter (λ c, m !! handle c = None) l = [].
Proof.
  induction l as [|c l IH]; intros Hl; [done|].
  rewrite filter_cons. destruct (Hl c ltac:(left)) as [x Hx].
  rewrite decide_False by congruence.
  apply IH. intros c' Hc'. apply Hl. by right.
Qed.

Lemma outstanding_idle (st : State) :
  Invariant config st → awaiting st = None → outstanding st = [].
Proof.
  intros Hinv Hidle. destruct (idle_facts st Hinv Hidle) as (_ & _ & Hsettled).
  apply filter_settled. intros c Hc. by apply Hsettled.
Qed.

Lemma processNext_dispatches (st : State) :
  Invariant config st →
  processNext config st = st ∨
  ∃ cmd rest,
    queue st = cmd :: rest ∧ queue (processNext config st) = rest ∧
    dispatches config cmd st (processNext config st).
Proof.
  intros Hinv. unfold processNext.
  destruct (processing st) eqn:Hproc; [by left|].
  destruct (queue st) as [|cmd rest] eqn:Hq; [by left|].
  right. exists cmd, rest. split; [done|].
  assert (awaiting st = None) as Hidle.
  { destruct Hinv. rewrite Hproc in inv_processing0.
    by destruct (awaiting st). }
  destruct (idle_facts st Hinv Hidle) as (Htimers & Hpending & Hsettled).
  pose proof (outstanding_idle st Hinv Hidle) as Hout.
  pose proof (inv_sorted _ _ Hinv) as Hsorted. rewrite Hq in Hsorted.
  apply StronglySorted_cons in Hsorted as [Hbefore _].
  destruct (inv_queue _ _ Hinv cmd) as (_ & Hhandle & Hfresh);
    [rewrite Hq; by left|].
  assert (exchanges st !! handle cmd = None) as Hexch.
  { apply eq_None_not_Some. intros H.
    by apply (inv_exchanges _ _ Hinv) in H. }
  unfold processCommand, dispatches, outstanding in *. simpl.
  destruct (portOpen st) eqn:Hport; simpl.
  - split; [done|]. repeat (split; [done|]).
    rewrite lookup_insert_eq. split; [done|].
    rewrite filter_app, Hout, filter_cons, filter_nil.
    by rewrite decide_True.
  - split; [done|]. repeat (split; [done|]).
    rewrite settle_lookup_eq by done. split; [done|].
    rewrite filter_app, filter_cons, filter_nil.
    rewrite decide_False by (by rewrite settle_lookup_eq).
    rewrite app_nil_r. apply filter_settled.
    intros c Hc. apply settle_is_Some. right. by apply Hsettled.
Qed.

Lemma quiet_refl (st : State) : quiet st st.
Proof. unfold quiet. auto. Qed.

(** [dispatches] reads only some fields of the state before the step. *)
Lemma dispatches_from (cmd : QueuedCommand) (st0 st st' : State) :
  awaiting st0 = awaiting st → pendingResponse st0 = pendingResponse st →
  dispatched st0 = dispatched st → exchanges st0 = exchanges st →
  portOpen st0 = portOpen st → wire st0 = wire st →
  dispatches config cmd st0 st' → dispatches config cmd st st'.
Proof.
  unfold dispatches, outstanding. by intros -> -> -> -> -> ->.
Qed.

(** ... and only some fields of the state after it. *)
Lemma dispatches_to (cmd : QueuedCommand) (st st' st1 : State) :
  dispatched st1 = dispatched st' → awaiting st1 = awaiting st' →
  processing st1 = processing st' → handles st1 = handles st' →
  queue st1 = queue st' → wire st1 = wire st' →
  pendingResponse st1 = pendingResponse st' → timers st1 = timers st' →
  exchanges st1 = exchanges st' →
  dispatches config cmd st st' → dispatches config cmd st st1.
Proof.
  unfold dispatches, outstanding. by intros -> -> -> -> -> -> -> -> ->.
Qed.

Lemma enqueue_dispatches (command : string) (priority : CommandPriority)
    (now : Z) (st : State) :
  Invariant config st →
  quiet st (enqueue config command priority now st) ∨
  ∃ cmd, dispatches config cmd st (enqueue config command priority now st).
Proof.
  intros Hinv.
  set (c := {| command := command; priority := priority;
               handle := next_handle st; timestamp := now |}).
  set (st1 := set_queue (enqueue_insert c (queue st))
                (set_next_handle (S (next_handle st)) st)).
  change (enqueue config command priority now st)
    with (processNext config st1).
  pose proof (submitted_invariant c st Hinv eq_refl) as Hinv'.
  fold st1 in Hinv'.
  destruct (processNext_dispatches _ Hinv') as [->|(cmd & rest & _ & _ & H)].
  - left. unfold quiet. simpl. auto.
  - right. exists cmd. eapply dispatches_from; [..|exact H]; reflexivity.
Qed.

Lemma pollNextLoad_dispatches (now : Z) (st : State) :
  Invariant config st →
  quiet st (pollNextLoad config now st) ∨
  ∃ cmd, dispatches config cmd st (pollNextLoad config now st).
Proof.
  intros Hinv. unfold pollNextLoad.
  destruct (loadAddresses st) as [|a l] eqn:E;
    [left; unfold quiet; simpl; by auto|].
  set (st0 := set_currentPollingIndex _ st).
  assert (Invariant config st0) as Hinv0.
  { frame_invariant Hinv. }
  unfold queryLoad, enqueuePolling.
  destruct (enqueue_dispatches
              (queryLoad_command (default "undefined"
                 (loadAddresses st !! currentPollingIndex st)))
              NORMAL now st0 Hinv0) as [H|[cmd H]]; rewrite E in H.
  - left. unfold quiet in *. simpl in *. exact H.
  - right. exists cmd.
    eapply dispatches_to; [..|eapply dispatches_from; [..|exact H]];
      reflexivity.
Qed.

(** Every step of the event loop either starts no exchange or hands one
    command to the transport while nothing is in flight. *)
Lemma step_dispatches (ev : Event) (st : State) :
  Invariant config st →
  quiet st (step config ev st) ∨
  ∃ cmd, dispatches config cmd st (step config ev st).
Proof.
  intros Hinv. destruct ev; simpl.
  - by apply enqueue_dispatches.
  - left. unfold handleResponse, quiet.
    destruct (parseStatusResponse _ _);
      destruct (pendingResponse st) eqn:E; simpl; auto.
  - left. unfold onTimeout, quiet. destruct (timers st !! id); simpl; auto.
  - left. unfold onWritten, quiet. case_bool_decide; [|by auto].
    destruct err; simpl; auto.
  - left. unfold resume, quiet. destruct (awaiting st) as [c|]; [|by auto].
    destruct (exchanges st !! handle c); [|by auto].
    simpl. destruct (queue st); simpl; auto.
  - unfold onImmediate. destruct (immediates st) as [|n] eqn:E;
      [left; apply quiet_refl|].
    assert (Invariant config (set_immediates n st)) as Hinv'.
    { frame_invariant Hinv. }
    destruct (processNext_dispatches _ Hinv') as [->|(cmd & rest & _ & _ & H)].
    + left. unfold quiet. simpl. auto.
    + right. exists cmd. eapply dispatches_from; [..|exact H]; reflexivity.
  - left. unfold clear, quiet. simpl. auto.
  - left. unfold clearPollingCommands, quiet. simpl. auto.
  - left. unfold close, quiet, clear, stopPolling.
    destruct (pollingTimer st); simpl;
      destruct (pendingResponse st) eqn:E; simpl; auto.
  - left. unfold quiet. simpl. auto.
  - left. unfold quiet. simpl. auto.
  - left. unfold quiet. simpl. auto.
  - unfold startPolling. destruct (pollingTimer st); [left; apply quiet_refl|].
    by apply pollNextLoad_dispatches.
  - left. unfold stopPolling, quiet. destruct (pollingTimer st); simpl; auto.
  - unfold onPollingTimer. destruct (pollingTimer st); [|left; apply quiet_refl].
    by apply pollNextLoad_dispatches.
Qed.

Lemma outstanding_awaiting (st : State) (c : QueuedCommand) :
  Invariant config st → c ∈ outstanding st → awaiting st = Some c.
Proof.
  intros Hinv [Hc Hin]%list_elem_of_filter.
  by apply (inv_dispatched _ _ Hinv c Hin).
Qed.

Lemma outstanding_at_most_one (st : State) :
  Invariant config st → (length (outstanding st) ≤ 1)%nat.
Proof.
  intros Hinv.
  assert (NoDup (outstanding st)) as Hnodup.
  { apply NoDup_filter.
    eapply NoDup_fmap_1, (inv_dispatched_nodup _ _ Hinv). }
  destruct (outstanding st) as [|c1 [|c2 l]] eqn:E; simpl; [lia..|].
  exfalso.
  assert (awaiting st = Some c1) as H1.
  { apply outstanding_awaiting; [done|]. rewrite E. by left. }
  assert (awaiting st = Some c2) as H2.
  { apply outstanding_awaiting; [done|]. rewrite E. right; by left. }
  assert (c1 = c2) as -> by congruence.
  apply NoDup_cons in Hnodup as [Hnotin _]. apply Hnotin. by left.
Qed.

End Invariance.

(** ** The properties of the specification *)

(** C1. In every reachable state at most one started exchange is
    unresolved, and the record in the slot, when there is one, belongs to
    it.  Every step either writes nothing and installs no record, or it
    finds no unresolved exchange and an empty slot, writes the frame of one
    command and installs the record of that command, which is then the only
    unresolved exchange. *)
Theorem one_outstanding_exchange (config : LitetouchConfig)
    (evs : list Event) (ev : Event) :
  let st := run config evs init in
  let st' := step config ev st in
  (length (outstanding st) ≤ 1)%nat ∧
  (∀ p, pendingResponse st = Some p →
     ∃ c, outstanding st = [c] ∧ handle c = p_id p) ∧
  ((wire st' = wire st ∧
    (pendingResponse st' = pendingResponse st ∨ pendingResponse st' = None)) ∨
   (outstanding st = [] ∧ pendingResponse st = None ∧
    ∃ cmd,
      wire st' = wire st ++ [command cmd +:+ Js.CR] ∧
      pendingResponse st'
      = Some {| p_id := handle cmd; p_address := match_query (command cmd) |} ∧
      outstanding st' = [cmd])).
Proof.
  intros st st'.
  pose proof (reachable_invariant config evs) as Hinv. fold st in Hinv.
  pose proof (outstanding_at_most_one config st Hinv) as Hle.
  split; [exact Hle|]. split.
  - intros p Hp.
    destruct (inv_pending _ _ Hinv p Hp) as (c & Hc & Hid & _ & Harmed).
    destruct (inv_awaiting _ _ Hinv c Hc) as (Hin & _ & Hexch).
    exists c. split; [|done].
    assert (c ∈ outstanding st) as Hout.
    { apply list_elem_of_filter. split; [|done].
      apply Hexch. by rewrite Hid. }
    destruct (outstanding st) as [|c1 [|c2 l]]; simpl in Hle.
    + by apply elem_of_nil in Hout.
    + by apply list_elem_of_singleton in Hout as ->.
    + lia.
  - destruct (step_dispatches config ev st Hinv) as [(_ & Hw & Hp)|[cmd H]].
    + left. by split.
    + unfold dispatches in H.
      destruct H as (Hidle & Hpending & Hout & Hd & Ha & Hproc & Hh & Hbefore & H).
      destruct (portOpen st).
      * right. destruct H as (Hw & Hp & Ht & Hout').
        split; [done|]. split; [done|]. by exists cmd.
      * left. destruct H as (Hw & Hp & _). split; [done|].
        right. exact Hp.
Qed.

Lemma one_outstanding_exchange_witness :
  let st := run config0 two_submissions init in
  ∃ c, outstanding st = [c] ∧ handle c = 0%nat.
Proof.
  destruct (one_outstanding_exchange config0 two_submissions (Data "18 125"))
    as (_ & H & _).
  apply (H {| p_id := 0; p_address := Some "01-1" |}).
  vm_compute. reflexivity.
Defined.

(** The second command is written only after the first exchange is
    resolved and the continuation and the scheduled callback have run. *)
Example example_one_at_a_time :
  wire (run config0 two_submissions init) = [" 18 01-1" +:+ Js.CR] ∧
  wire (run config0 (two_submissions ++ [Data "18 125"]) init)
  = [" 18 01-1" +:+ Js.CR] ∧
  wire (run config0 (two_submissions ++ [Data "18 125"; Resume; Immediate]) init)
  = [" 18 01-1" +:+ Js.CR; " 10 02-1 125" +:+ Js.CR].
Proof. repeat split; vm_compute; reflexivity. Qed.

Lemma before_lookup (q : list QueuedCommand) (i j : nat) (ci cj : QueuedCommand) :
  StronglySorted before q → (i < j)%nat →
  q !! i = Some ci → q !! j = Some cj → before ci cj.
Proof.
  intros Hsorted Hij Hi Hj.
  rewrite <- (take_drop j q) in Hsorted.
  apply StronglySorted_app in Hsorted as (Hcross & _ & _).
  apply Hcross.
  - apply list_elem_of_lookup. exists i. rewrite lookup_take_lt by done. done.
  - apply list_elem_of_lookup. exists O. rewrite lookup_drop.
    by rewrite Nat.add_0_r.
Qed.

(** C2. In every reachable state the queue is ordered: of two entries the
    one nearer the head is not NORMAL when the other is HIGH, and within a
    class it was submitted first (handles count the submissions).  When a
    step hands a NORMAL command to the transport, no HIGH command is left
    in the queue.  Every command submitted so far is in the queue, or was
    handed to the transport, or was cancelled by [clear] or
    [clearPollingCommands]. *)
Theorem priority_order (config : LitetouchConfig) (evs : list Event) (ev : Event) :
  let st := run config evs init in
  let st' := step config ev st in
  (∀ i j ci cj, (i < j)%nat → queue st !! i = Some ci → queue st !! j = Some cj →
     (priority cj = HIGH → priority ci = HIGH) ∧
     (priority ci = priority cj → (handle ci < handle cj)%nat)) ∧
  (∀ c, dispatched st' = dispatched st ++ [c] → priority c = NORMAL →
     ∀ h, h ∈ queue st' → priority h = NORMAL) ∧
  (∀ id, (id < next_handle st)%nat →
     id ∈ handle <$> queue st ∨ id ∈ handle <$> dispatched st ∨
     ∃ o, handles st !! id = Some o ∧ cancelled o).
Proof.
  intros st st'.
  pose proof (reachable_invariant config evs) as Hinv. fold st in Hinv.
  split; [|split].
  - intros i j ci cj Hij Hi Hj.
    destruct (before_lookup _ i j ci cj (inv_sorted _ _ Hinv) Hij Hi Hj)
      as [Hclass Hfifo].
    split; [|exact Hfifo].
    intros Hhigh. destruct (priority ci); [done|].
    rewrite Hclass in Hhigh by done. discriminate.
  - intros c Hc Hnormal h Hh.
    destruct (step_dispatches config ev st Hinv) as [(Hd & _)|[cmd H]].
    + fold st' in Hd. rewrite Hd in Hc.
      apply (f_equal length) in Hc. rewrite length_app in Hc. simpl in Hc. lia.
    + fold st' in H.
      destruct H as (_ & _ & _ & Hd & _ & _ & _ & Hbefore & _).
      rewrite Hd in Hc. apply app_inj_tail in Hc as [_ ->].
      rewrite Forall_forall in Hbefore. by apply (Hbefore h Hh).
  - apply (inv_accounted _ _ Hinv).
Qed.

Lemma priority_order_witness :
  let ci := {| command := " 10 02-1 125"; priority := HIGH; handle := 1;
               timestamp := 11 |} in
  let cj := {| command := " 18 03-1"; priority := NORMAL; handle := 2;
               timestamp := 12 |} in
  (priority cj = HIGH → priority ci = HIGH) ∧
  (priority ci = priority cj → (handle ci < handle cj)%nat).
Proof.
  destruct (priority_order config0
              (two_submissions ++ [Submit " 18 03-1" NORMAL 12]) Resume)
    as (H & _ & _).
  apply (H 0%nat 1%nat); [lia | vm_compute; reflexivity..].
Defined.

(** Two queries and two set commands submitted while a query is in flight:
    the set commands are queued first, in submission order, and are handed
    to the transport first. *)
Example example_high_before_normal :
  let evs :=
    [PortOpened; Submit " 18 01-1" NORMAL 1; Submit " 18 02-1" NORMAL 2;
     Submit " 10 03-1 001" HIGH 3; Submit " 18 04-1" NORMAL 4;
     Submit " 10 05-1 250" HIGH 5] in
  let drain1 := [Data "18 000"; Resume; Immediate] in
  handle <$> queue (run config0 evs init) = [2; 4; 1; 3]%nat ∧
  priority <$> queue (run config0 evs init) = [HIGH; HIGH; NORMAL; NORMAL] ∧
  handle <$> dispatched
    (run config0 (evs ++ drain1 ++ drain1 ++ drain1 ++ drain1) init)
  = [0; 2; 4; 1; 3]%nat.
Proof. repeat split; vm_compute; reflexivity. Qed.

(** C3. A command is in flight and its timeout is still armed: no reply,
    write error or close has resolved its exchange.  The timeout was armed
    for [commandTimeout] milliseconds.  When it fires, the slot is emptied
    and the exchange resolves with [null]; the continuation of
    [processNext] then resolves the handle of the command with [null] and
    clears the busy flag, leaving the queue as it was.  If a command is
    queued, a callback is scheduled, and that callback hands the head of
    the queue to the transport. *)
Theorem timeout_resolves_null (config : LitetouchConfig) (evs : list Event)
    (cmd : QueuedCommand) :
  let st := run config evs init in
  let st1 := step config (Timeout (handle cmd)) st in
  let st2 := step config Resume st1 in
  let st3 := step config Immediate st2 in
  awaiting st = Some cmd → is_Some (timers st !! handle cmd) →
  timers st !! handle cmd = Some (commandTimeout config) ∧
  handles st !! handle cmd = None ∧
  pendingResponse st1 = None ∧ timers st1 !! handle cmd = None ∧
  exchanges st1 !! handle cmd = Some (Resolved None) ∧
  outstanding st1 = [] ∧
  handles st2 !! handle cmd = Some (Resolved None) ∧
  processing st2 = false ∧ awaiting st2 = None ∧ queue st2 = queue st ∧
  (∀ next rest, queue st = next :: rest →
     immediates st2 = S (immediates st) ∧
     queue st3 = rest ∧ dispatches config next st2 st3).
Proof.
  intros st st1 st2 st3 Hcmd Harmed.
  pose proof (reachable_invariant config evs) as Hinv. fold st in Hinv.
  clearbody st.
  assert (Invariant config st1) as Hinv1 by (by apply step_invariant).
  assert (Invariant config st2) as Hinv2 by (by apply step_invariant).
  destruct (inv_timers _ _ Hinv _ Harmed) as [Hdelay _].
  destruct (inv_awaiting _ _ Hinv cmd Hcmd) as (Hin & Hhandle & Hexch).
  apply Hexch in Harmed as Hnone.
  assert (st1 = settle_exchange (handle cmd) (Resolved None)
                  (set_pendingResponse None (clearTimeout (handle cmd) st)))
    as Hst1.
  { subst st1. simpl. unfold onTimeout. by rewrite Hdelay. }
  clearbody st1.
  assert (exchanges st1 !! handle cmd = Some (Resolved None)) as Hexch1.
  { rewrite Hst1. simpl. by apply settle_lookup_eq. }
  assert (awaiting st1 = Some cmd) as Hcmd1 by by rewrite Hst1.
  assert (queue st1 = queue st) as Hq1 by by rewrite Hst1.
  assert (st2 = match queue st with
                | [] => set_awaiting None (set_processing false
                          (settle_handle (handle cmd) (Resolved None) st1))
                | _ :: _ =>
                    set_immediates (S (immediates st1))
                      (set_awaiting None (set_processing false
                         (settle_handle (handle cmd) (Resolved None) st1)))
                end) as Hst2.
  { subst st2. simpl. unfold resume. rewrite Hcmd1, Hexch1.
    simpl. rewrite Hq1. by destruct (queue st). }
  clearbody st2.
  assert (handles st1 = handles st) as Hh1 by by rewrite Hst1.
  assert (processing st2 = false ∧ awaiting st2 = None ∧
          queue st2 = queue st ∧
          handles st2 !! handle cmd = Some (Resolved None)) as (Hp2 & Ha2 & Hq2 & Hh2).
  { rewrite Hst2. destruct (queue st) eqn:Hq; simpl;
      rewrite Hq1, Hh1, settle_lookup_eq; done. }
  split; [done|]. split; [done|].
  split; [by rewrite Hst1|].
  split; [rewrite Hst1; simpl; apply lookup_delete_eq|].
  split; [done|].
  split.
  { apply filter_settled. intros c Hc. rewrite Hst1 in Hc |- *. simpl in *.
    apply settle_is_Some.
    destruct (decide (handle c = handle cmd)) as [?|Hne]; [by left|right].
    apply not_eq_None_Some. intros E.
    apply (inv_dispatched _ _ Hinv c Hc) in E. congruence. }
  split; [done|]. split; [done|]. split; [done|]. split; [done|].
  intros next rest Hq.
  assert (immediates st2 = S (immediates st)) as Himm.
  { rewrite Hst2, Hq. simpl. by rewrite Hst1. }
  split; [done|].
  subst st3. simpl. unfold onImmediate. rewrite Himm.
  assert (Invariant config (set_immediates (immediates st) st2)) as Hinv2'.
  { frame_invariant Hinv2. }
  destruct (processNext_dispatches config _ Hinv2')
    as [Hsame|(c & r & Hc & Hr & Hd)].
  - exfalso. unfold processNext in Hsame. simpl in Hsame.
    rewrite Hp2, Hq2, Hq in Hsame.
    apply (f_equal queue) in Hsame. revert Hsame.
    unfold processCommand. simpl. rewrite Hq2, Hq.
    destruct (portOpen st2); simpl; intros E;
      apply (f_equal length) in E; simpl in E; lia.
  - simpl in Hc. rewrite Hq2, Hq in Hc. injection Hc as <- <-.
    split; [exact Hr|].
    eapply dispatches_from; [..|exact Hd]; reflexivity.
Qed.

Lemma timeout_resolves_null_witness :
  let cmd := {| command := " 18 01-1"; priority := NORMAL; handle := 0;
                timestamp := 10 |} in
  let st := run config0 two_submissions init in
  let st1 := step config0 (Timeout 0) st in
  let st2 := step config0 Resume st1 in
  let st3 := step config0 Immediate st2 in
  timers st !! 0%nat = Some 1000 ∧
  handles st !! 0%nat = None ∧
  pendingResponse st1 = None ∧ timers st1 !! 0%nat = None ∧
  exchanges st1 !! 0%nat = Some (Resolved None) ∧
  outstanding st1 = [] ∧
  handles st2 !! 0%nat = Some (Resolved None) ∧
  processing st2 = false ∧ awaiting st2 = None ∧ queue st2 = queue st ∧
  (∀ next rest, queue st = next :: rest →
     immediates st2 = S (immediates st) ∧
     queue st3 = rest ∧ dispatches config0 next st2 st3).
Proof.
  apply (timeout_resolves_null config0 two_submissions
           {| command := " 18 01-1"; priority := NORMAL; handle := 0;
              timestamp := 10 |}).
  - vm_compute. reflexivity.
  - vm_compute. eauto.
Defined.

(** The same run, evaluated: the query times out, its handle resolves with
    [null], and the set command that was queued behind it is written. *)
Example example_timeout_then_next :
  let st := run config0
              (two_submissions ++ [Timeout 0%nat; Resume; Immediate]) init in
  handles st !! 0%nat = Some (Resolved None) ∧
  wire st = [" 18 01-1" +:+ Js.CR; " 10 02-1 125" +:+ Js.CR] ∧
  queue st = [] ∧
  pendingResponse st = Some {| p_id := 1; p_address := None |}.
Proof. repeat split; vm_compute; reflexivity. Qed.

Lemma close_fields (st : State) :
  queue (close st) = [] ∧ pendingResponse (close st) = None ∧
  pollingTimer (close st) = None ∧
  handles (close st)
  = reject_all (MkError "Queue cleared") (queue st) (handles st) ∧
  awaiting (close st) = awaiting st ∧
  next_handle (close st) = next_handle st ∧
  exchanges (close st)
  = match pendingResponse st with
    | Some p =>
        settle (p_id p) (Rejected (MkError "Connection closing")) (exchanges st)
    | None => exchanges st
    end ∧
  timers (close st)
  = match pendingResponse st with
    | Some p => delete (p_id p) (timers st)
    | None => timers st
    end.
Proof.
  unfold close, clear, stopPolling.
  destruct (pollingTimer st) eqn:Ht; simpl;
    destruct (pendingResponse st) eqn:Hp; simpl; rewrite ?Ht; done.
Qed.

(** With nothing queued and nothing in flight every handle is settled. *)
Lemma idle_empty_all_settled (config : LitetouchConfig) (st : State) :
  Invariant config st → awaiting st = None → queue st = [] →
  ∀ id, (id < next_handle st)%nat → is_Some (handles st !! id).
Proof.
  intros Hinv Hidle Hq id Hid.
  destruct (idle_facts config st Hinv Hidle) as (_ & _ & Hsettled).
  destruct (inv_accounted _ _ Hinv id Hid) as [H|[H|(o & Ho & _)]].
  - rewrite Hq in H. by apply elem_of_nil in H.
  - apply list_elem_of_fmap in H as (c & -> & Hc). by apply Hsettled.
  - eauto.
Qed.

(** The callbacks left for the command in flight settle its handle with
    the outcome of its exchange, or with [null] when the exchange is still
    open, and leave nothing in flight. *)
Lemma drain_run (config : LitetouchConfig) (st : State) :
  Invariant config st →
  let st' := run config (drain st) st in
  awaiting st' = None ∧ queue st' = queue st ∧
  next_handle st' = next_handle st ∧
  (∀ c, awaiting st = Some c →
     handles st' !! handle c
     = Some (default (Resolved None) (exchanges st !! handle c))).
Proof.
  intros Hinv. unfold drain.
  destruct (awaiting st) as [c|] eqn:Hc; simpl; [|done].
  destruct (inv_awaiting _ _ Hinv c Hc) as (Hin & Hhandle & Harmed).
  set (st1 := onTimeout (handle c) st).
  assert (awaiting st1 = Some c ∧ queue st1 = queue st ∧
          next_handle st1 = next_handle st ∧ handles st1 = handles st ∧
          exchanges st1 !! handle c
          = Some (default (Resolved None) (exchanges st !! handle c)))
    as (Hc1 & Hq1 & Hn1 & Hh1 & He1).
  { subst st1. unfold onTimeout.
    destruct (timers st !! handle c) as [d|] eqn:Hd; simpl.
    - assert (exchanges st !! handle c = None) as E by (apply Harmed; eauto).
      rewrite E. simpl. by rewrite settle_lookup_eq.
    - destruct (exchanges st !! handle c) as [o|] eqn:E; [done|].
      destruct Harmed as [Harmed _]. destruct (Harmed eq_refl). congruence. }
  clearbody st1. unfold resume. rewrite Hc1, He1. simpl.
  rewrite Hq1.
  destruct (queue st); simpl; rewrite ?Hn1, ?Hh1, ?Hq1;
    (split; [done|]; split; [done|]; split; [done|]);
    intros c' [= <-]; by apply settle_lookup_eq.
Qed.

(** C6, as stated, fails: the handles of the queued commands are rejected
    by [clear], whose error is "Queue cleared"; only the exchange in flight
    is rejected with "Connection closing". *)
Lemma close_rejects_all_counterexample :
  ¬ (∀ (evs : list Event) (c : QueuedCommand),
       c ∈ queue (run config0 evs init) →
       ∃ e : Error,
         handles (step config0 Close (run config0 evs init)) !! handle c
         = Some (Rejected e) ∧
         names_closing e = true).
Proof.
  intros H.
  destruct (H (two_submissions ++ [Submit " 18 03-1" NORMAL 12])
              {| command := " 18 03-1"; priority := NORMAL; handle := 2;
                 timestamp := 12 |})
    as (e & He & Hclosing).
  { vm_compute. right. left. }
  vm_compute in He. injection He as <-.
  vm_compute in Hclosing. discriminate Hclosing.
Qed.

(** C6, amended.  [close()] empties the queue, and every command that was
    queued, each with a handle of its own that was still open, is rejected
    with the error of [clear], "Queue cleared".  The slot is emptied and the
    polling timer is cancelled.  When the slot held a record, its exchange
    was open and is rejected with "Connection closing", its timeout is
    cancelled, and the continuation of [processNext] rejects the handle of
    the command in flight with that error.  Once the callbacks left for the
    command in flight have run, every handle ever returned is settled. *)
Theorem close_rejects_all (config : LitetouchConfig) (evs : list Event) :
  let st := run config evs init in
  let st' := step config Close st in
  let st'' := run config (drain st') st' in
  queue st' = [] ∧ length (queue st') = O ∧
  NoDup (handle <$> queue st) ∧
  (∀ c, c ∈ queue st →
     handles st !! handle c = None ∧
     handles st' !! handle c = Some (Rejected (MkError "Queue cleared"))) ∧
  pendingResponse st' = None ∧ pollingTimer st' = None ∧
  (∀ p, pendingResponse st = Some p →
     exchanges st !! p_id p = None ∧
     exchanges st' !! p_id p = Some (Rejected (MkError "Connection closing")) ∧
     timers st' !! p_id p = None ∧
     ∃ c, awaiting st' = Some c ∧ handle c = p_id p ∧
          handles st'' !! handle c
          = Some (Rejected (MkError "Connection closing"))) ∧
  (∀ id, (id < next_handle st)%nat → is_Some (handles st'' !! id)).
Proof.
  intros st st' st''.
  pose proof (reachable_invariant config evs) as Hinv. fold st in Hinv.
  clearbody st.
  assert (Invariant config st') as Hinv' by (by apply step_invariant).
  destruct (close_fields st) as (Hq & Hp & Hpt & Hh & Ha & Hn & He & Ht).
  change (close st) with st' in *. clearbody st'.
  destruct (drain_run config st' Hinv') as (Ha'' & Hq'' & Hn'' & Hh'').
  fold st'' in Ha'', Hq'', Hn'', Hh''.
  assert (Invariant config st'') as Hinv'' by (by apply run_invariant).
  clearbody st''.
  split; [done|]. split; [by rewrite Hq|].
  split; [apply (inv_queue_nodup _ _ Hinv)|].
  split.
  { intros c Hc. destruct (inv_queue _ _ Hinv c Hc) as (_ & Hnone & _).
    split; [done|]. rewrite Hh.
    apply reject_all_lookup_rejected; [|done]. by apply list_elem_of_fmap_2. }
  split; [done|]. split; [done|].
  split.
  { intros p Hpending.
    destruct (inv_pending _ _ Hinv p Hpending) as (c & Hc & Hid & _ & Harmed).
    destruct (inv_awaiting _ _ Hinv c Hc) as (_ & _ & Hexch).
    rewrite <- Hid in Harmed. apply Hexch in Harmed. rewrite Hid in Harmed.
    rewrite Hpending in He, Ht.
    assert (exchanges st' !! p_id p
            = Some (Rejected (MkError "Connection closing"))) as He'.
    { rewrite He. by apply settle_lookup_eq. }
    split; [done|]. split; [done|].
    split; [rewrite Ht; apply lookup_delete_eq|].
    exists c. rewrite Ha. split; [done|]. split; [done|].
    rewrite (Hh'' c) by by rewrite Ha. by rewrite Hid, He'. }
  intros id Hid. apply (idle_empty_all_settled config st'' Hinv'' Ha'').
  - by rewrite Hq'', Hq.
  - by rewrite Hn'', Hn.
Qed.

Lemma close_rejects_all_witness :
  let st := run config0 (two_submissions ++ [Submit " 18 03-1" NORMAL 12]) init in
  let st' := step config0 Close st in
  handles st !! 2%nat = None ∧
  handles st' !! 2%nat = Some (Rejected (MkError "Queue cleared")).
Proof.
  destruct (close_rejects_all config0
              (two_submissions ++ [Submit " 18 03-1" NORMAL 12]))
    as (_ & _ & _ & H & _).
  apply (H {| command := " 18 03-1"; priority := NORMAL; handle := 2;
              timestamp := 12 |}).
  vm_compute. right. left.
Defined.

(** One command in flight and two queued: [close()] rejects the two, the
    continuation rejects the third, and the queue is empty. *)
Example example_close_with_two_queued :
  let st := run config0 (two_submissions ++ [Submit " 18 03-1" NORMAL 12]) init in
  let st' := run config0 [Close; Resume] st in
  length (queue st) = 2%nat ∧ length (queue st') = 0%nat ∧
  map_to_list (handles st) = [] ∧
  handles st' !! 0%nat = Some (Rejected (MkError "Connection closing")) ∧
  handles st' !! 1%nat = Some (Rejected (MkError "Queue cleared")) ∧
  handles st' !! 2%nat = Some (Rejected (MkError "Queue cleared")) ∧
  timers st' = ∅.
Proof. repeat split; vm_compute; reflexivity. Qed.

Lemma not_normal_high (c : QueuedCommand) : priority c ≠ NORMAL ↔ priority c = HIGH.
Proof. destruct (priority c); naive_solver. Qed.

(** C7. [clearPollingCommands()] keeps exactly the HIGH entries of the
    queue, in their order.  Every NORMAL entry that was queued leaves the
    queue and its handle is rejected with "Polling command cancelled";
    every HIGH entry stays queued with its handle open.  The command in
    flight, the slot, the exchanges and the wire are untouched. *)
Theorem clearPollingCommands_keeps_high (config : LitetouchConfig)
    (evs : list Event) :
  let st := run config evs init in
  let st' := step config ClearPollingCommands st in
  queue st' = filter (λ c, priority c = HIGH) (queue st) ∧
  sublist (queue st') (queue st) ∧
  (∀ c, c ∈ queue st → priority c = NORMAL →
     (c ∉ queue st') ∧ handles st !! handle c = None ∧
     handles st' !! handle c
     = Some (Rejected (MkError "Polling command cancelled"))) ∧
  (∀ c, c ∈ queue st → priority c = HIGH →
     c ∈ queue st' ∧ handles st' !! handle c = None) ∧
  awaiting st' = awaiting st ∧ processing st' = processing st ∧
  pendingResponse st' = pendingResponse st ∧ exchanges st' = exchanges st ∧
  timers st' = timers st ∧ dispatched st' = dispatched st ∧
  wire st' = wire st.
Proof.
  intros st st'.
  pose proof (reachable_invariant config evs) as Hinv. fold st in Hinv.
  clearbody st.
  assert (Invariant config st') as Hinv' by (by apply step_invariant).
  subst st'. simpl in *. unfold clearPollingCommands in *. simpl in *.
  assert (filter (λ cmd, priority cmd ≠ NORMAL) (queue st)
          = filter (λ c, priority c = HIGH) (queue st)) as Hfilter.
  { apply list_filter_iff. intros c. apply not_normal_high. }
  split; [exact Hfilter|].
  split; [apply sublist_filter|].
  split; [|split; [|done]].
  - intros c Hc Hnormal.
    destruct (inv_queue _ _ Hinv c Hc) as (_ & Hnone & _).
    split; [|split; [done|]].
    + intros [Hhigh _]%list_elem_of_filter. done.
    + apply reject_all_lookup_rejected; [|done].
      by apply list_elem_of_fmap_2, list_elem_of_filter.
  - intros c Hc Hhigh.
    assert (c ∈ filter (λ cmd, priority cmd ≠ NORMAL) (queue st)) as Hin.
    { apply list_elem_of_filter. split; [|done]. by apply not_normal_high. }
    split; [exact Hin|]. by apply (inv_queue _ _ Hinv' c Hin).
Qed.

Lemma clearPollingCommands_keeps_high_witness :
  let evs := two_submissions ++ [Submit " 18 03-1" NORMAL 12;
                                 Submit " 10 04-1 000" HIGH 13] in
  let st := run config0 evs init in
  let st' := step config0 ClearPollingCommands st in
  let c := {| command := " 10 04-1 000"; priority := HIGH; handle := 3;
              timestamp := 13 |} in
  c ∈ queue st' ∧ handles st' !! 3%nat = None.
Proof.
  destruct (clearPollingCommands_keeps_high config0
              (two_submissions ++ [Submit " 18 03-1" NORMAL 12;
                                   Submit " 10 04-1 000" HIGH 13]))
    as (_ & _ & _ & H & _).
  apply (H {| command := " 10 04-1 000"; priority := HIGH; handle := 3;
              timestamp := 13 |}).
  - vm_compute. right. left.
  - reflexivity.
Defined.

(** A query in flight, then two set commands around a queued query: the
    queued query is cancelled, the set commands stay in order, and the
    query in flight is not touched. *)
Example example_cancel_polling :
  let evs := two_submissions ++ [Submit " 18 03-1" NORMAL 12;
                                 Submit " 10 04-1 000" HIGH 13] in
  let st := run config0 evs init in
  let st' := step config0 ClearPollingCommands st in
  handle <$> queue st = [1; 3; 2]%nat ∧
  handle <$> queue st' = [1; 3]%nat ∧
  map_to_list (handles st')
  = [(2%nat, Rejected (MkError "Polling command cancelled"))] ∧
  awaiting st' = Some {| command := " 18 01-1"; priority := NORMAL;
                         handle := 0; timestamp := 10 |}.
Proof. repeat split; vm_compute; reflexivity. Qed.

Lemma processNext_next_handle (config : LitetouchConfig) (st : State) :
  next_handle (processNext config st) = next_handle st.
Proof.
  unfold processNext, processCommand.
  destruct (processing st); [done|]. destruct (queue st); [done|].
  simpl. by destruct (portOpen st).
Qed.

(** A submitted command is queued or, when the queue was idle and empty,
    handed to the transport at once. *)
Lemma enqueue_places (config : LitetouchConfig) (command : string)
    (priority : CommandPriority) (now : Z) (st : State) :
  Invariant config st →
  let c := {| command := command; priority := priority;
              handle := next_handle st; timestamp := now |} in
  let st' := enqueue config command priority now st in
  next_handle st' = S (next_handle st) ∧
  (c ∈ queue st' ∨ awaiting st' = Some c).
Proof.
  intros Hinv c st'.
  set (st1 := set_queue (enqueue_insert c (queue st))
                (set_next_handle (S (next_handle st)) st)).
  change st' with (processNext config st1). clear st'.
  split; [by rewrite processNext_next_handle|].
  assert (c ∈ queue st1) as Hc.
  { simpl. rewrite enqueue_insert_perm. by left. }
  pose proof (submitted_invariant config c st Hinv eq_refl) as Hinv1.
  fold st1 in Hinv1. clearbody st1.
  destruct (processNext_dispatches config st1 Hinv1)
    as [->|(cmd & rest & Hq & Hq' & Hd)]; [by left|].
  rewrite Hq in Hc. rewrite Hq'.
  apply elem_of_cons in Hc as [->|Hc]; [right|by left].
  by destruct Hd as (_ & _ & _ & _ & Ha & _).
Qed.

Lemma polling_ticks_idle (config : LitetouchConfig) (nows : list Z) (st : State) :
  loadAddresses st = [] → pollingTimer st = Some (pollingInterval config) →
  run config (PollingTimer <$> nows) st = st.
Proof.
  intros Hempty Harmed. induction nows as [|now nows IH]; [done|].
  simpl. unfold onPollingTimer, pollNextLoad. rewrite Harmed, Hempty.
  assert (set_pollingTimer (Some (pollingInterval config)) st = st) as ->.
  { destruct st. simpl in *. by rewrite Harmed. }
  exact IH.
Qed.

(** C9. With an empty address list a polling tick returns a state (it has
    no failing path) that differs from the one before only in the polling
    timer, armed again for [pollingInterval] milliseconds: no command is
    created, queued or written.  [startPolling] on a connection that is not
    polling is such a tick, and any number of further ticks leaves that
    state as it is.  After a later [setLoadAddresses] with a non-empty list
    the next tick submits, at NORMAL priority, the query of its first
    address and arms the timer again. *)
Theorem polling_with_no_addresses (config : LitetouchConfig) (evs : list Event)
    (now : Z) :
  let st := run config evs init in
  let st1 := pollNextLoad config now st in
  loadAddresses st = [] →
  st1 = set_pollingTimer (Some (pollingInterval config)) st ∧
  pollingTimer st1 = Some (pollingInterval config) ∧
  queue st1 = queue st ∧ next_handle st1 = next_handle st ∧
  dispatched st1 = dispatched st ∧ wire st1 = wire st ∧
  handles st1 = handles st ∧
  (pollingTimer st = None → step config (StartPolling now) st = st1) ∧
  (∀ nows, run config (PollingTimer <$> nows) st1 = st1) ∧
  (∀ a l now',
     let st2 :=
       run config [SetLoadAddresses (a :: l); PollingTimer now'] st1 in
     let c := {| command := " 18 " +:+ a; priority := NORMAL;
                 handle := next_handle st; timestamp := now' |} in
     pollingTimer st2 = Some (pollingInterval config) ∧
     next_handle st2 = S (next_handle st) ∧
     (c ∈ queue st2 ∨ awaiting st2 = Some c)).
Proof.
  intros st st1 Hempty.
  pose proof (reachable_invariant config evs) as Hinv. fold st in Hinv.
  clearbody st.
  assert (st1 = set_pollingTimer (Some (pollingInterval config)) st) as Hst1.
  { subst st1. unfold pollNextLoad. by rewrite Hempty. }
  clearbody st1. subst st1.
  split; [done|]. repeat (split; [done|]).
  split.
  { intros Hidle. simpl. unfold startPolling, pollNextLoad.
    by rewrite Hidle, Hempty. }
  split.
  { intros nows. by apply polling_ticks_idle. }
  intros a l now' st2 c.
  set (st0 := set_currentPollingIndex ((0 + 1) `mod` length (a :: l))%nat
                (setLoadAddresses (a :: l)
                   (set_pollingTimer (Some (pollingInterval config)) st))).
  assert (Invariant config st0) as Hinv0.
  { frame_invariant Hinv. }
  destruct (enqueue_places config (" 18 " +:+ a) NORMAL now' st0 Hinv0)
    as [Hn Hc].
  assert (st2 = set_pollingTimer (Some (pollingInterval config))
                  (enqueue config (" 18 " +:+ a) NORMAL now' st0)) as ->.
  { subst st2. reflexivity. }
  simpl. split; [done|]. split; [exact Hn|]. exact Hc.
Qed.

Lemma polling_with_no_addresses_witness :
  let st := run config0 [PortOpened] init in
  let st1 := pollNextLoad config0 0 st in
  st1 = set_pollingTimer (Some 2000) st ∧
  pollingTimer st1 = Some 2000 ∧
  queue st1 = queue st ∧ next_handle st1 = next_handle st ∧
  dispatched st1 = dispatched st ∧ wire st1 = wire st ∧
  handles st1 = handles st ∧
  (pollingTimer st = None → step config0 (StartPolling 0) st = st1) ∧
  (∀ nows, run config0 (PollingTimer <$> nows) st1 = st1) ∧
  (∀ a l now',
     let st2 :=
       run config0 [SetLoadAddresses (a :: l); PollingTimer now'] st1 in
     let c := {| command := " 18 " +:+ a; priority := NORMAL;
                 handle := next_handle st; timestamp := now' |} in
     pollingTimer st2 = Some 2000 ∧
     next_handle st2 = S (next_handle st) ∧
     (c ∈ queue st2 ∨ awaiting st2 = Some c)).
Proof.
  apply (polling_with_no_addresses config0 [PortOpened] 0). reflexivity.
Defined.

(** Polling starts with no address, ticks three times, then the list is
    set and the next two ticks query its addresses in turn. *)
Example example_polling :
  let idle := run config0 [PortOpened; StartPolling 0; PollingTimer 2000;
                           PollingTimer 4000; PollingTimer 6000] init in
  let st := run config0 [SetLoadAddresses ["01-1"; "05-1"];
                         PollingTimer 8000; PollingTimer 10000] idle in
  wire idle = [] ∧ next_handle idle = 0%nat ∧ pollingTimer idle = Some 2000 ∧
  command <$> dispatched st ++ queue st = [" 18 01-1"; " 18 05-1"] ∧
  pollingTimer st = Some 2000.
Proof. repeat split; vm_compute; reflexivity. Qed.

Lemma parseStatusResponse_no_address (response : string) :
  parseStatusResponse response None = None.
Proof. unfold parseStatusResponse. by destruct (match_status response). Qed.







(** The same trace on the source: after the late write error the slot is
    empty while the set command waits; the line changes nothing, and the
    timeout resolves the handle with [null]. *)
Example late_write_error_trace :
  let st := run config0
              (two_submissions ++
               [Data "18 125"; Resume; Immediate;
                Written 0 (Some (MkError "EIO"))]) init in
  let st1 := run config0 [Data "18 125"; Resume] st in
  let st2 := run config0 [Timeout 1; Resume] st1 in
  command <$> awaiting st = Some " 10 02-1 125" ∧
  pendingResponse st = None ∧ timers st !! 1%nat = Some 1000 ∧
  handles st1 !! 1%nat = None ∧ emitted st1 = emitted st ∧
  handles st2 !! 1%nat = Some (Resolved None).
Proof. cbv zeta. split_and!; vm_compute; reflexivity. Qed.



(** The query is answered and emits a status; the set command that follows
    is answered by a line of the same shape and emits nothing; a line that
    arrives when nothing is in flight emits nothing. *)
Example example_status_events :
  let st1 := run config0 (two_submissions ++ [Data "18 125"]) init in
  let st2 := run config0 [Resume; Immediate; Data "18 125"; Resume] st1 in
  let st3 := run config0 [Data "18 250"] st2 in
  emitted st1 = [{| address := "01-1"; level := 50; raw := 125 |}] ∧
  emitted st2 = emitted st1 ∧
  handles st2 !! 1%nat = Some (Resolved (Some "18 125")) ∧
  emitted st3 = emitted st1.
Proof. repeat split; vm_compute; reflexivity. Qed.

(** ** Correlation of a reply with the query in flight *)

Lemma match_output_nonempty (c : ascii) (prefix s a : string) :
  match_output (String c prefix) s = Some a → a ≠ EmptyString.
Proof.
  unfold match_output. destruct s as [|e1 s']; [done|].
  destruct (Js.is_digit e1); [|done].
  destruct s' as [|e2 s'']; [by intros [= <-]|].
  destruct (Js.is_digit e2); by intros [= <-].
Qed.

(** The address captured from a query is never empty. *)
Lemma match_query_nonempty (command a : string) :
  match_query command = Some a → a ≠ EmptyString.
Proof.
  unfold match_query.
  destruct (Js.skip_spaces command) as [|c1 [|c2 rest]]; try done.
  - by destruct c1 as [[] [] [] [] [] [] [] []].
  - destruct c1 as [[] [] [] [] [] [] [] []]; try done.
    destruct c2 as [[] [] [] [] [] [] [] []]; try done.
    destruct rest as [|c rest']; [done|].
    destruct (Js.is_space c); [|done].
    unfold match_address.
    destruct (Js.skip_spaces (String c rest')) as [|d1 [|d2 s2]]; try done.
    + by destruct (Js.is_digit d1).
    + destruct (Js.is_digit d1); [|done].
      destruct (Js.is_digit d2).
      * destruct s2 as [|c3 s3]; [done|].
        destruct c3 as [[] [] [] [] [] [] [] []]; try done.
        apply match_output_nonempty.
      * case_bool_decide; [|done]. apply match_output_nonempty.
Qed.

(** The query of a load [MM-O] captures exactly its address. *)
Lemma queryLoad_command_address (m1 m2 o : ascii) :
  Js.is_digit m1 = true → Js.is_digit m2 = true → Js.is_digit o = true →
  match_query
    (queryLoad_command (String m1 (String m2 (String "-" (String o EmptyString)))))
  = Some (String m1 (String m2 (String "-" (String o EmptyString)))).
Proof.
  intros H1 H2 Ho. unfold queryLoad_command, match_query.
  change (Js.skip_spaces (" 18 " +:+ ?a))
    with (String "1" (String "8" (String " " a))).
  change (Js.is_space " ") with true. cbv iota.
  change (Js.skip_spaces (String " " ?a)) with (Js.skip_spaces a).
  simpl Js.skip_spaces. rewrite (digit_not_space _ H1).
  unfold match_address, match_output. by rewrite H1, H2, Ho.
Qed.

(** A line of the status grammar that arrives while a query is in flight
    is emitted as the status of the address the query named. *)
Lemma query_reply_emits (config : LitetouchConfig) (st : State)
    (cmd : QueuedCommand) (p : Pending) (a data ws : string) (d1 d2 d3 : ascii) :
  Invariant config st →
  awaiting st = Some cmd → pendingResponse st = Some p →
  match_query (command cmd) = Some a →
  Js.trim data = status_line ws d1 d2 d3 →
  ws ≠ EmptyString → all_spaces ws = true →
  Js.is_digit d1 = true → Js.is_digit d2 = true → Js.is_digit d3 = true →
  emitted (handleResponse data st)
  = emitted st ++ [{| address := a;
                      level := raw_to_level (digits_value d1 d2 d3);
                      raw := digits_value d1 d2 d3 |}].
Proof.
  intros Hinv Hcmd Hp Ha Hdata Hws Hspaces H1 H2 H3.
  destruct (inv_pending _ _ Hinv p Hp) as (c & Hc & _ & Haddr & _).
  assert (c = cmd) as -> by congruence. rewrite Ha in Haddr.
  unfold handleResponse. rewrite Hp. simpl. rewrite Haddr, Hdata.
  rewrite parseStatusResponse_status_line; try done.
  by eapply match_query_nonempty.
Qed.

(** ** Further properties of the source *)

(** *** The observable queue *)

Lemma enqueue_insert_length (c : QueuedCommand) (q : list QueuedCommand) :
  length (enqueue_insert c q) = S (length q).
Proof. by rewrite (Permutation_length (enqueue_insert_perm c q)). Qed.

Lemma processCommand_queue (config : LitetouchConfig) (cmd : QueuedCommand)
    (st : State) :
  queue (processCommand config cmd st) = queue st ∧
  processing (processCommand config cmd st) = processing st ∧
  dispatched (processCommand config cmd st) = dispatched st ∧
  handles (processCommand config cmd st) = handles st ∧
  next_handle (processCommand config cmd st) = next_handle st ∧
  immediates (processCommand config cmd st) = immediates st.
Proof. unfold processCommand. by destruct (portOpen st). Qed.

(** X1. After [enqueue] the queue is processing, whatever the state
    before.  The length the getters report grows by one when a command was
    being processed, and stays as it was otherwise, because the head of the
    queue is handed to the transport inside the call. *)
Theorem enqueue_observed (config : LitetouchConfig) (command : string)
    (priority : CommandPriority) (now : Z) (st : State) :
  isProcessing (enqueue config command priority now st) = true ∧
  queueLength (enqueue config command priority now st)
  = (queueLength st + if isProcessing st then 1 else 0)%nat.
Proof.
  unfold isProcessing, queueLength, enqueue, processNext. simpl.
  set (c := {| command := command; priority := priority;
               handle := next_handle st; timestamp := now |}).
  pose proof (enqueue_insert_length c (queue st)) as Hlen.
  destruct (processing st) eqn:Hp; simpl.
  - rewrite Hp. split; [done|]. rewrite Hlen. lia.
  - destruct (enqueue_insert c (queue st)) as [|cmd rest] eqn:Hq;
      [simpl in Hlen; lia|].
    set (st1 := set_dispatched _ _).
    destruct (processCommand_queue config cmd st1) as (-> & -> & _).
    simpl. split; [done|]. simpl in Hlen. lia.
Qed.

(** *** Closing and polling compose *)

(** X2. [close()] is idempotent: a second call finds the queue empty, the
    slot empty and no polling timer, and changes nothing. *)
Theorem close_idempotent (st : State) : close (close st) = close st.
Proof.
  destruct st as [q pr po pe la ci pt h e t w a i n wi d em].
  unfold close, clear, stopPolling. simpl.
  destruct pt; simpl; destruct pe; reflexivity.
Qed.

(** X3. Polling starts once and stops for good: [startPolling] on a
    connection that is polling changes nothing, so a second call submits
    no query and arms no second timer; after [stopPolling] the timer is
    gone, its callback does nothing, and a second [stopPolling] changes
    nothing. *)
Theorem polling_start_stop (config : LitetouchConfig) (now now' : Z) (st : State) :
  is_Some (pollingTimer (startPolling config now st)) ∧
  startPolling config now' (startPolling config now st)
  = startPolling config now st ∧
  pollingTimer (stopPolling st) = None ∧
  onPollingTimer config now (stopPolling st) = stopPolling st ∧
  stopPolling (stopPolling st) = stopPolling st ∧
  next_handle (stopPolling st) = next_handle st ∧
  queue (stopPolling st) = queue st.
Proof.
  assert (is_Some (pollingTimer (startPolling config now st))) as Hstarted.
  { unfold startPolling. destruct (pollingTimer st) eqn:E; [by rewrite E|].
    unfold pollNextLoad. by destruct (loadAddresses st). }
  assert (pollingTimer (stopPolling st) = None) as Hstopped.
  { unfold stopPolling. by destruct (pollingTimer st) eqn:E. }
  split; [done|]. split.
  { destruct Hstarted as [d Hd]. unfold startPolling at 1. by rewrite Hd. }
  split; [done|]. split.
  { unfold onPollingTimer. by rewrite Hstopped. }
  split.
  { unfold stopPolling at 1. by rewrite Hstopped. }
  unfold stopPolling. by destruct (pollingTimer st).
Qed.

(** *** What the two grammars accept *)

Lemma skip_spaces_split (s : string) :
  ∃ ws, all_spaces ws = true ∧ s = ws +:+ Js.skip_spaces s.
Proof.
  induction s as [|c s (ws & Hws & Hs)]; [by exists EmptyString|].
  simpl. destruct (Js.is_space c) eqn:Hc.
  - exists (String c ws). simpl. rewrite Hc, Hws. split; [done|].
    change (String c ws +:+ ?r) with (String c (ws +:+ r)). by rewrite <- Hs.
  - by exists EmptyString.
Qed.

Lemma match_status_inv (response ds : string) :
  match_status response = Some ds →
  ∃ ws d1 d2 d3,
    ws ≠ EmptyString ∧ all_spaces ws = true ∧
    Js.is_digit d1 = true ∧ Js.is_digit d2 = true ∧ Js.is_digit d3 = true ∧
    response = status_line ws d1 d2 d3 ∧
    ds = String d1 (String d2 (String d3 EmptyString)).
Proof.
  unfold match_status.
  destruct response as [|c1 [|c2 rest]]; try done.
  { by destruct c1 as [[] [] [] [] [] [] [] []]. }
  destruct c1 as [[] [] [] [] [] [] [] []]; try done.
  destruct c2 as [[] [] [] [] [] [] [] []]; try done.
  destruct rest as [|c rest']; [done|].
  destruct (Js.is_space c) eqn:Hc; [|done].
  destruct (skip_spaces_split (String c rest')) as (ws & Hws & Hrest).
  destruct (Js.skip_spaces (String c rest')) as [|d1 [|d2 [|d3 [|]]]]; try done.
  destruct (Js.is_digit d1) eqn:H1; [|done].
  destruct (Js.is_digit d2) eqn:H2; [|done].
  destruct (Js.is_digit d3) eqn:H3; [|done].
  intros [= <-]. exists ws, d1, d2, d3.
  split.
  { intros ->. injection Hrest as -> _.
    by rewrite (digit_not_space _ H1) in Hc. }
  repeat (split; [done|]). split; [|done].
  unfold status_line. rewrite <- Hrest. reflexivity.
Qed.

(** X4. [parseStatusResponse] returns a status exactly for the lines
    "18", white space, three digits, given a non-empty address; the status
    then carries that address and the value of the digits.  Any other
    line, a missing address and an empty address give [null]. *)
Theorem parseStatusResponse_accepts (response : string)
    (addr : option string) (s : LoadStatus) :
  parseStatusResponse response addr = Some s ↔
  ∃ a ws d1 d2 d3,
    addr = Some a ∧ a ≠ EmptyString ∧
    ws ≠ EmptyString ∧ all_spaces ws = true ∧
    Js.is_digit d1 = true ∧ Js.is_digit d2 = true ∧ Js.is_digit d3 = true ∧
    response = status_line ws d1 d2 d3 ∧
    s = {| address := a; level := raw_to_level (digits_value d1 d2 d3);
           raw := digits_value d1 d2 d3 |}.
Proof.
  split.
  - unfold parseStatusResponse.
    destruct (match_status response) as [ds|] eqn:Hds; [|done].
    destruct addr as [a|]; [|done].
    unfold falsy. case_bool_decide as Ha; [done|].
    intros [= <-].
    destruct (match_status_inv _ _ Hds)
      as (ws & d1 & d2 & d3 & ? & ? & ? & ? & ? & -> & ->).
    exists a, ws, d1, d2, d3. rewrite parseInt_digits. done.
  - intros (a & ws & d1 & d2 & d3 & -> & ? & ? & ? & ? & ? & ? & -> & ->).
    by apply parseStatusResponse_status_line.
Qed.

Lemma digits_value_bounds (d1 d2 d3 : ascii) :
  Js.is_digit d1 = true → Js.is_digit d2 = true → Js.is_digit d3 = true →
  0 ≤ digits_value d1 d2 d3 ≤ 999.
Proof.
  intros H1%digit_value_bounds H2%digit_value_bounds H3%digit_value_bounds.
  unfold digits_value. lia.
Qed.

Lemma raw_to_level_range (r : Z) :
  0 ≤ r ≤ 999 →
  0 ≤ raw_to_level r ≤ 400 ∧ (r ≤ 250 → raw_to_level r ≤ 100) ∧
  (raw_to_level r = 0 ↔ r = 0).
Proof.
  intros Hr.
  set (ok (r : Z) :=
    (0 <=? raw_to_level r) && (raw_to_level r <=? 400)
    && ((250 <? r) || (raw_to_level r <=? 100))
    && Bool.eqb (raw_to_level r =? 0) (r =? 0)).
  assert (ok r = true) as H.
  { apply (forallb_seqZ ok 0 1000); [vm_compute; reflexivity | lia]. }
  unfold ok in H.
  apply andb_true_iff in H as [H H4]. apply andb_true_iff in H as [H H3].
  apply andb_true_iff in H as [H1 H2].
  apply Z.leb_le in H1, H2. apply Bool.eqb_prop in H4.
  split; [lia|]. split.
  - intros Hle. apply orb_true_iff in H3 as [H3|H3].
    + apply Z.ltb_lt in H3. lia.
    + by apply Z.leb_le.
  - rewrite <- !Z.eqb_eq. by rewrite H4.
Qed.

(** X5. Every status [parseStatusResponse] returns has a raw value from 0
    to 999 and the level [raw <= 1 ? raw * 100 : Math.round(raw/250*100)]
    of that value.  The level is 0 only for raw 0, it is at most 100 when
    the raw value is at most 250, and it is never above 400: a raw value
    above 250 is not clamped. *)
Theorem parseStatusResponse_range (response : string) (addr : option string)
    (s : LoadStatus) :
  parseStatusResponse response addr = Some s →
  addr = Some (address s) ∧ address s ≠ EmptyString ∧
  0 ≤ raw s ≤ 999 ∧ level s = raw_to_level (raw s) ∧
  0 ≤ level s ≤ 400 ∧ (raw s ≤ 250 → level s ≤ 100) ∧
  (level s = 0 ↔ raw s = 0).
Proof.
  unfold parseStatusResponse.
  destruct (match_status response) as [ds|] eqn:Hds; [|done].
  destruct addr as [a|]; [|done].
  unfold falsy. case_bool_decide as Ha; [done|].
  intros [= <-]. simpl.
  destruct (match_status_inv _ _ Hds)
    as (ws & d1 & d2 & d3 & _ & _ & H1 & H2 & H3 & _ & ->).
  rewrite parseInt_digits.
  pose proof (digits_value_bounds d1 d2 d3 H1 H2 H3) as Hb.
  destruct (raw_to_level_range _ Hb) as (? & ? & ?). done.
Qed.

Lemma parseStatusResponse_range_witness :
  let s := {| address := "07-4"; level := 400; raw := 999 |} in
  Some "07-4" = Some (address s) ∧ address s ≠ EmptyString ∧
  0 ≤ raw s ≤ 999 ∧ level s = raw_to_level (raw s) ∧
  0 ≤ level s ≤ 400 ∧ (raw s ≤ 250 → level s ≤ 100) ∧
  (level s = 0 ↔ raw s = 0).
Proof.
  apply (parseStatusResponse_range "18 999" (Some "07-4")).
  vm_compute. reflexivity.
Defined.

Lemma match_output_inv (prefix s a : string) :
  match_output prefix s = Some a →
  ∃ o, a = prefix +:+ o ∧ digits12 o = true.
Proof.
  unfold match_output. destruct s as [|e1 s']; [done|].
  destruct (Js.is_digit e1) eqn:H1; [|done].
  destruct s' as [|e2 s''].
  - intros [= <-]. exists (String e1 EmptyString). by rewrite <- H1.
  - destruct (Js.is_digit e2) eqn:H2; intros [= <-].
    + exists (String e1 (String e2 EmptyString)). simpl. by rewrite H1, H2.
    + exists (String e1 EmptyString). by rewrite <- H1.
Qed.

Lemma match_output_digits12 (prefix o rest : string) :
  digits12 o = true → match_output prefix o = Some (prefix +:+ o).
Proof.
  unfold digits12, match_output.
  destruct o as [|o1 [|o2 [|]]]; try done.
  - by intros ->.
  - by intros [-> ->]%andb_true_iff.
Qed.

Lemma digit_not_dash (c : ascii) : Js.is_digit c = true → c ≠ "-"%char.
Proof. by intros H ->. Qed.

(** X6. The address the query grammar captures from a command always has
    the form of one or two digits, a dash, and one or two digits; and from
    the command [queryLoad] builds for an address of that form it captures
    exactly that address. *)
Theorem match_query_address :
  (∀ command a, match_query command = Some a → is_address a = true) ∧
  (∀ a, is_address a = true → match_query (queryLoad_command a) = Some a).
Proof.
  split.
  - intros command a. unfold match_query.
    destruct (Js.skip_spaces command) as [|c1 [|c2 rest]]; try done.
    { by destruct c1 as [[] [] [] [] [] [] [] []]. }
    destruct c1 as [[] [] [] [] [] [] [] []]; try done.
    destruct c2 as [[] [] [] [] [] [] [] []]; try done.
    destruct rest as [|c rest']; [done|].
    destruct (Js.is_space c); [|done].
    unfold match_address.
    destruct (Js.skip_spaces (String c rest')) as [|d1 [|d2 s2]]; try done.
    { by destruct (Js.is_digit d1). }
    destruct (Js.is_digit d1) eqn:H1; [|done].
    destruct (Js.is_digit d2) eqn:H2.
    + destruct s2 as [|c3 s3]; [done|].
      destruct (decide (c3 = "-"%char)) as [->|Hne];
        [|by destruct c3 as [[] [] [] [] [] [] [] []]].
      intros (o & -> & Ho)%match_output_inv.
      change (String d1 (String d2 (String "-" EmptyString)) +:+ o)
        with (String d1 (String d2 (String "-" o))).
      unfold is_address.
      rewrite bool_decide_eq_false_2 by by apply digit_not_dash.
      by rewrite H1, H2, Ho, bool_decide_eq_true_2.
    + case_bool_decide as Hd; [subst d2|done].
      intros (o & -> & Ho)%match_output_inv.
      change (String d1 (String "-" EmptyString) +:+ o)
        with (String d1 (String "-" o)).
      unfold is_address.
      by rewrite bool_decide_eq_true_2, H1, Ho.
  - intros a Ha. unfold queryLoad_command, match_query.
    change (Js.skip_spaces (" 18 " +:+ a))
      with (String "1" (String "8" (String " " a))).
    change (Js.is_space " ") with true. cbv iota.
    change (Js.skip_spaces (String " " a)) with (Js.skip_spaces a).
    unfold is_address in Ha.
    destruct a as [|m1 [|c rest]]; try done.
    case_bool_decide as Hc.
    + subst c. apply andb_true_iff in Ha as [H1 Ho].
      simpl Js.skip_spaces. rewrite (digit_not_space _ H1).
      unfold match_address. rewrite H1.
      change (Js.is_digit "-") with false. cbv iota.
      rewrite bool_decide_eq_true_2 by done.
      by rewrite (match_output_digits12 _ _ EmptyString Ho).
    + destruct rest as [|c' o]; [done|].
      apply andb_true_iff in Ha as [Ha Ho].
      apply andb_true_iff in Ha as [Ha Hc'].
      apply andb_true_iff in Ha as [H1 H2].
      apply bool_decide_eq_true in Hc'. subst c'.
      simpl Js.skip_spaces. rewrite (digit_not_space _ H1).
      unfold match_address. rewrite H1, H2.
      by rewrite (match_output_digits12 _ _ EmptyString Ho).
Qed.

Lemma match_query_address_witness :
  is_address "12-3" = true ∧
  match_query (queryLoad_command "07-12") = Some "07-12".
Proof.
  destruct match_query_address as [Hshape Hback]. split.
  - apply (Hshape " 18 12-3 trailing"). reflexivity.
  - apply Hback. reflexivity.
Defined.

(** *** The platform's levels *)

Lemma Math_round_le (x : Q) (n : Z) :
  (x <= inject_Z n)%Q → Js.Math_round x ≤ n.
Proof.
  intros Hx. destruct (Math_round_bounds x) as [Hlo _].
  assert (inject_Z (Js.Math_round x) < inject_Z (n + 1))%Q as H.
  { rewrite inject_Z_plus. change (inject_Z 1) with 1%Q. lra. }
  rewrite <- Zlt_Qlt in H. lia.
Qed.

Lemma matterLevel_bounds (l : Z) :
  1 ≤ Platform.matterLevel l ∧ (l ≤ 100 → Platform.matterLevel l ≤ 254).
Proof.
  unfold Platform.matterLevel. split; [lia|]. intros Hl.
  apply Z.max_lub; [lia|]. apply Math_round_le.
  assert (inject_Z l / 100 * 254 == inject_Z l * (127 # 50))%Q as -> by field.
  assert (inject_Z l <= inject_Z 100)%Q as H by by rewrite <- Zle_Qle.
  change (inject_Z 100) with 100%Q in H.
  change (inject_Z 254) with 254%Q. lra.
Qed.

(** X7. A level requested by a controller, from 0 to 254, becomes a
    percentage from 0 to 100, which is 0 (the load is switched off) exactly
    for the requests 0 and 1.  [setDimmer] and the decoder return that
    percentage unchanged, and for a request of 2 or more
    [handleLoadStatus] reports a level from 1 to 254 that differs from the
    request by at most 1.  Binary64 arithmetic gives the same numbers. *)
Theorem matter_level_roundtrip (m : Z) :
  0 ≤ m ≤ 254 →
  let p := Platform.levelOfRequest m in
  0 ≤ p ≤ 100 ∧ (p = 0 ↔ m ≤ 1) ∧
  roundtrip (IEEE.of_Z p) = Some p ∧
  1 ≤ Platform.matterLevel p ≤ 254 ∧
  (2 ≤ m → Z.abs (Platform.matterLevel p - m) ≤ 1) ∧
  Platform.ieee_levelOfRequest m = Some p ∧
  Platform.ieee_matterLevel p = Some (Platform.matterLevel p).
Proof.
  intros Hm p.
  set (ok (m : Z) :=
    let p := Platform.levelOfRequest m in
    (0 <=? p) && (p <=? 100) && Bool.eqb (p =? 0) (m <=? 1)
    && ((m <? 2) || (Z.abs (Platform.matterLevel p - m) <=? 1))
    && agrees (Platform.ieee_levelOfRequest m) p
    && agrees (Platform.ieee_matterLevel p) (Platform.matterLevel p)).
  assert (ok m = true) as H.
  { apply (forallb_seqZ ok 0 255); [vm_compute; reflexivity | lia]. }
  unfold ok in H. fold p in H.
  apply andb_true_iff in H as [H H6]. apply andb_true_iff in H as [H H5].
  apply andb_true_iff in H as [H H4]. apply andb_true_iff in H as [H H3].
  apply andb_true_iff in H as [H1 H2].
  apply Z.leb_le in H1, H2. apply Bool.eqb_prop in H3.
  split; [done|]. split.
  { rewrite <- Z.eqb_eq, <- Z.leb_le. by rewrite H3. }
  split; [by apply whole_levels_roundtrip|].
  split.
  { destruct (matterLevel_bounds p) as [? Hhi]. split; [done|]. by apply Hhi. }
  split.
  { intros H2m. apply orb_true_iff in H4 as [H4|H4].
    - apply Z.ltb_lt in H4. lia.
    - by apply Z.leb_le. }
  split; by apply agrees_eq.
Qed.

Lemma matter_level_roundtrip_witness :
  let p := Platform.levelOfRequest 127 in
  0 ≤ p ≤ 100 ∧ (p = 0 ↔ 127 ≤ 1) ∧
  roundtrip (IEEE.of_Z p) = Some p ∧
  1 ≤ Platform.matterLevel p ≤ 254 ∧
  (2 ≤ 127 → Z.abs (Platform.matterLevel p - 127) ≤ 1) ∧
  Platform.ieee_levelOfRequest 127 = Some p ∧
  Platform.ieee_matterLevel p = Some (Platform.matterLevel p).
Proof. apply (matter_level_roundtrip 127). lia. Defined.

Lemma handleLoadStatus_fields (status : LoadStatus) (active : bool)
    (st : Platform.State) :
  Platform.devices (Platform.handleLoadStatus status active st)
  = Platform.devices st ∧
  Platform.deviceTypes (Platform.handleLoadStatus status active st)
  = Platform.deviceTypes st.
Proof.
  unfold Platform.handleLoadStatus. case_bool_decide; [|done].
  destruct (Platform.deviceTypes st !! address status) as [[]|]; [..|done];
    destruct active; try done.
  simpl. by destruct (0 <? level status).
Qed.

(** What [handleLoadStatus] keeps true, for a bound [b] on the levels of
    the statuses handled so far. *)
Lemma handleLoadStatus_keeps (b : Z) (status : LoadStatus) (active : bool)
    (st : Platform.State) :
  level status ≤ b →
  (∀ a l, Platform.lastDimmerLevels st !! a = Some l →
     0 < l ≤ b ∧ Platform.deviceTypes st !! a = Some Platform.dimmer) →
  (∀ a l, Platform.CurrentLevel a l ∈ Platform.written st →
     1 ≤ l ≤ Platform.matterLevel b ∧
     Platform.deviceTypes st !! a = Some Platform.dimmer) →
  (∀ a on, Platform.OnOff a on ∈ Platform.written st →
     a ∈ Platform.devices st) →
  let st' := Platform.handleLoadStatus status active st in
  (∀ a l, Platform.lastDimmerLevels st' !! a = Some l →
     0 < l ≤ b ∧ Platform.deviceTypes st' !! a = Some Platform.dimmer) ∧
  (∀ a l, Platform.CurrentLevel a l ∈ Platform.written st' →
     1 ≤ l ≤ Platform.matterLevel b ∧
     Platform.deviceTypes st' !! a = Some Platform.dimmer) ∧
  (∀ a on, Platform.OnOff a on ∈ Platform.written st' →
     a ∈ Platform.devices st').
Proof.
  intros Hb Hlast Hcur Hon st'. subst st'.
  unfold Platform.handleLoadStatus. case_bool_decide as Hdev; [|done].
  destruct (Platform.deviceTypes st !! address status) as [[]|] eqn:Htype;
    [..|done]; destruct active; try done.
  - destruct (0 <? level status) eqn:Hpos; simpl.
    + apply Z.ltb_lt in Hpos. split; [|split].
      * intros a l [[<- <-]|[_ H]]%lookup_insert_Some; [done|by apply Hlast].
      * intros a l [[H|H]%elem_of_app|H]%elem_of_app.
        -- by apply Hcur.
        -- by apply list_elem_of_singleton in H.
        -- apply list_elem_of_singleton in H. injection H as -> ->.
           split; [|done].
           destruct (matterLevel_bounds (level status)) as [Hlo _].
           split; [done|]. unfold Platform.matterLevel.
           apply Z.max_le_compat_l, Qfloor_resp_le.
           assert (inject_Z (level status) <= inject_Z b)%Q as H
             by by rewrite <- Zle_Qle.
           assert (inject_Z (level status) / 100 * 254
                   == inject_Z (level status) * (127 # 50))%Q as -> by field.
           assert (inject_Z b / 100 * 254 == inject_Z b * (127 # 50))%Q as ->
             by field.
           lra.
      * intros a on [[H|H]%elem_of_app|H]%elem_of_app.
        -- by apply (Hon a on).
        -- apply list_elem_of_singleton in H. by injection H as -> _.
        -- by apply list_elem_of_singleton in H.
    + split; [done|]. split.
      * intros a l [H|H]%elem_of_app; [by apply Hcur|].
        by apply list_elem_of_singleton in H.
      * intros a on [H|H]%elem_of_app; [by apply (Hon a on)|].
        apply list_elem_of_singleton in H. by injection H as -> _.
  - simpl. split; [done|]. split.
    + intros a l [H|H]%elem_of_app; [by apply Hcur|].
      by apply list_elem_of_singleton in H.
    + intros a on [H|H]%elem_of_app; [by apply (Hon a on)|].
      apply list_elem_of_singleton in H. by injection H as -> _.
Qed.

Lemma handleAll_keeps (b : Z) (types : gmap string Platform.DeviceType)
    (events : list (LoadStatus * bool)) :
  Forall (λ e, level e.1 ≤ b) events →
  let st := Platform.handleAll events (Platform.start types) in
  Platform.devices st = dom types ∧ Platform.deviceTypes st = types ∧
  (∀ a l, Platform.lastDimmerLevels st !! a = Some l →
     0 < l ≤ b ∧ types !! a = Some Platform.dimmer) ∧
  (∀ a l, Platform.CurrentLevel a l ∈ Platform.written st →
     1 ≤ l ≤ Platform.matterLevel b ∧ types !! a = Some Platform.dimmer) ∧
  (∀ a on, Platform.OnOff a on ∈ Platform.written st → a ∈ dom types).
Proof.
  induction events as [|e events IH] using rev_ind; intros Hb st.
  - subst st. simpl. split; [done|]. split; [done|].
    split; [by intros a l H; rewrite lookup_empty in H|].
    split; intros ? ? H; by apply elem_of_nil in H.
  - apply Forall_app in Hb as [Hb He]. apply Forall_inv in He.
    destruct (IH Hb) as (Hdev & Htypes & Hlast & Hcur & Hon).
    subst st. unfold Platform.handleAll in *. rewrite foldl_app. simpl.
    set (st0 := foldl _ (Platform.start types) events) in *.
    destruct (handleLoadStatus_fields e.1 e.2 st0) as [Hd Ht].
    rewrite Hd, Ht, Hdev, Htypes.
    destruct (handleLoadStatus_keeps b e.1 e.2 st0 He) as (H1 & H2 & H3).
    + by rewrite Htypes.
    + by rewrite Htypes.
    + by rewrite Hdev.
    + rewrite Ht, Htypes in H1, H2. rewrite Hd, Hdev in H3. done.
Qed.

(** X8. Whatever statuses [handleLoadStatus] has handled, for devices
    that were active or not: the level the [on] and [toggle] handlers
    restore for an address is at least 1, and it is 100 until a status
    that switches the dimmer on has been stored; every [currentLevel]
    written is at least 1 and is written for a configured dimmer; and
    every attribute is written for a configured load.  When all levels
    handled are at most 100, the restored level is at most 100 and every
    [currentLevel] written is at most 254. *)
Theorem status_updates_in_range (types : gmap string Platform.DeviceType)
    (events : list (LoadStatus * bool)) (addr : string) :
  let st := Platform.handleAll events (Platform.start types) in
  1 ≤ Platform.restoredLevel addr st ∧
  (Platform.lastDimmerLevels st !! addr = None →
     Platform.restoredLevel addr st = 100) ∧
  (∀ a l, Platform.CurrentLevel a l ∈ Platform.written st →
     1 ≤ l ∧ types !! a = Some Platform.dimmer) ∧
  (∀ a on, Platform.OnOff a on ∈ Platform.written st → is_Some (types !! a)) ∧
  (Forall (λ e, level e.1 ≤ 100) events →
     Platform.restoredLevel addr st ≤ 100 ∧
     ∀ a l, Platform.CurrentLevel a l ∈ Platform.written st → l ≤ 254).
Proof.
  intros st.
  set (b := foldr (λ e m, Z.max (level e.1) m) 0 events).
  assert (Forall (λ e, level e.1 ≤ b) events) as Hb.
  { subst b. clear st. induction events as [|e events IH]; [constructor|].
    simpl. constructor; [lia|].
    eapply Forall_impl; [exact IH|]. simpl. intros; lia. }
  destruct (handleAll_keeps b types events Hb) as (_ & _ & Hlast & Hcur & Hon).
  fold st in Hlast, Hcur, Hon.
  split; [|split; [|split; [|split]]].
  - unfold Platform.restoredLevel.
    destruct (Platform.lastDimmerLevels st !! addr) as [l|] eqn:E; [|lia].
    destruct (Hlast addr l E) as [[Hpos _] _].
    destruct (l =? 0) eqn:Hz; [lia|lia].
  - intros E. unfold Platform.restoredLevel. by rewrite E.
  - intros a l H. destruct (Hcur a l H) as [[? _] ?]. done.
  - intros a on H. apply elem_of_dom. by apply (Hon a on).
  - intros H100.
    destruct (handleAll_keeps 100 types events H100) as (_ & _ & Hlast' & Hcur' & _).
    fold st in Hlast', Hcur'. split.
    + unfold Platform.restoredLevel.
      destruct (Platform.lastDimmerLevels st !! addr) as [l|] eqn:E; [|lia].
      destruct (Hlast' addr l E) as [[Hpos Hle] _].
      destruct (l =? 0); lia.
    + intros a l H. destruct (Hcur' a l H) as [[_ Hle] _].
      change (Platform.matterLevel 100) with 254 in Hle. done.
Qed.

Lemma status_updates_in_range_witness :
  let types : gmap string Platform.DeviceType :=
    {[ "01-1" := Platform.dimmer; "05-1" := Platform.switch ]} in
  let events :=
    [({| address := "01-1"; level := 50; raw := 125 |}, true);
     ({| address := "05-1"; level := 100; raw := 1 |}, true);
     ({| address := "01-1"; level := 0; raw := 0 |}, true)] in
  let st := Platform.handleAll events (Platform.start types) in
  Platform.restoredLevel "01-1" st ≤ 100 ∧
  ∀ a l, Platform.CurrentLevel a l ∈ Platform.written st → l ≤ 254.
Proof.
  intros types events.
  destruct (status_updates_in_range types events "01-1") as (_ & _ & _ & _ & H).
  apply H. repeat constructor; simpl; lia.
Defined.

(** A dimmer at 50 percent, a switch that is on, then the dimmer off: the
    level to restore stays 50 and [currentLevel] is written once. *)
Example example_status_updates :
  let types : gmap string Platform.DeviceType :=
    {[ "01-1" := Platform.dimmer; "05-1" := Platform.switch ]} in
  let st :=
    Platform.handleAll
      [({| address := "01-1"; level := 50; raw := 125 |}, true);
       ({| address := "05-1"; level := 100; raw := 1 |}, true);
       ({| address := "09-9"; level := 100; raw := 250 |}, true);
       ({| address := "01-1"; level := 0; raw := 0 |}, true)]
      (Platform.start types) in
  Platform.restoredLevel "01-1" st = 50 ∧
  Platform.restoredLevel "05-1" st = 100 ∧
  Platform.written st
  = [Platform.OnOff "01-1" true; Platform.CurrentLevel "01-1" 127;
     Platform.OnOff "05-1" true; Platform.OnOff "01-1" false].
Proof. repeat split; vm_compute; reflexivity. Qed.

(** *** How a step changes the state *)

Lemma Effects_post (st st' st'' : State) :
  queue st'' = queue st' → dispatched st'' = dispatched st' →
  exchanges st'' = exchanges st' → handles st'' = handles st' →
  emitted st'' = emitted st' →
  Effects st st' → Effects st st''.
Proof.
  intros Hq Hd He Hh Hem []. constructor; rewrite ?Hq, ?Hd, ?He, ?Hh, ?Hem; done.
Qed.

Lemma Effects_pre (st0 st st' : State) :
  queue st0 = queue st → next_handle st0 = next_handle st →
  dispatched st0 = dispatched st → exchanges st0 = exchanges st →
  handles st0 = handles st → emitted st0 = emitted st →
  awaiting st0 = awaiting st →
  Effects st0 st' → Effects st st'.
Proof.
  intros Hq Hn Hd He Hh Hem Ha [].
  constructor; rewrite <- ?Hq, <- ?Hn, <- ?Hd, <- ?He, <- ?Hh, <- ?Hem, <- ?Ha;
    done.
Qed.

Lemma Effects_same (st st' : State) :
  queue st' = queue st → dispatched st' = dispatched st →
  exchanges st' = exchanges st → handles st' = handles st →
  emitted st' = emitted st →
  Effects st st'.
Proof.
  intros Hq Hd He Hh Hem.
  constructor; rewrite ?Hq, ?Hd, ?He, ?Hh, ?Hem; auto.
Qed.

(** [processNext] after a part of a call that may have inserted a new
    command: [st0] is the state at the start of the call. *)
Lemma Effects_processNext (config : LitetouchConfig) (st0 st : State) :
  Invariant config st →
  dispatched st = dispatched st0 → exchanges st = exchanges st0 →
  handles st = handles st0 → emitted st = emitted st0 →
  (∀ c, c ∈ queue st → c ∈ queue st0 ∨ handle c = next_handle st0) →
  Effects st0 (processNext config st).
Proof.
  intros Hinv Hd He Hh Hem Hq. unfold processNext.
  destruct (processing st) eqn:Hproc.
  { constructor; rewrite ?Hd, ?He, ?Hh, ?Hem; auto. }
  destruct (queue st) as [|cmd rest] eqn:Hqueue.
  { constructor; rewrite ?Hd, ?He, ?Hh, ?Hem, ?Hqueue; auto. }
  pose proof (inv_sorted _ _ Hinv) as Hsorted. rewrite Hqueue in Hsorted.
  apply StronglySorted_cons in Hsorted as [Hbefore _].
  set (st1 := set_dispatched _ _).
  destruct (processCommand_queue config cmd st1) as (Hq1 & _ & Hd1 & Hh1 & _).
  assert (emitted (processCommand config cmd st1) = emitted st0) as Hem1.
  { unfold processCommand. destruct (portOpen st1); simpl; done. }
  assert (∀ id o, exchanges st0 !! id = Some o →
            exchanges (processCommand config cmd st1) !! id = Some o) as He1.
  { intros id o Ho. unfold processCommand.
    destruct (portOpen st1); simpl; rewrite He; [done|].
    apply settle_lookup_Some. by left. }
  constructor.
  - rewrite Hq1. simpl. intros c Hc. apply Hq. by right.
  - right. exists cmd. rewrite Hd1, Hq1, Hh1, Hem1. simpl. rewrite Hd, Hh.
    split; [done|]. split; [done|]. split; [|done]. apply Hq. by left.
  - exact He1.
  - rewrite Hh1. simpl. rewrite Hh. auto.
  - left. exact Hem1.
Qed.

Lemma Effects_enqueue (config : LitetouchConfig) (command : string)
    (priority : CommandPriority) (now : Z) (st : State) :
  Invariant config st → Effects st (enqueue config command priority now st).
Proof.
  intros Hinv.
  set (c := {| command := command; priority := priority;
               handle := next_handle st; timestamp := now |}).
  set (st1 := set_queue (enqueue_insert c (queue st))
                (set_next_handle (S (next_handle st)) st)).
  change (enqueue config command priority now st)
    with (processNext config st1).
  apply Effects_processNext; try done.
  - exact (submitted_invariant config c st Hinv eq_refl).
  - simpl. intros x Hx. rewrite enqueue_insert_perm in Hx.
    apply elem_of_cons in Hx as [->|Hx]; auto.
Qed.

Lemma Effects_pollNextLoad (config : LitetouchConfig) (now : Z) (st : State) :
  Invariant config st → Effects st (pollNextLoad config now st).
Proof.
  intros Hinv. unfold pollNextLoad.
  destruct (loadAddresses st) as [|a l] eqn:E; [by apply Effects_same|].
  set (st0 := set_currentPollingIndex _ st).
  assert (Invariant config st0) as Hinv0 by frame_invariant Hinv.
  eapply Effects_post;
    [..| eapply Effects_pre;
         [..| exact (Effects_enqueue config
                       (queryLoad_command
                          (default "undefined"
                             ((a :: l) !! currentPollingIndex st)))
                       NORMAL now st0 Hinv0)]];
    done.
Qed.

Lemma Effects_resolve (id : nat) (o : Settled) (st : State) :
  Effects st
    (settle_exchange id o (set_pendingResponse None (clearTimeout id st))).
Proof.
  constructor; simpl; auto.
  intros id' o' H. apply settle_lookup_Some. by left.
Qed.

Lemma Effects_step (config : LitetouchConfig) (ev : Event) (st : State) :
  Invariant config st → Effects st (step config ev st).
Proof.
  intros Hinv. destruct ev; simpl.
  - by apply Effects_enqueue.
  - unfold handleResponse.
    destruct (pendingResponse st) as [p|] eqn:Hp; simpl.
    + destruct (inv_pending _ _ Hinv p Hp) as (cmd & Hcmd & Hid & Haddr & Ht).
      assert (exchanges st !! p_id p = None) as Hnone.
      { rewrite <- Hid. apply (inv_awaiting _ _ Hinv cmd Hcmd).
        by rewrite Hid. }
      set (st1 := set_pendingResponse None _).
      assert (Effects st st1) as Hst1.
      { eapply Effects_post;
          [..| exact (Effects_resolve (p_id p)
                        (Resolved (Some (Js.trim data))) st)]; done. }
      destruct (parseStatusResponse (Js.trim data) (p_address p))
        as [s|] eqn:Hs; [|exact Hst1].
      destruct Hst1. constructor; simpl; auto.
      right. split; [done|].
      destruct (p_address p) as [a|] eqn:Ha;
        [|by rewrite parseStatusResponse_no_address in Hs].
      exists cmd, a, (Js.trim data), s. rewrite <- Haddr.
      repeat split; try done.
      rewrite Hid. by apply settle_lookup_eq.
    + rewrite parseStatusResponse_no_address. by apply Effects_same.
  - unfold onTimeout. destruct (timers st !! id); [|by apply Effects_same].
    apply Effects_resolve.
  - unfold onWritten. case_bool_decide; [|by apply Effects_same].
    destruct err as [e|]; [|by apply Effects_same].
    eapply Effects_post;
      [..| exact (Effects_resolve id (Rejected e) st)]; done.
  - unfold resume. destruct (awaiting st) as [c|] eqn:Hc; [|by apply Effects_same].
    destruct (exchanges st !! handle c) as [o|] eqn:Ho; [|by apply Effects_same].
    assert (Effects st (set_awaiting None (set_processing false
                          (settle_handle (handle c) o st)))) as H.
    { constructor; simpl; auto.
      intros id o' [H|(-> & _ & ->)]%settle_lookup_Some; [by left|].
      right. split; [done|]. left. by exists c. }
    simpl. destruct (queue st); [exact H|].
    eapply Effects_post; [..|exact H]; done.
  - unfold onImmediate. destruct (immediates st) as [|n]; [by apply Effects_same|].
    apply Effects_processNext; try done; [|by auto].
    frame_invariant Hinv.
  - unfold clear. constructor; simpl; auto.
    + intros c Hc. by apply elem_of_nil in Hc.
    + intros id o Ho.
      destruct (handles st !! id) as [x|] eqn:Hx.
      * left. rewrite (reject_all_lookup_Some _ _ _ _ _ Hx) in Ho. congruence.
      * right. split; [done|]. right.
        destruct (decide (id ∈ handle <$> queue st)) as [Hin|Hout].
        -- split; [done|]. rewrite reject_all_lookup_rejected in Ho by done.
           injection Ho as <-. by left.
        -- rewrite reject_all_lookup_other, Hx in Ho by done. done.
  - unfold clearPollingCommands. constructor; simpl; auto.
    + intros c [_ Hc]%list_elem_of_filter. by left.
    + intros id o Ho.
      destruct (handles st !! id) as [x|] eqn:Hx.
      * left. rewrite (reject_all_lookup_Some _ _ _ _ _ Hx) in Ho. congruence.
      * right. split; [done|]. right.
        set (dropped := filter (λ cmd, priority cmd = NORMAL) (queue st)) in *.
        destruct (decide (id ∈ handle <$> dropped)) as [Hin|Hout].
        -- rewrite reject_all_lookup_rejected in Ho by done.
           injection Ho as <-. split; [|by right].
           apply list_elem_of_fmap in Hin as (c & -> & [_ Hc]%list_elem_of_filter).
           by apply list_elem_of_fmap_2.
        -- rewrite reject_all_lookup_other, Hx in Ho by done. done.
  - assert (Effects st (clear (stopPolling st))) as Hclear.
    { unfold clear, stopPolling.
      destruct (pollingTimer st); constructor; simpl; auto.
      all: try (intros c Hc; by apply elem_of_nil in Hc).
      all: intros id o Ho;
        (destruct (handles st !! id) as [x|] eqn:Hx;
         [left; rewrite (reject_all_lookup_Some _ _ _ _ _ Hx) in Ho; congruence|]);
        right; (split; [done|]); right;
        (destruct (decide (id ∈ handle <$> queue st)) as [Hin|Hout];
         [split; [done|]; rewrite reject_all_lookup_rejected in Ho by done;
          injection Ho as <-; by left
         |rewrite reject_all_lookup_other, Hx in Ho by done; done]). }
    unfold close.
    destruct (pendingResponse (clear (stopPolling st))) as [p|]; [|exact Hclear].
    destruct Hclear. constructor; simpl; auto.
    + intros id o Ho. apply settle_lookup_Some. left. simpl. auto.
    + left. unfold stopPolling. by destruct (pollingTimer st).
  - by apply Effects_same.
  - by apply Effects_same.
  - by apply Effects_same.
  - unfold startPolling. destruct (pollingTimer st); [by apply Effects_same|].
    by apply Effects_pollNextLoad.
  - unfold stopPolling. destruct (pollingTimer st); by apply Effects_same.
  - unfold onPollingTimer. destruct (pollingTimer st); [|by apply Effects_same].
    by apply Effects_pollNextLoad.
Qed.

(** Induction over the reachable states. *)
Lemma reachable_ind (config : LitetouchConfig) (P : State → Prop) :
  P init →
  (∀ st ev, Invariant config st → P st → P (step config ev st)) →
  ∀ evs, P (run config evs init).
Proof.
  intros Hinit Hstep evs. induction evs as [|ev evs IH] using rev_ind; [done|].
  rewrite run_snoc. apply Hstep; [apply reachable_invariant | exact IH].
Qed.

(** *** Order, provenance and progress *)

Lemma sorted_lookup {A} (R : relation A) (l : list A) (i j : nat) (x y : A) :
  StronglySorted R l → (i < j)%nat → l !! i = Some x → l !! j = Some y → R x y.
Proof.
  intros Hsorted Hij Hi Hj.
  rewrite <- (take_drop j l) in Hsorted.
  apply StronglySorted_app in Hsorted as (Hcross & _ & _).
  apply Hcross.
  - apply list_elem_of_lookup. exists i. by rewrite lookup_take_lt.
  - apply list_elem_of_lookup. exists O. rewrite lookup_drop.
    by rewrite Nat.add_0_r.
Qed.

Lemma fifo_reachable (config : LitetouchConfig) (evs : list Event) :
  let R := λ d1 d2 : QueuedCommand,
    priority d1 = priority d2 → (handle d1 < handle d2)%nat in
  let st := run config evs init in
  StronglySorted R (dispatched st) ∧
  (∀ d c, d ∈ dispatched st → c ∈ queue st → R d c).
Proof.
  intros R. apply (reachable_ind config
    (λ st, StronglySorted R (dispatched st) ∧
           (∀ d c, d ∈ dispatched st → c ∈ queue st → R d c))).
  { split; [constructor|]. intros d c Hd. by apply elem_of_nil in Hd. }
  intros st ev Hinv [Hsorted Hcross].
  destruct (Effects_step config ev st Hinv) as [Hq Hd _ _ _].
  assert (∀ d c, d ∈ dispatched st → c ∈ queue (step config ev st) → R d c)
    as Hold.
  { intros d c Hdin Hc. destruct (Hq c Hc) as [Hc'|Hnew]; [by apply Hcross|].
    intros _. rewrite Hnew. by apply (inv_dispatched _ _ Hinv). }
  destruct Hd as [->|(cmd & -> & Hbefore & Hcmd & _)]; [done|].
  split.
  - apply StronglySorted_app. split; [|split; [done|repeat constructor]].
    intros d x Hdin ->%list_elem_of_singleton.
    destruct Hcmd as [Hcmd|Hnew]; [by apply Hcross|].
    intros _. rewrite Hnew. by apply (inv_dispatched _ _ Hinv).
  - intros d c [Hdin| ->%list_elem_of_singleton]%elem_of_app Hc; [by apply Hold|].
    rewrite Forall_forall in Hbefore. exact (proj2 (Hbefore c Hc)).
Qed.

(** X9. Commands of one priority class are handed to the transport in
    the order of their submission: of two dispatched commands of the same
    class the one dispatched first was submitted first, and every
    dispatched command was submitted before every command of its class
    that is still queued. *)
Theorem dispatch_order_fifo (config : LitetouchConfig) (evs : list Event) :
  let st := run config evs init in
  (∀ i j di dj, (i < j)%nat →
     dispatched st !! i = Some di → dispatched st !! j = Some dj →
     priority di = priority dj → (handle di < handle dj)%nat) ∧
  (∀ d c, d ∈ dispatched st → c ∈ queue st →
     priority d = priority c → (handle d < handle c)%nat).
Proof.
  intros st. destruct (fifo_reachable config evs) as [Hsorted Hcross].
  split; [|exact Hcross].
  intros i j di dj Hij Hi Hj.
  exact (sorted_lookup _ _ i j di dj Hsorted Hij Hi Hj).
Qed.

Lemma dispatch_order_fifo_witness :
  let evs :=
    [PortOpened; Submit " 18 01-1" NORMAL 1; Submit " 18 02-1" NORMAL 2;
     Submit " 10 03-1 001" HIGH 3; Submit " 18 04-1" NORMAL 4;
     Data "18 000"; Resume; Immediate; Data "10 001"; Resume; Immediate] in
  let di := {| command := " 18 01-1"; priority := NORMAL; handle := 0;
               timestamp := 1 |} in
  let dj := {| command := " 18 02-1"; priority := NORMAL; handle := 1;
               timestamp := 2 |} in
  dispatched (run config0 evs init) !! 2%nat = Some dj ∧
  (handle di < handle dj)%nat.
Proof.
  intros evs di dj. split; [vm_compute; reflexivity|].
  destruct (dispatch_order_fifo config0 evs) as [H _].
  apply (H 0%nat 2%nat); [lia | vm_compute; reflexivity..].
Defined.

(** X10. A handle is settled in one of two ways only.  Either its
    command was handed to the transport, and the handle holds the outcome
    of that command's own exchange; or its command was never handed to the
    transport, and the handle holds the rejection of [clear] or of
    [clearPollingCommands].  So a cancelled command is never sent, and no
    command receives the reply of another. *)
Theorem handle_outcomes (config : LitetouchConfig) (evs : list Event)
    (id : nat) (o : Settled) :
  let st := run config evs init in
  handles st !! id = Some o →
  (id ∈ handle <$> dispatched st ∧ exchanges st !! id = Some o) ∨
  ((id ∉ handle <$> dispatched st) ∧ cancelled o).
Proof.
  intros st. subst st. revert id o.
  apply (reachable_ind config
    (λ st, ∀ id o, handles st !! id = Some o →
       (id ∈ handle <$> dispatched st ∧ exchanges st !! id = Some o) ∨
       ((id ∉ handle <$> dispatched st) ∧ cancelled o))).
  { intros id o H. simpl in H. by rewrite lookup_empty in H. }
  intros st ev Hinv IH id o Ho.
  destruct (Effects_step config ev st Hinv) as [_ Hd He Hh _].
  destruct (Hh id o Ho) as [Hold|(Hsame & [(c & Hc & <- & Hx)|(Hq & Hcan)])].
  - destruct (IH id o Hold) as [(Hin & Hx)|(Hout & Hcan)].
    + left. split; [|by apply He].
      destruct Hd as [->|(cmd & -> & _)]; [done|].
      rewrite fmap_app. apply elem_of_app. by left.
    + right. split; [|done].
      destruct Hd as [->|(cmd & -> & _ & Hcmd & _)]; [done|].
      rewrite fmap_app, not_elem_of_app. split; [done|].
      intros E%list_elem_of_singleton.
      destruct Hcmd as [Hcmd|Hnew].
      * destruct (inv_queue _ _ Hinv cmd Hcmd) as (_ & Hnone & _).
        rewrite <- E in Hnone. congruence.
      * assert (id < next_handle st)%nat
          by (apply (inv_handles _ _ Hinv); eauto).
        lia.
  - left. rewrite Hsame. split; [|by apply He].
    apply list_elem_of_fmap_2. by apply (inv_awaiting _ _ Hinv).
  - right. rewrite Hsame. split; [|done].
    apply list_elem_of_fmap in Hq as (c & -> & Hc).
    by apply (inv_queue _ _ Hinv).
Qed.

Lemma handle_outcomes_witness :
  let st := run config0
              (two_submissions ++ [Data "18 125"; Resume; Clear]) init in
  (0%nat ∈ handle <$> dispatched st ∧
   exchanges st !! 0%nat = Some (Resolved (Some "18 125"))) ∨
  ((0%nat ∉ handle <$> dispatched st) ∧ cancelled (Resolved (Some "18 125"))).
Proof.
  apply (handle_outcomes config0
           (two_submissions ++ [Data "18 125"; Resume; Clear])).
  vm_compute. reflexivity.
Defined.

Lemma parseStatusResponse_address (response a : string) (s : LoadStatus) :
  parseStatusResponse response (Some a) = Some s → address s = a.
Proof.
  unfold parseStatusResponse.
  destruct (match_status response); [|done].
  destruct (falsy (Some a)); [done|]. by intros [= <-].
Qed.

(** X11. Every ['loadStatus'] event that was ever emitted is the decoding
    of the reply that resolved the exchange of a query: a command that was
    handed to the transport, matches the query grammar, and whose captured
    address the event carries. *)
Theorem emitted_from_replies (config : LitetouchConfig) (evs : list Event)
    (s : LoadStatus) :
  let st := run config evs init in
  s ∈ emitted st →
  ∃ cmd r,
    cmd ∈ dispatched st ∧ match_query (command cmd) = Some (address s) ∧
    exchanges st !! handle cmd = Some (Resolved (Some r)) ∧
    parseStatusResponse r (Some (address s)) = Some s.
Proof.
  intros st. subst st. revert s.
  apply (reachable_ind config
    (λ st, ∀ s, s ∈ emitted st →
       ∃ cmd r,
         cmd ∈ dispatched st ∧ match_query (command cmd) = Some (address s) ∧
         exchanges st !! handle cmd = Some (Resolved (Some r)) ∧
         parseStatusResponse r (Some (address s)) = Some s)).
  { intros s Hs. by apply elem_of_nil in Hs. }
  intros st ev Hinv IH s Hs.
  destruct (Effects_step config ev st Hinv) as [_ Hd He _ Hem].
  assert (s ∈ emitted st →
          ∃ cmd r,
            cmd ∈ dispatched (step config ev st) ∧
            match_query (command cmd) = Some (address s) ∧
            exchanges (step config ev st) !! handle cmd
            = Some (Resolved (Some r)) ∧
            parseStatusResponse r (Some (address s)) = Some s) as Hold.
  { intros Hin. destruct (IH s Hin) as (cmd & r & Hcmd & Hq & Hx & Hp).
    exists cmd, r. repeat split; [|done|by apply He|done].
    destruct Hd as [->|(c & -> & _)]; [done|].
    apply elem_of_app. by left. }
  destruct Hem as [Hsame|(Hsame & cmd & a & r & s' & Hcmd & Hq & Hx & Hp & Hnew)].
  { rewrite Hsame in Hs. by apply Hold. }
  rewrite Hnew in Hs.
  apply elem_of_app in Hs as [Hs| ->%list_elem_of_singleton]; [by apply Hold|].
  rewrite (parseStatusResponse_address _ _ _ Hp).
  exists cmd, r. rewrite Hsame. repeat split; try done.
  by apply (inv_awaiting _ _ Hinv).
Qed.

Lemma emitted_from_replies_witness :
  let evs := [PortOpened; Submit " 18 07-4" NORMAL 1; Data " 18 125 "] in
  let s := {| address := "07-4"; level := 50; raw := 125 |} in
  let st := run config0 evs init in
  ∃ cmd r,
    cmd ∈ dispatched st ∧ match_query (command cmd) = Some (address s) ∧
    exchanges st !! handle cmd = Some (Resolved (Some r)) ∧
    parseStatusResponse r (Some (address s)) = Some s.
Proof.
  intros evs s.
  apply (emitted_from_replies config0 evs s).
  vm_compute. apply list_elem_of_here.
Defined.

Lemma processNext_head (config : LitetouchConfig) (st : State)
    (cmd : QueuedCommand) (rest : list QueuedCommand) :
  processing st = false → queue st = cmd :: rest →
  dispatched (processNext config st) = dispatched st ++ [cmd] ∧
  queue (processNext config st) = rest ∧
  awaiting (processNext config st) = Some cmd ∧
  processing (processNext config st) = true.
Proof.
  intros Hp Hq. unfold processNext. rewrite Hp, Hq.
  unfold processCommand. by destruct (portOpen _).
Qed.

Lemma processNext_busy_or_empty (config : LitetouchConfig) (st : State) :
  (processing (processNext config st) = true ∨
   queue (processNext config st) = []) ∧
  immediates (processNext config st) = immediates st.
Proof.
  unfold processNext. destruct (processing st) eqn:Hp; [by auto|].
  destruct (queue st) as [|cmd rest] eqn:Hq; [by auto|].
  unfold processCommand. destruct (portOpen _); simpl; auto.
Qed.

Lemma enqueue_busy (config : LitetouchConfig) (command : string)
    (priority : CommandPriority) (now : Z) (st : State) :
  processing (enqueue config command priority now st) = true.
Proof.
  unfold enqueue, processNext. simpl.
  destruct (processing st) eqn:Hp; [done|].
  destruct (enqueue_insert _ (queue st)) as [|cmd rest] eqn:Hq.
  - apply (f_equal length) in Hq. rewrite enqueue_insert_length in Hq. done.
  - unfold processCommand. by destruct (portOpen _).
Qed.

Lemma nostall_reachable (config : LitetouchConfig) (evs : list Event) :
  let st := run config evs init in
  processing st = false → queue st ≠ [] → (0 < immediates st)%nat.
Proof.
  apply (reachable_ind config
    (λ st, processing st = false → queue st ≠ [] → (0 < immediates st)%nat)).
  { done. }
  intros st ev _ IH. destruct ev; simpl.
  - by rewrite enqueue_busy.
  - unfold handleResponse.
    destruct (parseStatusResponse _ _); destruct (pendingResponse st);
      simpl; exact IH.
  - unfold onTimeout. destruct (timers st !! id); simpl; exact IH.
  - unfold onWritten. case_bool_decide; [|exact IH].
    destruct err; simpl; exact IH.
  - unfold resume. destruct (awaiting st); [|exact IH].
    destruct (exchanges st !! _); [|exact IH]. simpl.
    destruct (queue st) eqn:Hq; simpl; [by rewrite Hq|lia].
  - unfold onImmediate. destruct (immediates st) as [|n] eqn:Hn.
    { rewrite Hn. exact IH. }
    destruct (processNext_busy_or_empty config (set_immediates n st))
      as [[Hbusy|Hempty] _]; intros; congruence.
  - done.
  - unfold clearPollingCommands. simpl. intros Hp Hq. apply IH; [done|].
    intros E. by rewrite E in Hq.
  - unfold close, clear, stopPolling.
    destruct (pollingTimer st); simpl; destruct (pendingResponse st); done.
  - exact IH.
  - exact IH.
  - exact IH.
  - unfold startPolling. destruct (pollingTimer st); [exact IH|].
    unfold pollNextLoad. destruct (loadAddresses st); [exact IH|].
    simpl. unfold queryLoad, enqueuePolling. by rewrite enqueue_busy.
  - unfold stopPolling. destruct (pollingTimer st); exact IH.
  - unfold onPollingTimer. destruct (pollingTimer st); [|exact IH].
    unfold pollNextLoad. destruct (loadAddresses st); [exact IH|].
    simpl. unfold queryLoad, enqueuePolling. by rewrite enqueue_busy.
Qed.

Lemma drain_ready (config : LitetouchConfig) (st : State)
    (cmd : QueuedCommand) (rest : list QueuedCommand) :
  Invariant config st →
  (processing st = false → queue st ≠ [] → (0 < immediates st)%nat) →
  queue st = cmd :: rest →
  let st' := run config (drain st) st in
  processing st' = false ∧ queue st' = cmd :: rest ∧
  dispatched st' = dispatched st ∧ (0 < immediates st')%nat.
Proof.
  intros Hinv Hstall Hq. unfold drain.
  pose proof (inv_processing _ _ Hinv) as Hproc.
  destruct (awaiting st) as [c|] eqn:Hc; simpl.
  - destruct (inv_awaiting _ _ Hinv c Hc) as (_ & _ & Harmed).
    set (st1 := onTimeout (handle c) st).
    assert (awaiting st1 = Some c ∧ queue st1 = queue st ∧
            dispatched st1 = dispatched st ∧
            is_Some (exchanges st1 !! handle c))
      as (Hc1 & Hq1 & Hd1 & [o He1]).
    { subst st1. unfold onTimeout.
      destruct (timers st !! handle c) as [d|] eqn:Hd; simpl.
      - assert (exchanges st !! handle c = None) as E by (apply Harmed; eauto).
        rewrite settle_lookup_eq by done. eauto.
      - repeat split; try done. apply not_eq_None_Some. intros E.
        destruct Harmed as [Harmed _]. destruct (Harmed E). congruence. }
    clearbody st1. unfold resume. rewrite Hc1, He1. simpl.
    rewrite Hq1, Hq. simpl. rewrite Hq1, Hd1. repeat split; [done|lia].
  - repeat split; try done. apply Hstall; [done|]. by rewrite Hq.
Qed.

(** X12. The queue does not stall.  In every reachable state with a
    command queued, either a command is being processed or a callback of
    [setImmediate] is scheduled.  Once the callbacks left for the command
    in flight (its timeout and the continuation of [processNext]) and one
    callback of [setImmediate] have run, the head of the queue has been
    handed to the transport and the rest of the queue is what is queued. *)
Theorem queue_progress (config : LitetouchConfig) (evs : list Event)
    (cmd : QueuedCommand) (rest : list QueuedCommand) :
  let st := run config evs init in
  queue st = cmd :: rest →
  (processing st = true ∨ (0 < immediates st)%nat) ∧
  let st' := run config (drain st ++ [Immediate]) st in
  dispatched st' = dispatched st ++ [cmd] ∧ queue st' = rest ∧
  awaiting st' = Some cmd ∧ processing st' = true.
Proof.
  intros st Hq.
  pose proof (reachable_invariant config evs) as Hinv.
  pose proof (nostall_reachable config evs) as Hstall.
  fold st in Hinv, Hstall. simpl in Hstall. clearbody st.
  split.
  { destruct (processing st); [by left|]. right. apply Hstall; [done|].
    by rewrite Hq. }
  unfold run. rewrite foldl_app. fold (run config (drain st) st).
  destruct (drain_ready config st cmd rest Hinv Hstall Hq)
    as (Hp & Hq' & Hd & Hi).
  set (st' := run config (drain st) st) in *. clearbody st'. simpl.
  unfold onImmediate. destruct (immediates st') as [|n]; [lia|].
  destruct (processNext_head config (set_immediates n st') cmd rest Hp Hq')
    as (? & ? & ? & ?).
  simpl in *. by rewrite <- Hd.
Qed.

Lemma queue_progress_witness :
  let evs := [PortOpened; Submit " 18 01-1" NORMAL 1;
              Submit " 10 03-1 001" HIGH 2] in
  let cmd := {| command := " 10 03-1 001"; priority := HIGH; handle := 1;
                timestamp := 2 |} in
  let st := run config0 evs init in
  (processing st = true ∨ (0 < immediates st)%nat) ∧
  let st' := run config0 (drain st ++ [Immediate]) st in
  dispatched st' = dispatched st ++ [cmd] ∧ queue st' = [] ∧
  awaiting st' = Some cmd ∧ processing st' = true.
Proof.
  intros evs cmd.
  apply (queue_progress config0 evs cmd []).
  vm_compute. reflexivity.
Defined.

(** X13. What was written to the port is, frame by frame, a sub-sequence
    of the commands handed to the transport, in the order they were handed
    over, each followed by a carriage return and nothing else.  A command
    that was handed over and not written found the port closed: its
    exchange was rejected with "Serial port not open". *)
Theorem wire_frames (config : LitetouchConfig) (evs : list Event) :
  let st := run config evs init in
  ∃ sent,
    sent `sublist_of` dispatched st ∧ wire st = frame <$> sent ∧
    (∀ c, c ∈ dispatched st → c ∉ sent →
       exchanges st !! handle c
       = Some (Rejected (MkError "Serial port not open"))).
Proof.
  apply (reachable_ind config
    (λ st, ∃ sent,
       sent `sublist_of` dispatched st ∧ wire st = frame <$> sent ∧
       (∀ c, c ∈ dispatched st → c ∉ sent →
          exchanges st !! handle c
          = Some (Rejected (MkError "Serial port not open"))))).
  { exists []. repeat split; [done|]. intros c Hc. by apply elem_of_nil in Hc. }
  intros st ev Hinv (sent & Hsub & Hwire & Hrest).
  destruct (Effects_step config ev st Hinv) as [_ _ He _ _].
  destruct (step_dispatches config ev st Hinv)
    as [(Hd & Hw & _)|(cmd & _ & _ & _ & Hd & _ & _ & _ & _ & Hport)].
  { exists sent. rewrite Hd, Hw. repeat split; try done.
    intros c Hc Hout. by apply He, Hrest. }
  rewrite Hd. destruct (portOpen st).
  - destruct Hport as (Hw & _). exists (sent ++ [cmd]).
    rewrite Hw, Hwire, fmap_app. repeat split; [by apply sublist_app|].
    intros c [Hc| ->%list_elem_of_singleton]%elem_of_app
      [Hout Hne]%not_elem_of_app.
    + by apply He, Hrest.
    + destruct Hne. apply list_elem_of_here.
  - destruct Hport as (Hw & _ & Hx & _). exists sent.
    rewrite Hw. repeat split; [by apply sublist_inserts_r|done|].
    intros c [Hc| ->%list_elem_of_singleton]%elem_of_app Hout; [|done].
    by apply He, Hrest.
Qed.

(** *** Polling *)

Lemma enqueue_polling (config : LitetouchConfig) (command : string)
    (priority : CommandPriority) (now : Z) (st : State) :
  let st' := enqueue config command priority now st in
  loadAddresses st' = loadAddresses st ∧
  currentPollingIndex st' = currentPollingIndex st ∧
  pollingTimer st' = pollingTimer st.
Proof.
  unfold enqueue, processNext, processCommand. simpl.
  destruct (processing st); [done|].
  destruct (enqueue_insert _ (queue st)); [done|].
  simpl. by destruct (portOpen st).
Qed.

Lemma enqueue_keeps (config : LitetouchConfig) (command : string)
    (priority : CommandPriority) (now : Z) (st : State) (c : QueuedCommand) :
  let st' := enqueue config command priority now st in
  c ∈ queue st ∨ c ∈ dispatched st → c ∈ queue st' ∨ c ∈ dispatched st'.
Proof.
  intros st' Hc.
  set (c0 := {| command := command; priority := priority;
                handle := next_handle st; timestamp := now |}).
  assert (c ∈ enqueue_insert c0 (queue st) ∨ c ∈ dispatched st) as Hc1.
  { destruct Hc as [Hc|Hc]; [left|by right].
    rewrite enqueue_insert_perm. by apply list_elem_of_further. }
  subst st'. unfold enqueue, processNext. simpl. fold c0.
  destruct (processing st); [exact Hc1|].
  destruct (enqueue_insert c0 (queue st)) as [|cmd rest]; [exact Hc1|].
  set (st1 := set_dispatched _ _).
  destruct (processCommand_queue config cmd st1) as (-> & _ & -> & _).
  simpl. rewrite elem_of_app, list_elem_of_singleton.
  destruct Hc1 as [[->|Hc1]%elem_of_cons|Hc1]; auto.
Qed.

Lemma cursor_reachable (config : LitetouchConfig) (evs : list Event) :
  let st := run config evs init in
  loadAddresses st ≠ [] →
  (currentPollingIndex st < length (loadAddresses st))%nat.
Proof.
  apply (reachable_ind config
    (λ st, loadAddresses st ≠ [] →
           (currentPollingIndex st < length (loadAddresses st))%nat)).
  { done. }
  assert (∀ now st,
            (loadAddresses st ≠ [] →
             (currentPollingIndex st < length (loadAddresses st))%nat) →
            loadAddresses (pollNextLoad config now st) ≠ [] →
            (currentPollingIndex (pollNextLoad config now st)
             < length (loadAddresses (pollNextLoad config now st)))%nat)
    as Hpoll.
  { intros now st IH. unfold pollNextLoad.
    destruct (loadAddresses st) as [|a l] eqn:E; [simpl; by rewrite E|].
    assert ((currentPollingIndex st + 1) `mod` length (a :: l)
            < length (a :: l))%nat as Hm
      by (by apply Nat.mod_upper_bound).
    set (m := ((currentPollingIndex st + 1) `mod` length (a :: l))%nat) in *.
    clearbody m.
    set (st0 := set_currentPollingIndex _ st).
    set (st1 := queryLoad _ _ _ st0).
    assert (loadAddresses st1 = loadAddresses st0 ∧
            currentPollingIndex st1 = currentPollingIndex st0) as [Hl Hi].
    { destruct (enqueue_polling config
                  (queryLoad_command
                     (default "undefined" ((a :: l) !! currentPollingIndex st)))
                  NORMAL now st0) as (? & ? & _).
      done. }
    clearbody st1. simpl. rewrite Hl, Hi. simpl. rewrite E.
    intros _. exact Hm. }
  intros st ev _ IH. destruct ev as [cmd prio now| | | | | | | | | | | | | |]; simpl.
  - by destruct (enqueue_polling config cmd prio now st) as (-> & -> & _).
  - unfold handleResponse.
    destruct (parseStatusResponse _ _); destruct (pendingResponse st);
      simpl; exact IH.
  - unfold onTimeout. destruct (timers st !! id); simpl; exact IH.
  - unfold onWritten. case_bool_decide; [|exact IH].
    destruct err; simpl; exact IH.
  - unfold resume. destruct (awaiting st); [|exact IH].
    destruct (exchanges st !! _); [|exact IH]. simpl.
    destruct (queue st); simpl; exact IH.
  - unfold onImmediate. destruct (immediates st) as [|n]; [exact IH|].
    unfold processNext, processCommand. simpl.
    destruct (processing st); [exact IH|]. destruct (queue st); [exact IH|].
    simpl. destruct (portOpen st); exact IH.
  - exact IH.
  - exact IH.
  - unfold close, clear, stopPolling.
    destruct (pollingTimer st); simpl; destruct (pendingResponse st); exact IH.
  - exact IH.
  - exact IH.
  - intros H. destruct addresses; [done|]. simpl. lia.
  - unfold startPolling. destruct (pollingTimer st); [exact IH|].
    by apply Hpoll.
  - unfold stopPolling. destruct (pollingTimer st); exact IH.
  - unfold onPollingTimer. destruct (pollingTimer st); [|exact IH].
    by apply Hpoll.
Qed.

Lemma polling_tick (config : LitetouchConfig) (now : Z) (st : State) :
  Invariant config st → is_Some (pollingTimer st) →
  (currentPollingIndex st < length (loadAddresses st))%nat →
  let st1 := step config (PollingTimer now) st in
  loadAddresses st1 = loadAddresses st ∧
  currentPollingIndex st1
  = ((currentPollingIndex st + 1) `mod` length (loadAddresses st))%nat ∧
  pollingTimer st1 = Some (pollingInterval config) ∧
  next_handle st1 = S (next_handle st) ∧
  (∃ a, loadAddresses st !! currentPollingIndex st = Some a ∧
     let c := {| command := queryLoad_command a; priority := NORMAL;
                 handle := next_handle st; timestamp := now |} in
     c ∈ queue st1 ∨ c ∈ dispatched st1) ∧
  (∀ c, c ∈ queue st ∨ c ∈ dispatched st →
        c ∈ queue st1 ∨ c ∈ dispatched st1).
Proof.
  intros Hinv [d Hd] Hidx. simpl. unfold onPollingTimer. rewrite Hd.
  unfold pollNextLoad.
  destruct (loadAddresses st) as [|a0 l] eqn:E; [simpl in Hidx; lia|].
  destruct (lookup_lt_is_Some_2 (a0 :: l) (currentPollingIndex st) Hidx)
    as [a Ha].
  rewrite Ha. simpl default.
  set (st0 := set_currentPollingIndex _ st).
  assert (Invariant config st0) as Hinv0 by frame_invariant Hinv.
  unfold queryLoad, enqueuePolling.
  destruct (enqueue_polling config (queryLoad_command a) NORMAL now st0)
    as (Hl & Hi & _).
  destruct (enqueue_places config (queryLoad_command a) NORMAL now st0 Hinv0)
    as [Hn Hc].
  pose proof (enqueue_invariant config (queryLoad_command a) NORMAL now st0
                Hinv0) as Hinv1.
  pose proof (λ c, enqueue_keeps config (queryLoad_command a) NORMAL now st0 c)
    as Hkeep.
  set (st1 := enqueue config (queryLoad_command a) NORMAL now st0) in *.
  clearbody st1. simpl in *. rewrite Hl, Hi, E.
  repeat split; try done.
  exists a. split; [done|].
  destruct Hc as [Hc|Hc]; [by left|right].
  by apply (inv_awaiting _ _ Hinv1).
Qed.

Lemma polling_ticks (config : LitetouchConfig) (nows : list Z) (st : State) :
  Invariant config st → is_Some (pollingTimer st) →
  (currentPollingIndex st < length (loadAddresses st))%nat →
  let l := loadAddresses st in
  let st' := run config (PollingTimer <$> nows) st in
  loadAddresses st' = l ∧
  currentPollingIndex st'
  = ((currentPollingIndex st + length nows) `mod` length l)%nat ∧
  is_Some (pollingTimer st') ∧
  next_handle st' = (next_handle st + length nows)%nat ∧
  (∀ c, c ∈ queue st ∨ c ∈ dispatched st →
        c ∈ queue st' ∨ c ∈ dispatched st') ∧
  (∀ i now, nows !! i = Some now →
     ∃ a, l !! ((currentPollingIndex st + i) `mod` length l)%nat = Some a ∧
       let c := {| command := queryLoad_command a; priority := NORMAL;
                   handle := next_handle st + i; timestamp := now |} in
       c ∈ queue st' ∨ c ∈ dispatched st').
Proof.
  intros Hinv Harmed Hidx l.
  induction nows as [|now nows IH] using rev_ind; simpl.
  { rewrite !Nat.add_0_r, Nat.mod_small by done.
    repeat split; try done. }
  rewrite fmap_app. unfold run. rewrite foldl_app.
  fold (run config (PollingTimer <$> nows) st).
  destruct IH as (Hl & Hi & Ht & Hn & Hkeep & Hcmds).
  assert (Invariant config (run config (PollingTimer <$> nows) st)) as Hinv'
    by (by apply run_invariant).
  set (st' := run config (PollingTimer <$> nows) st) in *. clearbody st'.
  assert (length l ≠ 0)%nat as Hlen by (subst l; lia).
  assert (currentPollingIndex st' < length (loadAddresses st'))%nat as Hidx'.
  { rewrite Hl, Hi. by apply Nat.mod_upper_bound. }
  destruct (polling_tick config now st' Hinv' Ht Hidx')
    as (Hl1 & Hi1 & Ht1 & Hn1 & (a & Ha & Hc) & Hkeep1).
  change (foldl (λ st e, step config e st) st' (PollingTimer <$> [now]))
    with (step config (PollingTimer now) st').
  set (st1 := step config (PollingTimer now) st') in *. clearbody st1.
  rewrite length_app. simpl length.
  split; [congruence|]. split.
  { rewrite Hi1, Hl, Hi, Nat.Div0.add_mod_idemp_l.
    f_equal. lia. }
  split; [by rewrite Ht1|]. split; [lia|]. split; [by auto|].
  intros i now' Hlook.
  destruct (decide (i < length nows)%nat) as [Hlt|Hge].
  - rewrite lookup_app_l in Hlook by done.
    destruct (Hcmds i now' Hlook) as (a' & Ha' & Hc').
    exists a'. split; [done|]. by apply Hkeep1.
  - assert (i = length nows) as ->.
    { apply lookup_lt_Some in Hlook. rewrite length_app in Hlook.
      simpl in Hlook. lia. }
    rewrite lookup_app_r, Nat.sub_diag in Hlook by done.
    injection Hlook as <-.
    exists a. rewrite <- Hi, <- Hl, <- Hn. by split.
Qed.

(** X14. Polling goes round the address list.  On a connection that is
    polling a non-empty list the cursor is inside the list, so a tick never
    reads past its end.  After any number of ticks the cursor has advanced
    by that number modulo the length of the list, the timer is armed, and
    the tick number [i] has submitted, at NORMAL priority and with the
    handle [i] places after the first, the query of the address [i] places
    after the cursor, counted round the list; each of these commands is
    queued or was handed to the transport. *)
Theorem polling_round_robin (config : LitetouchConfig) (evs : list Event)
    (nows : list Z) :
  let st := run config evs init in
  let l := loadAddresses st in
  let st' := run config (PollingTimer <$> nows) st in
  l ≠ [] → is_Some (pollingTimer st) →
  (currentPollingIndex st < length l)%nat ∧
  loadAddresses st' = l ∧
  currentPollingIndex st'
  = ((currentPollingIndex st + length nows) `mod` length l)%nat ∧
  is_Some (pollingTimer st') ∧
  next_handle st' = (next_handle st + length nows)%nat ∧
  (∀ i now, nows !! i = Some now →
     ∃ a, l !! ((currentPollingIndex st + i) `mod` length l)%nat = Some a ∧
       let c := {| command := queryLoad_command a; priority := NORMAL;
                   handle := next_handle st + i; timestamp := now |} in
       c ∈ queue st' ∨ c ∈ dispatched st').
Proof.
  intros st l st' Hl Harmed.
  pose proof (reachable_invariant config evs) as Hinv.
  pose proof (cursor_reachable config evs Hl) as Hidx.
  fold st in Hinv, Hidx. fold l in Hidx.
  destruct (polling_ticks config nows st Hinv Harmed Hidx)
    as (H1 & H2 & H3 & H4 & _ & H6).
  done.
Qed.

Lemma polling_round_robin_witness :
  let evs := [PortOpened; SetLoadAddresses ["01-1"; "05-1"; "07-4"];
              StartPolling 0; PollingTimer 2000] in
  let nows := [4000; 6000; 8000] in
  let st := run config0 evs init in
  let l := loadAddresses st in
  let st' := run config0 (PollingTimer <$> nows) st in
  (currentPollingIndex st < length l)%nat ∧
  loadAddresses st' = l ∧
  currentPollingIndex st'
  = ((currentPollingIndex st + length nows) `mod` length l)%nat ∧
  is_Some (pollingTimer st') ∧
  next_handle st' = (next_handle st + length nows)%nat ∧
  (∀ i now, nows !! i = Some now →
     ∃ a, l !! ((currentPollingIndex st + i) `mod` length l)%nat = Some a ∧
       let c := {| command := queryLoad_command a; priority := NORMAL;
                   handle := next_handle st + i; timestamp := now |} in
       c ∈ queue st' ∨ c ∈ dispatched st').
Proof.
  intros evs nows.
  apply (polling_round_robin config0 evs nows).
  - vm_compute. discriminate.
  - vm_compute. eauto.
Defined.

(** *** Failures of the port *)

Lemma resume_frees (config : LitetouchConfig) (st : State)
    (cmd : QueuedCommand) (o : Settled) :
  Invariant config st →
  awaiting st = Some cmd → exchanges st !! handle cmd = Some o →
  let st' := step config Resume st in
  handles st' !! handle cmd = Some o ∧ processing st' = false ∧
  awaiting st' = None ∧ queue st' = queue st ∧
  immediates st'
  = match queue st with [] => immediates st | _ => S (immediates st) end.
Proof.
  intros Hinv Hc Ho. simpl. unfold resume. rewrite Hc, Ho. simpl.
  destruct (inv_awaiting _ _ Hinv cmd Hc) as (_ & Hnone & _).
  destruct (queue st) eqn:Hq; simpl; rewrite Hq;
    (split; [by apply settle_lookup_eq|done]).
Qed.

(** X15. While the port is closed no step writes anything.  A command
    that is handed to the transport then installs no record in the slot;
    its exchange is rejected with "Serial port not open", and the
    continuation of [processNext] rejects its handle with that error and
    leaves the queue free to process the next command. *)
Theorem closed_port_rejects (config : LitetouchConfig) (evs : list Event)
    (ev : Event) (cmd : QueuedCommand) :
  let st := run config evs init in
  let st' := step config ev st in
  let st'' := step config Resume st' in
  portOpen st = false →
  wire st' = wire st ∧
  (dispatched st' = dispatched st ++ [cmd] →
   pendingResponse st' = None ∧
   exchanges st' !! handle cmd
   = Some (Rejected (MkError "Serial port not open")) ∧
   handles st'' !! handle cmd
   = Some (Rejected (MkError "Serial port not open")) ∧
   processing st'' = false ∧ queue st'' = queue st').
Proof.
  intros st st' st'' Hclosed.
  pose proof (reachable_invariant config evs) as Hinv. fold st in Hinv.
  clearbody st.
  assert (Invariant config st') as Hinv' by (by apply step_invariant).
  destruct (step_dispatches config ev st Hinv)
    as [(Hd & Hw & _)|(cmd' & _ & _ & _ & Hd & Ha & _ & _ & _ & Hport)].
  { fold st' in Hd, Hw. split; [done|]. rewrite Hd. intros E%(f_equal length).
    rewrite length_app in E. simpl in E. lia. }
  fold st' in Hd, Ha, Hport. rewrite Hclosed in Hport.
  destruct Hport as (Hw & Hp & Hx & _).
  split; [done|]. rewrite Hd. intros [_ [= <-]]%app_inj_tail.
  destruct (resume_frees config st' cmd' _ Hinv' Ha Hx) as (? & ? & _ & ? & _).
  done.
Qed.

Lemma closed_port_rejects_witness :
  let ev := Submit " 10 03-1 001" HIGH 1 in
  let cmd := {| command := " 10 03-1 001"; priority := HIGH; handle := 0;
                timestamp := 1 |} in
  let st := run config0 [] init in
  let st' := step config0 ev st in
  let st'' := step config0 Resume st' in
  wire st' = wire st ∧
  (dispatched st' = dispatched st ++ [cmd] →
   pendingResponse st' = None ∧
   exchanges st' !! handle cmd
   = Some (Rejected (MkError "Serial port not open")) ∧
   handles st'' !! handle cmd
   = Some (Rejected (MkError "Serial port not open")) ∧
   processing st'' = false ∧ queue st'' = queue st').
Proof.
  intros ev cmd.
  apply (closed_port_rejects config0 [] ev cmd). reflexivity.
Defined.

(** X16. The callback of a write that reports an error empties the slot,
    cancels the timeout of its exchange and rejects the exchange with the
    error of the port, unless the exchange was settled before: then its
    outcome stays.  No other exchange changes.  For the command in flight
    with its exchange open, the continuation of [processNext] then rejects
    the handle with the error of the port and frees the queue. *)
Theorem write_error_rejects (config : LitetouchConfig) (evs : list Event)
    (id : nat) (e : Error) :
  let st := run config evs init in
  let st1 := step config (Written id (Some e)) st in
  let st2 := step config Resume st1 in
  id ∈ writes st →
  pendingResponse st1 = None ∧ timers st1 !! id = None ∧ (id ∉ writes st1) ∧
  exchanges st1 !! id = Some (default (Rejected e) (exchanges st !! id)) ∧
  (∀ id', id' ≠ id → exchanges st1 !! id' = exchanges st !! id') ∧
  wire st1 = wire st ∧ queue st1 = queue st ∧ handles st1 = handles st ∧
  (∀ cmd, awaiting st = Some cmd → handle cmd = id →
     exchanges st !! id = None →
     handles st2 !! id = Some (Rejected e) ∧ processing st2 = false ∧
     queue st2 = queue st).
Proof.
  intros st st1 st2 Hid.
  pose proof (reachable_invariant config evs) as Hinv. fold st in Hinv.
  clearbody st.
  assert (Invariant config st1) as Hinv1 by (by apply step_invariant).
  assert (st1 = settle_exchange id (Rejected e)
                  (set_pendingResponse None
                     (clearTimeout id
                        (set_writes (writes st ∖ {[id]}) st)))) as Hst1.
  { subst st1. simpl. unfold onWritten. by rewrite bool_decide_eq_true_2. }
  assert (exchanges st1 !! id
          = Some (default (Rejected e) (exchanges st !! id))) as Hx.
  { rewrite Hst1. simpl.
    destruct (exchanges st !! id) as [o|] eqn:Ho; simpl.
    - by rewrite (settle_settled _ _ _ _ Ho).
    - by apply settle_lookup_eq. }
  assert (awaiting st1 = awaiting st ∧ queue st1 = queue st) as [Ha Hq]
    by (by rewrite Hst1).
  split; [by rewrite Hst1|]. split.
  { rewrite Hst1. simpl. apply lookup_delete_eq. }
  split; [rewrite Hst1; simpl; set_solver|].
  split; [exact Hx|]. split.
  { intros id' Hne. rewrite Hst1. simpl. by apply settle_lookup_ne. }
  split; [by rewrite Hst1|]. split; [done|]. split; [by rewrite Hst1|].
  intros cmd Hcmd <- Hopen. rewrite Hopen in Hx. simpl in Hx.
  rewrite <- Ha in Hcmd.
  destruct (resume_frees config st1 cmd _ Hinv1 Hcmd Hx) as (? & ? & _ & ? & _).
  fold st2 in H, H0, H1. clearbody st1 st2. repeat split; congruence.
Qed.

Lemma write_error_rejects_witness :
  let evs := [PortOpened; Submit " 10 03-1 001" HIGH 1] in
  let id := 0%nat in
  let e := MkError "EIO" in
  let st := run config0 evs init in
  let st1 := step config0 (Written id (Some e)) st in
  let st2 := step config0 Resume st1 in
  pendingResponse st1 = None ∧ timers st1 !! id = None ∧ (id ∉ writes st1) ∧
  exchanges st1 !! id = Some (default (Rejected e) (exchanges st !! id)) ∧
  (∀ id', id' ≠ id → exchanges st1 !! id' = exchanges st !! id') ∧
  wire st1 = wire st ∧ queue st1 = queue st ∧ handles st1 = handles st ∧
  (∀ cmd, awaiting st = Some cmd → handle cmd = id →
     exchanges st !! id = None →
     handles st2 !! id = Some (Rejected e) ∧ processing st2 = false ∧
     queue st2 = queue st).
Proof.
  intros evs id e.
  apply (write_error_rejects config0 evs id e).
  vm_compute. set_solver.
Defined.

(** *** Promises and timers *)

(** X17. Every handle [enqueue] has returned is in exactly one of three
    states: it is settled, or its command is queued, or its command is the
    one in flight.  No other handle is in any of them. *)
Theorem handle_states (config : LitetouchConfig) (evs : list Event) (id : nat) :
  let st := run config evs init in
  let settled := is_Some (handles st !! id) in
  let queued := id ∈ handle <$> queue st in
  let in_flight := ∃ c, awaiting st = Some c ∧ handle c = id in
  ((id < next_handle st)%nat ↔ settled ∨ queued ∨ in_flight) ∧
  ¬ (settled ∧ queued) ∧ ¬ (settled ∧ in_flight) ∧ ¬ (queued ∧ in_flight).
Proof.
  intros st settled queued in_flight.
  pose proof (reachable_invariant config evs) as Hinv. fold st in Hinv.
  clearbody st. subst settled queued in_flight.
  split; [split|split; [|split]].
  - intros Hid.
    destruct (inv_accounted _ _ Hinv id Hid) as [Hq|[Hd|(o & Ho & _)]];
      [by auto| |by eauto].
    apply list_elem_of_fmap in Hd as (c & -> & Hc).
    destruct (inv_dispatched _ _ Hinv c Hc) as (_ & Hopen & _).
    destruct (handles st !! handle c) eqn:E; [by eauto|].
    right. right. exists c. by split; [apply Hopen|].
  - intros [Hs|[Hq|(c & Hc & <-)]].
    + by apply (inv_handles _ _ Hinv).
    + apply list_elem_of_fmap in Hq as (c & -> & Hc).
      by apply (inv_queue _ _ Hinv).
    + destruct (inv_awaiting _ _ Hinv c Hc) as (Hin & _).
      by apply (inv_dispatched _ _ Hinv).
  - intros [[o Ho] Hq]. apply list_elem_of_fmap in Hq as (c & -> & Hc).
    destruct (inv_queue _ _ Hinv c Hc) as (_ & Hnone & _). congruence.
  - intros [[o Ho] (c & Hc & <-)].
    destruct (inv_awaiting _ _ Hinv c Hc) as (_ & Hnone & _). congruence.
  - intros [Hq (c & Hc & <-)]. apply list_elem_of_fmap in Hq as (c' & E & Hc').
    destruct (inv_queue _ _ Hinv c' Hc') as (_ & _ & Hout). apply Hout.
    rewrite <- E. apply list_elem_of_fmap_2.
    by apply (inv_awaiting _ _ Hinv).
Qed.

(** X18. A command timeout is armed only for the command in flight, for
    [commandTimeout] milliseconds, and only while its exchange and its
    handle are open: a timeout never fires for a command that was answered,
    and never for a command other than the one in flight.  A record in the
    slot always has its timeout armed.  When nothing is in flight the slot
    is empty and no timeout is armed. *)
Theorem timeouts_in_flight (config : LitetouchConfig) (evs : list Event) :
  let st := run config evs init in
  (∀ id d, timers st !! id = Some d →
     d = commandTimeout config ∧
     ∃ c, awaiting st = Some c ∧ handle c = id ∧
          exchanges st !! id = None ∧ handles st !! id = None) ∧
  (∀ p, pendingResponse st = Some p → is_Some (timers st !! p_id p)) ∧
  (awaiting st = None → timers st = ∅ ∧ pendingResponse st = None).
Proof.
  intros st.
  pose proof (reachable_invariant config evs) as Hinv. fold st in Hinv.
  clearbody st. split; [|split].
  - intros id d Hd.
    destruct (inv_timers _ _ Hinv id (mk_is_Some _ _ Hd)) as (Hd' & c & Hc & <-).
    split; [congruence|]. exists c.
    destruct (inv_awaiting _ _ Hinv c Hc) as (_ & Hnone & Hopen).
    repeat split; try done. apply Hopen. eauto.
  - intros p Hp. by destruct (inv_pending _ _ Hinv p Hp) as (c & _ & _ & _ & H).
  - intros Hidle. destruct (idle_facts config st Hinv Hidle) as (Ht & Hp & _).
    split; [|done]. apply map_eq. intros id. by rewrite Ht, lookup_empty.
Qed.

(** *** The delayed ['on'] of a dimmer *)

Lemma restoredLevel_pos (a : string) (p : Platform.State) :
  (∀ a l, Platform.lastDimmerLevels p !! a = Some l → 0 < l) →
  1 ≤ Platform.restoredLevel a p.
Proof.
  intros H. unfold Platform.restoredLevel.
  destruct (Platform.lastDimmerLevels p !! a) as [l|] eqn:E; [|lia].
  apply H in E. destruct (l =? 0) eqn:El; lia.
Qed.

Lemma handleLoadStatus_levels_pos (status : LoadStatus) (active : bool)
    (p : Platform.State) :
  (∀ a l, Platform.lastDimmerLevels p !! a = Some l → 0 < l) →
  ∀ a l,
    Platform.lastDimmerLevels (Platform.handleLoadStatus status active p) !! a
    = Some l → 0 < l.
Proof.
  intros H a l. unfold Platform.handleLoadStatus.
  case_bool_decide; [|by apply H].
  destruct (Platform.deviceTypes p !! address status) as [[]|];
    [..|by apply H]; destruct active; try (by apply H).
  destruct (0 <? level status) eqn:Hpos; simpl; [|by apply H].
  apply Z.ltb_lt in Hpos.
  intros [[<- <-]|[_ E]]%lookup_insert_Some; [done|by apply (H a)].
Qed.

Lemma cancelPending_consistent (a : string) (st : Handlers.State) :
  Handlers.Consistent st →
  Handlers.Consistent (Handlers.cancelPending a st) ∧
  Handlers.pendingOnTimers (Handlers.cancelPending a st) !! a = None ∧
  (∀ timer l,
     Handlers.timeouts (Handlers.cancelPending a st) !! timer ≠ Some (a, l)) ∧
  Handlers.calls (Handlers.cancelPending a st) = Handlers.calls st ∧
  Handlers.platform (Handlers.cancelPending a st) = Handlers.platform st.
Proof.
  intros [Ht Hp Hl]. unfold Handlers.cancelPending.
  destruct (Handlers.pendingOnTimers st !! a) as [n|] eqn:E; simpl.
  - split; [constructor; simpl|].
    + intros timer a' l [Hne H]%lookup_delete_Some.
      destruct (Ht _ _ _ H) as [Hpa Hpos]. split; [|done].
      rewrite lookup_delete_ne; [done|]. intros <-. congruence.
    + intros a' timer [Hne H]%lookup_delete_Some.
      destruct (Hp _ _ H) as [Hlt [l Hl']]. split; [done|]. exists l.
      rewrite lookup_delete_ne; [done|]. intros <-.
      destruct (Hp _ _ E) as [_ [l' Hl'']]. congruence.
    + exact Hl.
    + split; [apply lookup_delete_eq|]. split; [|done].
      intros timer l [Hne H]%lookup_delete_Some.
      destruct (Ht _ _ _ H) as [Hpa _]. congruence.
  - split; [done|]. split; [done|]. split; [|done].
    intros timer l H. destruct (Ht _ _ _ H) as [Hpa _]. congruence.
Qed.

Lemma on_consistent (a : string) (st : Handlers.State) :
  Handlers.Consistent st → Handlers.Consistent (Handlers.on a st).
Proof.
  intros [Ht Hp Hl].
  assert (∀ timer, is_Some (Handlers.timeouts st !! timer) →
            (timer < Handlers.next_timeout st)%nat) as Hfresh.
  { intros timer [[a' l] H]. destruct (Ht _ _ _ H) as [Hpa _].
    by apply Hp in Hpa as [? _]. }
  unfold Handlers.on.
  destruct (Handlers.pendingOnTimers st !! a) as [n|] eqn:E; simpl;
    constructor; simpl.
  - intros timer a' l [[<- [= <- <-]]|[Hne [Hne' H]%lookup_delete_Some]]%lookup_insert_Some.
    + split; [by rewrite lookup_insert_eq|]. by apply restoredLevel_pos.
    + destruct (Ht _ _ _ H) as [Hpa Hpos]. split; [|done].
      rewrite lookup_insert_ne; [done|]. intros <-. congruence.
  - intros a' timer [[<- <-]|[Hne H]]%lookup_insert_Some.
    + split; [lia|]. eexists. by rewrite lookup_insert_eq.
    + destruct (Hp _ _ H) as [Hlt [l Hl']]. split; [lia|]. exists l.
      rewrite lookup_insert_ne by lia.
      rewrite lookup_delete_ne; [done|]. intros <-.
      destruct (Hp _ _ E) as [_ [l' Hl'']]. congruence.
  - exact Hl.
  - intros timer a' l [[<- [= <- <-]]|[Hne H]]%lookup_insert_Some.
    + split; [by rewrite lookup_insert_eq|]. by apply restoredLevel_pos.
    + destruct (Ht _ _ _ H) as [Hpa Hpos]. split; [|done].
      rewrite lookup_insert_ne; [done|]. intros <-. congruence.
  - intros a' timer [[<- <-]|[Hne H]]%lookup_insert_Some.
    + split; [lia|]. eexists. by rewrite lookup_insert_eq.
    + destruct (Hp _ _ H) as [Hlt [l Hl']]. split; [lia|]. exists l.
      by rewrite lookup_insert_ne by lia.
  - exact Hl.
Qed.

Lemma onTimer_consistent (timer : nat) (st : Handlers.State) :
  Handlers.Consistent st → Handlers.Consistent (Handlers.onTimer timer st).
Proof.
  intros Hc. pose proof Hc as [Ht Hp Hl]. unfold Handlers.onTimer.
  destruct (Handlers.timeouts st !! timer) as [[a l]|] eqn:E; [|done].
  destruct (Ht _ _ _ E) as [Hpa _].
  constructor; simpl.
  - intros timer' a' l' [Hne H]%lookup_delete_Some.
    destruct (Ht _ _ _ H) as [Hpa' Hpos]. split; [|done].
    rewrite lookup_delete_ne; [done|]. intros <-. congruence.
  - intros a' timer' [Hne H]%lookup_delete_Some.
    destruct (Hp _ _ H) as [Hlt [l' Hl']]. split; [done|]. exists l'.
    rewrite lookup_delete_ne; [done|]. intros <-. congruence.
  - exact Hl.
Qed.

Lemma onShutdown_timeouts (st : Handlers.State) :
  Handlers.Consistent st →
  Handlers.timeouts (Handlers.onShutdown st) = ∅.
Proof.
  intros [Ht Hp Hl]. unfold Handlers.onShutdown. simpl.
  apply map_eq. intros timer. rewrite lookup_empty.
  apply eq_None_not_Some. intros [[a l] H].
  assert (Handlers.timeouts st !! timer = Some (a, l) ∧
          ∀ a', Handlers.pendingOnTimers st !! a' ≠ Some timer)
    as [Hlive Hnot].
  { revert H.
    apply (map_fold_weak_ind
      (λ (r : gmap nat (string * Z)) (m : gmap string nat),
         r !! timer = Some (a, l) →
         Handlers.timeouts st !! timer = Some (a, l) ∧
         ∀ a', m !! a' ≠ Some timer)
      (λ _ timer t, delete timer t)).
    - intros H. split; [done|]. intros a'. by rewrite lookup_empty.
    - intros a' n m r Hnone IH [Hne H]%lookup_delete_Some.
      destruct (IH H) as [Hlive Hnot]. split; [done|].
      intros a''. rewrite lookup_insert_Some.
      intros [[_ ->]|[_ H']]; [done|]. by apply (Hnot a''). }
  destruct (Ht _ _ _ Hlive) as [Hpa _]. by apply (Hnot a).
Qed.

Lemma handlers_step_consistent (ev : Handlers.Event) (st : Handlers.State) :
  Handlers.Consistent st → Handlers.Consistent (Handlers.step ev st).
Proof.
  intros Hc. destruct ev as [a|a|a isOn|a m|a m|timer|status active|]; simpl.
  - by apply on_consistent.
  - destruct (cancelPending_consistent a st Hc) as ([] & _).
    by constructor.
  - destruct Hc. unfold Handlers.toggle. destruct isOn; by constructor.
  - destruct (cancelPending_consistent a st Hc) as ([] & _).
    by constructor.
  - destruct (cancelPending_consistent a st Hc) as ([] & _).
    by constructor.
  - by apply onTimer_consistent.
  - destruct Hc as [Ht Hp Hl]. constructor; simpl; [done..|].
    by apply handleLoadStatus_levels_pos.
  - pose proof (onShutdown_timeouts st Hc) as Hempty.
    destruct Hc as [Ht Hp Hl]. constructor.
    + intros timer a l H. by rewrite Hempty, lookup_empty in H.
    + intros a timer H. simpl in H. by rewrite lookup_empty in H.
    + exact Hl.
Qed.

Lemma handlers_reachable (types : gmap string Platform.DeviceType)
    (evs : list Handlers.Event) :
  Handlers.Consistent (Handlers.run evs (Handlers.start types)).
Proof.
  induction evs as [|ev evs IH] using rev_ind.
  - constructor; simpl.
    + intros timer a l H. by rewrite lookup_empty in H.
    + intros a timer H. by rewrite lookup_empty in H.
    + intros a l H. by rewrite lookup_empty in H.
  - unfold Handlers.run. rewrite foldl_app. simpl.
    by apply handlers_step_consistent.
Qed.

(** X19. In every state of the platform each dimmer has at most one
    delayed ['on'] pending and no timeout is leaked: the live timeouts are
    exactly those the map of pending timers names, each under the address
    it captured.  The level a delayed ['on'] will restore is at least 1.
    After the shutdown has cleared the timers no timeout is live and none
    is pending, so no delayed ['on'] runs afterwards. *)
Theorem pending_on_timers (types : gmap string Platform.DeviceType)
    (evs : list Handlers.Event) :
  let st := Handlers.run evs (Handlers.start types) in
  (∀ timer a l, Handlers.timeouts st !! timer = Some (a, l) →
     Handlers.pendingOnTimers st !! a = Some timer ∧ 1 ≤ l) ∧
  (∀ a timer, Handlers.pendingOnTimers st !! a = Some timer →
     ∃ l, Handlers.timeouts st !! timer = Some (a, l)) ∧
  Handlers.timeouts (Handlers.step Handlers.Shutdown st) = ∅ ∧
  Handlers.pendingOnTimers (Handlers.step Handlers.Shutdown st) = ∅ ∧
  (∀ timer,
     Handlers.step (Handlers.OnTimer timer)
       (Handlers.step Handlers.Shutdown st)
     = Handlers.step Handlers.Shutdown st).
Proof.
  intros st. pose proof (handlers_reachable types evs) as Hc. fold st in Hc.
  clearbody st. pose proof (onShutdown_timeouts st Hc) as Hempty.
  destruct Hc as [Ht Hp Hl].
  split; [exact Ht|]. split; [intros a timer H; by apply (Hp a timer)|].
  split; [exact Hempty|]. split; [done|].
  intros timer. simpl. unfold Handlers.onTimer.
  by rewrite Hempty, lookup_empty.
Qed.

(** X20. An ['on'] command sends nothing at once: it arms one timeout for
    the load, in place of the one that was pending, that will restore the
    last level known when the command arrived, which is at least 1.  When
    the timeout fires, [setDimmerLevel] is called once with that level and
    nothing is pending for the load.  A [moveToLevel],
    [moveToLevelWithOnOff] or ['off'] command calls [setDimmerLevel] with
    its own level and leaves no timeout live for the load, so a delayed
    ['on'] that was pending never runs. *)
Theorem delayed_on_is_overridden (types : gmap string Platform.DeviceType)
    (evs : list Handlers.Event) (a : string) :
  let st := Handlers.run evs (Handlers.start types) in
  let restore := Platform.restoredLevel a (Handlers.platform st) in
  let timer := Handlers.next_timeout st in
  let st1 := Handlers.step (Handlers.On a) st in
  let st2 := Handlers.step (Handlers.OnTimer timer) st1 in
  (Handlers.calls st1 = Handlers.calls st ∧ 1 ≤ restore ∧
   Handlers.pendingOnTimers st1 !! a = Some timer ∧
   (∀ timer' l, Handlers.timeouts st1 !! timer' = Some (a, l) →
      timer' = timer ∧ l = restore)) ∧
  (Handlers.calls st2 = Handlers.calls st ++ [(a, restore)] ∧
   Handlers.pendingOnTimers st2 !! a = None ∧
   Handlers.step (Handlers.OnTimer timer) st2 = st2) ∧
  (∀ ev level,
     (∃ m, (ev = Handlers.MoveToLevel a m ∨
            ev = Handlers.MoveToLevelWithOnOff a m) ∧
           level = Platform.levelOfRequest m) ∨
     (ev = Handlers.Off a ∧ level = 0) →
     ∀ st', st' = st ∨ st' = st1 →
       let st'' := Handlers.step ev st' in
       Handlers.calls st'' = Handlers.calls st ++ [(a, level)] ∧
       Handlers.pendingOnTimers st'' !! a = None ∧
       (∀ timer' l, Handlers.timeouts st'' !! timer' ≠ Some (a, l)) ∧
       Handlers.step (Handlers.OnTimer timer) st'' = st'').
Proof.
  intros st restore timer st1 st2.
  pose proof (handlers_reachable types evs) as Hc. fold st in Hc.
  assert (Handlers.Consistent st1) as Hc1
    by (by apply handlers_step_consistent).
  assert (Handlers.timeouts st !! timer = None) as Hfresh.
  { apply eq_None_not_Some. intros [[a' l] H].
    destruct (Handlers.con_timeouts _ Hc _ _ _ H) as [Hpa _].
    apply (Handlers.con_pending _ Hc) in Hpa as [Hlt _]. subst timer. lia. }
  assert (Handlers.calls st1 = Handlers.calls st ∧
          Handlers.platform st1 = Handlers.platform st ∧
          Handlers.pendingOnTimers st1 !! a = Some timer ∧
          Handlers.timeouts st1 !! timer = Some (a, restore))
    as (Hcalls1 & Hplat1 & Hpend1 & Hlive1).
  { subst st1 timer restore. simpl. unfold Handlers.on.
    destruct (Handlers.pendingOnTimers st !! a); simpl;
      by rewrite !lookup_insert_eq. }
  clearbody st st1. split; [|split].
  - split; [done|]. split; [apply restoredLevel_pos, (Handlers.con_levels _ Hc)|].
    split; [done|]. intros timer' l H.
    destruct (Handlers.con_timeouts _ Hc1 _ _ _ H) as [Hpa _].
    assert (timer' = timer) as -> by congruence.
    split; [done|]. congruence.
  - subst st2. simpl. unfold Handlers.onTimer. rewrite Hlive1. simpl.
    rewrite Hcalls1. split; [done|]. split; [apply lookup_delete_eq|].
    by rewrite lookup_delete_eq.
  - intros ev level Hev st' Hst'.
    assert (Handlers.Consistent st' ∧ Handlers.calls st' = Handlers.calls st)
      as [Hc' Hcalls'] by (by destruct Hst' as [->| ->]).
    destruct (cancelPending_consistent a st' Hc')
      as (_ & Hnone & Hdead & Hcalls & _).
    assert (Handlers.step ev st'
            = Handlers.call_setDimmerLevel a level
                (Handlers.cancelPending a st')) as ->.
    { by destruct Hev as [(m & [->| ->] & ->)|[-> ->]]. }
    simpl. rewrite Hcalls, Hcalls'. split; [done|]. split; [done|].
    split; [done|]. unfold Handlers.onTimer. simpl.
    destruct (Handlers.timeouts (Handlers.cancelPending a st') !! timer)
      as [[a' l]|] eqn:E; [|done].
    exfalso.
    assert (Handlers.timeouts st' !! timer = Some (a', l)) as E'.
    { revert E. unfold Handlers.cancelPending.
      destruct (Handlers.pendingOnTimers st' !! a); simpl; [|done].
      by intros [_ ?]%lookup_delete_Some. }
    destruct Hst' as [->| ->]; [congruence|].
    assert (a' = a) as -> by congruence.
    by apply (Hdead timer l).
Qed.

Lemma delayed_on_is_overridden_witness :
  let types : gmap string Platform.DeviceType :=
    {[ "01-1" := Platform.dimmer ]} in
  let evs :=
    [Handlers.LoadStatusEvent {| address := "01-1"; level := 40; raw := 100 |}
       true;
     Handlers.On "01-1"] in
  let st := Handlers.run evs (Handlers.start types) in
  let st1 := Handlers.step (Handlers.On "01-1") st in
  let st'' := Handlers.step (Handlers.MoveToLevel "01-1" 127) st1 in
  Handlers.calls st'' = Handlers.calls st ++ [("01-1", 50)] ∧
  Handlers.pendingOnTimers st'' !! "01-1" = None ∧
  (∀ timer' l, Handlers.timeouts st'' !! timer' ≠ Some ("01-1", l)) ∧
  Handlers.step (Handlers.OnTimer (Handlers.next_timeout st)) st'' = st''.
Proof.
  intros types evs st st1.
  destruct (delayed_on_is_overridden types evs "01-1") as (_ & _ & H).
  apply (H (Handlers.MoveToLevel "01-1" 127) 50); [|by right].
  left. exists 127. split; [by left|]. vm_compute. reflexivity.
Defined.
